(** * Scheduler and resource arbitration of os-pa2 (pa2.c)

    A shallow embedding of the scheduling policies and of the
    acquire/release protocols of [src/os-pa2-main/pa2.c].

    The C code works on three global objects: the process [current], the
    list head [readyqueue] and the table [resources].  Processes are
    heap objects that the queues link intrusively, and several of the
    functions write to a process through one pointer and read it back
    through another, so the model keeps an explicit store of processes
    addressed by pointer.  Every function of pa2.c becomes a computation
    in a small state-and-fault monad over that store. *)

From stdpp Require Import base numbers option list gmap.

Open Scope Z_scope.

(** ** Machine integers *)

(** [unsigned int] is 32 bits wide; arithmetic on it wraps around. *)
Definition UINT_MAX : Z := 4294967295.

Definition uint (x : Z) : Z := x mod 4294967296.

(** ** Data model *)

(** Modelled from the spec: process.h is not part of the sources.  The
    statuses are the four of the data model; pa2.c itself only names
    [PROCESS_READY] and [PROCESS_BLOCKED]. *)
Inductive process_status :=
  | PROCESS_READY
  | PROCESS_RUNNING
  | PROCESS_BLOCKED
  | PROCESS_TERMINATED.

#[global] Instance process_status_eq_dec : EqDecision process_status.
Proof. solve_decision. Defined.

(** A pointer to a [struct process].  [NULL] is [None] in [option ptr]. *)
Abbreviation ptr := Z (only parsing).

(** Modelled from the spec: [struct process] of process.h, with the field
    names pa2.c uses ([prio] is the spec's priority, [prio_orig] its
    base_priority).  pa2.c compares [lifespan] and [prio] against
    [unsigned int] locals, so the numeric fields are unsigned.  The
    [list] member is not a field here: queue membership is the position
    of the process's pointer in a queue of the state. *)
Record process := mkProcess {
  pid : Z;
  status : process_status;
  age : Z;
  lifespan : Z;
  prio : Z;
  prio_orig : Z;
}.

Definition set_status (st : process_status) (p : process) : process :=
  mkProcess (pid p) st (age p) (lifespan p) (prio p) (prio_orig p).

Definition set_age (a : Z) (p : process) : process :=
  mkProcess (pid p) (status p) a (lifespan p) (prio p) (prio_orig p).

Definition set_prio (v : Z) (p : process) : process :=
  mkProcess (pid p) (status p) (age p) (lifespan p) v (prio_orig p).

(** Modelled from the spec: [struct resource] of resource.h. *)
Record resource := mkResource {
  owner : option ptr;
  waitqueue : list ptr;
}.

(** The global state.  A [list_head] chain is the sequence of the
    processes linked on it, head first.  One process has one [list]
    member, so a real chain never holds a process twice and a process is
    on at most one chain; the model is meant for such states. *)
Record state := mkState {
  procs : gmap Z process;
  current : option ptr;
  readyqueue : list ptr;
  resources : list resource;
}.

(** ** The monad *)

Inductive fault :=
  | NullDeref       (* a field of NULL is read or written *)
  | WildPointer     (* a pointer to no live process is dereferenced *)
  | AssertFailed    (* assert() aborts *)
  | BadResource.    (* resources + resource_id is outside the table *)

Inductive outcome (A : Type) :=
  | Ok (a : A)
  | Fault (f : fault).
Arguments Ok {A} a.
Arguments Fault {A} f.

Definition M (A : Type) : Type := state → outcome (A * state).

Definition ret {A} (a : A) : M A := λ s, Ok (a, s).

Definition bind {A B} (m : M A) (k : A → M B) : M B :=
  λ s, match m s with
       | Ok (a, s') => k a s'
       | Fault f => Fault f
       end.

Definition raise {A} (f : fault) : M A := λ _, Fault f.

Notation "x <- m ;; k" := (bind m (λ x, k))
  (at level 100, m at next level, right associativity).
Notation "m ;;; k" := (bind m (λ _, k))
  (at level 100, right associativity).

Definition assert (b : bool) : M unit :=
  if b then ret tt else raise AssertFailed.

(** *** Access to the globals *)

Definition get_current : M (option ptr) := λ s, Ok (current s, s).

Definition get_readyqueue : M (list ptr) := λ s, Ok (readyqueue s, s).

Definition put_readyqueue (q : list ptr) : M unit :=
  λ s, Ok (tt, mkState (procs s) (current s) q (resources s)).

(** [p->field] for a pointer that may be NULL. *)
Definition load (p : option ptr) : M process :=
  λ s, match p with
       | None => Fault NullDeref
       | Some a => match procs s !! a with
                   | Some x => Ok (x, s)
                   | None => Fault WildPointer
                   end
       end.

(** [p->field = v], as an update [f] of the process [p] points to. *)
Definition modify (p : option ptr) (f : process → process) : M unit :=
  x <- load p ;;
  λ s, match p with
       | None => Fault NullDeref
       | Some a =>
           Ok (tt, mkState (<[a := f x]> (procs s)) (current s)
                           (readyqueue s) (resources s))
       end.

(** [resources + resource_id]. *)
Definition get_resource (resource_id : nat) : M resource :=
  λ s, match resources s !! resource_id with
       | Some r => Ok (r, s)
       | None => Fault BadResource
       end.

Definition put_resource (resource_id : nat) (r : resource) : M unit :=
  λ s, Ok (tt, mkState (procs s) (current s) (readyqueue s)
                       (<[resource_id := r]> (resources s))).

Definition set_owner (resource_id : nat) (o : option ptr) : M unit :=
  r <- get_resource resource_id ;;
  put_resource resource_id (mkResource o (waitqueue r)).

Definition get_waitqueue (resource_id : nat) : M (list ptr) :=
  r <- get_resource resource_id ;; ret (waitqueue r).

Definition put_waitqueue (resource_id : nat) (q : list ptr) : M unit :=
  r <- get_resource resource_id ;;
  put_resource resource_id (mkResource (owner r) q).

(** *** list_head.h *)

(** [list_add_tail(&p->list, &head)]. *)
Definition list_add_tail (p : ptr) (q : list ptr) : list ptr := q ++ [p].

(** [list_del_init(&p->list)] for [p] linked on the chain [q]. *)
Definition list_del_init (p : ptr) (q : list ptr) : list ptr :=
  filter (λ x, x ≠ p) q.

(** [list_first_entry(&head, struct process, list)] of a non-empty chain. *)
Definition list_first_entry (q : list ptr) : option ptr := head q.

(** [list_for_each_entry(tmp, &head, list) body], where [l] holds the
    local variables the body assigns. *)
Fixpoint list_for_each_entry {L} (q : list ptr) (body : ptr → L → M L)
    (l : L) : M L :=
  match q with
  | [] => ret l
  | tmp :: q' => l' <- body tmp l ;; list_for_each_entry q' body l'
  end.

(** The chain operations on the two kinds of list head of pa2.c.  The
    entry is given as the C expression has it, a possibly NULL pointer. *)
Definition readyqueue_add_tail (p : option ptr) : M unit :=
  match p with
  | None => raise NullDeref
  | Some a => q <- get_readyqueue ;; put_readyqueue (list_add_tail a q)
  end.

Definition readyqueue_del_init (p : option ptr) : M unit :=
  match p with
  | None => raise NullDeref
  | Some a => q <- get_readyqueue ;; put_readyqueue (list_del_init a q)
  end.

Definition waitqueue_add_tail (resource_id : nat) (p : option ptr) : M unit :=
  match p with
  | None => raise NullDeref
  | Some a =>
      q <- get_waitqueue resource_id ;;
      put_waitqueue resource_id (list_add_tail a q)
  end.

Definition waitqueue_del_init (resource_id : nat) (p : option ptr) : M unit :=
  match p with
  | None => raise NullDeref
  | Some a =>
      q <- get_waitqueue resource_id ;;
      put_waitqueue resource_id (list_del_init a q)
  end.

Definition list_empty (q : list ptr) : bool :=
  match q with [] => true | _ => false end.

Definition is_null (p : option ptr) : bool :=
  match p with None => true | Some _ => false end.

Definition is_blocked (p : process) : bool :=
  bool_decide (status p = PROCESS_BLOCKED).

(** ** pa2.c *)

Section Policies.

(** [MAX_PRIO] comes from process.h, which is not part of the sources; it
    is a constant of [unsigned int] range. *)
Variable MAX_PRIO : Z.

(** *** Default FCFS acquire and release *)

Definition fcfs_acquire (resource_id : nat) : M bool :=
  r <- get_resource resource_id ;;
  cur <- get_current ;;
  if is_null (owner r) then
    set_owner resource_id cur ;;;
    ret true
  else
    modify cur (set_status PROCESS_BLOCKED) ;;;
    waitqueue_add_tail resource_id cur ;;;
    ret false.

Definition fcfs_release (resource_id : nat) : M unit :=
  r <- get_resource resource_id ;;
  cur <- get_current ;;
  assert (bool_decide (owner r = cur)) ;;;
  set_owner resource_id None ;;;
  wq <- get_waitqueue resource_id ;;
  if negb (list_empty wq) then
    let waiter := list_first_entry wq in
    w <- load waiter ;;
    assert (bool_decide (status w = PROCESS_BLOCKED)) ;;;
    waitqueue_del_init resource_id waiter ;;;
    modify waiter (set_status PROCESS_READY) ;;;
    readyqueue_add_tail waiter
  else ret tt.

(** *** FCFS scheduler *)

Definition fcfs_pick_next : M (option ptr) :=
  q <- get_readyqueue ;;
  if negb (list_empty q) then
    let next := list_first_entry q in
    readyqueue_del_init next ;;;
    ret next
  else ret None.

Definition fcfs_schedule : M (option ptr) :=
  cur <- get_current ;;
  if is_null cur then fcfs_pick_next
  else
    c <- load cur ;;
    if is_blocked c then fcfs_pick_next
    else if age c <? lifespan c then ret cur
    else fcfs_pick_next.

(** *** SJF scheduler *)

Definition sjf_scan (tmp : ptr) (l : Z * option ptr) : M (Z * option ptr) :=
  let '(min, next) := l in
  t <- load (Some tmp) ;;
  if lifespan t <? min then ret (lifespan t, Some tmp) else ret (min, next).

Definition sjf_pick_next : M (option ptr) :=
  let next := None in
  q <- get_readyqueue ;;
  if negb (list_empty q) then
    l <- list_for_each_entry q sjf_scan (UINT_MAX, next) ;;
    let '(min, next) := l in
    readyqueue_del_init next ;;;
    ret next
  else ret next.

Definition sjf_schedule : M (option ptr) :=
  cur <- get_current ;;
  if is_null cur then sjf_pick_next
  else
    c <- load cur ;;
    if is_blocked c then sjf_pick_next
    else if age c <? lifespan c then ret cur
    else sjf_pick_next.

(** *** STCF scheduler *)

(** The scan of the branch that decides about preemption (lines 274-281). *)
Definition stcf_preempt_scan (tmp : ptr) (l : Z * option ptr)
    : M (Z * option ptr) :=
  let '(min, next) := l in
  t <- load (Some tmp) ;;
  if uint (lifespan t - age t) <? min
  then ret (lifespan t, Some tmp)
  else ret (min, next).

(** The scan under the label [pick_next] (lines 310-317). *)
Definition stcf_pick_scan (tmp : ptr) (l : Z * option ptr)
    : M (Z * option ptr) :=
  let '(min, next) := l in
  t <- load (Some tmp) ;;
  if uint (lifespan t - age t) <? min
  then ret (uint (lifespan t - age t), Some tmp)
  else ret (min, next).

Definition stcf_pick_next : M (option ptr) :=
  let next := None in
  q <- get_readyqueue ;;
  if negb (list_empty q) then
    l <- list_for_each_entry q stcf_pick_scan (UINT_MAX, next) ;;
    let '(min, next) := l in
    readyqueue_del_init next ;;;
    ret next
  else
    cur <- get_current ;;
    if is_null cur && list_empty q then ret None
    else ret next.

Definition stcf_schedule : M (option ptr) :=
  let next := None in
  cur <- get_current ;;
  if is_null cur then stcf_pick_next
  else
    c <- load cur ;;
    if is_blocked c then stcf_pick_next
    else if age c <? lifespan c then
      q <- get_readyqueue ;;
      if negb (list_empty q) then
        l <- list_for_each_entry q stcf_preempt_scan (UINT_MAX, next) ;;
        let '(min, next) := l in
        c <- load cur ;;
        if uint (lifespan c - age c) >? min then
          readyqueue_add_tail cur ;;;
          readyqueue_del_init next ;;;
          ret next
        else ret cur
      else ret cur
    else if age c =? lifespan c then stcf_pick_next
    else ret next.

(** *** Round-robin scheduler *)

Definition rr_pick_next : M (option ptr) :=
  q <- get_readyqueue ;;
  if negb (list_empty q) then
    let next := list_first_entry q in
    readyqueue_del_init next ;;;
    ret next
  else ret None.

Definition rr_schedule : M (option ptr) :=
  cur <- get_current ;;
  if is_null cur then rr_pick_next
  else
    c <- load cur ;;
    if is_blocked c then rr_pick_next
    else
      (if age c <? lifespan c then readyqueue_add_tail cur else ret tt) ;;;
      rr_pick_next.

(** *** Priority scheduler *)

Definition prio_acquire (resource_id : nat) : M bool :=
  r <- get_resource resource_id ;;
  cur <- get_current ;;
  if is_null (owner r) then
    set_owner resource_id cur ;;;
    ret true
  else
    modify cur (set_status PROCESS_BLOCKED) ;;;
    waitqueue_add_tail resource_id cur ;;;
    ret false.

Definition prio_release_scan (tmp : ptr) (waiter : option ptr)
    : M (option ptr) :=
  t <- load (Some tmp) ;;
  w <- load waiter ;;
  if prio t >? prio w then ret (Some tmp) else ret waiter.

Definition prio_release (resource_id : nat) : M unit :=
  r <- get_resource resource_id ;;
  cur <- get_current ;;
  assert (bool_decide (owner r = cur)) ;;;
  set_owner resource_id None ;;;
  wq <- get_waitqueue resource_id ;;
  if negb (list_empty wq) then
    let waiter := list_first_entry wq in
    waiter <- list_for_each_entry wq prio_release_scan waiter ;;
    w <- load waiter ;;
    assert (bool_decide (status w = PROCESS_BLOCKED)) ;;;
    waitqueue_del_init resource_id waiter ;;;
    modify waiter (set_status PROCESS_READY) ;;;
    readyqueue_add_tail waiter
  else ret tt.

Definition prio_scan (tmp : ptr) (l : Z * option ptr) : M (Z * option ptr) :=
  let '(max, next) := l in
  t <- load (Some tmp) ;;
  if prio t >=? max then ret (prio t, Some tmp) else ret (max, next).

Definition prio_pick_next : M (option ptr) :=
  let next := None in
  q <- get_readyqueue ;;
  if negb (list_empty q) then
    l <- list_for_each_entry q prio_scan (0, next) ;;
    let '(max, next) := l in
    readyqueue_del_init next ;;;
    ret next
  else ret next.

Definition prio_schedule : M (option ptr) :=
  cur <- get_current ;;
  if is_null cur then prio_pick_next
  else
    c <- load cur ;;
    if is_blocked c then prio_pick_next
    else
      (if age c <? lifespan c then readyqueue_add_tail cur else ret tt) ;;;
      prio_pick_next.

(** *** Priority scheduler with aging *)

Definition pa_scan (tmp : ptr) (l : Z * option ptr) : M (Z * option ptr) :=
  let '(max, next) := l in
  modify (Some tmp) (λ x, set_prio (uint (prio x + 1)) x) ;;;
  t <- load (Some tmp) ;;
  if (prio t >? max) && (prio t <? MAX_PRIO)
  then ret (prio t, Some tmp)
  else ret (max, next).

Definition pa_pick_next : M (option ptr) :=
  let next := None in
  q <- get_readyqueue ;;
  if negb (list_empty q) then
    l <- list_for_each_entry q pa_scan (0, next) ;;
    let '(max, next) := l in
    modify next (λ x, set_prio (prio_orig x) x) ;;;
    readyqueue_del_init next ;;;
    ret next
  else ret next.

Definition pa_schedule : M (option ptr) :=
  cur <- get_current ;;
  if is_null cur then pa_pick_next
  else
    c <- load cur ;;
    if is_blocked c then pa_pick_next
    else
      (if age c <? lifespan c then readyqueue_add_tail cur else ret tt) ;;;
      pa_pick_next.

(** *** Priority ceiling protocol *)

Definition pcp_acquire (resource_id : nat) : M bool :=
  r <- get_resource resource_id ;;
  cur <- get_current ;;
  if is_null (owner r) then
    set_owner resource_id cur ;;;
    r <- get_resource resource_id ;;
    modify (owner r) (set_prio MAX_PRIO) ;;;
    ret true
  else
    modify cur (set_status PROCESS_BLOCKED) ;;;
    waitqueue_add_tail resource_id cur ;;;
    ret false.

Definition pcp_release_scan (tmp : ptr) (waiter : option ptr)
    : M (option ptr) :=
  t <- load (Some tmp) ;;
  w <- load waiter ;;
  if prio t >? prio w then
    let waiter := Some tmp in
    modify waiter (λ x, set_prio (prio_orig x) x) ;;;
    ret waiter
  else ret waiter.

Definition pcp_release (resource_id : nat) : M unit :=
  r <- get_resource resource_id ;;
  cur <- get_current ;;
  assert (bool_decide (owner r = cur)) ;;;
  set_owner resource_id None ;;;
  wq <- get_waitqueue resource_id ;;
  if negb (list_empty wq) then
    let waiter := list_first_entry wq in
    waiter <- list_for_each_entry wq pcp_release_scan waiter ;;
    w <- load waiter ;;
    assert (bool_decide (status w = PROCESS_BLOCKED)) ;;;
    waitqueue_del_init resource_id waiter ;;;
    modify waiter (set_status PROCESS_READY) ;;;
    readyqueue_add_tail waiter
  else ret tt.

(** *** Priority inheritance protocol *)

Definition pip_acquire (resource_id : nat) : M bool :=
  r <- get_resource resource_id ;;
  cur <- get_current ;;
  if is_null (owner r) then
    set_owner resource_id cur ;;;
    ret true
  else
    modify cur (set_status PROCESS_BLOCKED) ;;;
    c <- load cur ;;
    o <- load (owner r) ;;
    (if prio c >? prio o
     then modify (owner r) (set_prio (prio c))
     else ret tt) ;;;
    waitqueue_add_tail resource_id cur ;;;
    ret false.

Definition pip_release_scan (tmp : ptr) (waiter : option ptr)
    : M (option ptr) :=
  t <- load (Some tmp) ;;
  w <- load waiter ;;
  if prio t >? prio w then
    let waiter := Some tmp in
    modify waiter (λ x, set_prio (prio_orig x) x) ;;;
    ret waiter
  else ret waiter.

Definition pip_release (resource_id : nat) : M unit :=
  r <- get_resource resource_id ;;
  cur <- get_current ;;
  assert (bool_decide (owner r = cur)) ;;;
  set_owner resource_id None ;;;
  wq <- get_waitqueue resource_id ;;
  if negb (list_empty wq) then
    let waiter := list_first_entry wq in
    waiter <- list_for_each_entry wq pip_release_scan waiter ;;
    w <- load waiter ;;
    assert (bool_decide (status w = PROCESS_BLOCKED)) ;;;
    waitqueue_del_init resource_id waiter ;;;
    modify waiter (set_status PROCESS_READY) ;;;
    readyqueue_add_tail waiter
  else ret tt.

(** ** The driver *)

Definition put_current (p : option ptr) : M unit :=
  λ s, Ok (tt, mkState (procs s) p (readyqueue s) (resources s)).

(** Modelled from the spec: the simulation driver is not part of the
    sources.  Each tick it calls [schedule] to pick the running process
    and advances that process's age. *)
Definition tick (schedule : M (option ptr)) : M (option ptr) :=
  next <- schedule ;;
  put_current next ;;;
  if is_null next then ret None
  else
    modify next (λ x, set_age (uint (age x + 1)) x) ;;;
    ret next.

(** The processes run in [n] successive ticks. *)
Fixpoint run (schedule : M (option ptr)) (n : nat) : M (list (option ptr)) :=
  match n with
  | O => ret []
  | S n' =>
      p <- tick schedule ;;
      ps <- run schedule n' ;;
      ret (p :: ps)
  end.

End Policies.

(** ** Notions used to state the properties *)

(** The ready queue as the pick step of the requeueing schedulers
    ([rr_schedule], [prio_schedule], [pa_schedule]) finds it: the current
    process, when there is one that is not BLOCKED and has lifetime left,
    has been added at the tail. *)
Definition scanned_queue (s : state) : list ptr :=
  match current s with
  | None => readyqueue s
  | Some c =>
      match procs s !! c with
      | None => readyqueue s
      | Some x =>
          if is_blocked x then readyqueue s
          else if age x <? lifespan x then list_add_tail c (readyqueue s)
          else readyqueue s
      end
  end.

(** Remaining time of a process, as [stcf_schedule] computes it. *)
Definition remaining (x : process) : Z := uint (lifespan x - age x).

(** [n] stands in the queue [q] at a place where every process before it
    has a strictly lower priority and no process after it a higher one:
    the first of the processes of highest priority. *)
Definition first_highest (s : state) (q : list ptr) (n : ptr) : Prop :=
  ∃ q1 q2 x,
    q = q1 ++ n :: q2 ∧ procs s !! n = Some x
    ∧ (∀ p y, p ∈ q1 → procs s !! p = Some y → prio y < prio x)
    ∧ (∀ p y, p ∈ q2 → procs s !! p = Some y → prio y ≤ prio x).

(** The last of the processes of highest priority. *)
Definition last_highest (s : state) (q : list ptr) (n : ptr) : Prop :=
  ∃ q1 q2 x,
    q = q1 ++ n :: q2 ∧ procs s !! n = Some x
    ∧ (∀ p y, p ∈ q1 → procs s !! p = Some y → prio y ≤ prio x)
    ∧ (∀ p y, p ∈ q2 → procs s !! p = Some y → prio y < prio x).

(** A state after the requeue step: same processes and resources, the
    ready queue is [scanned_queue]. *)
Definition requeued (s : state) : state :=
  mkState (procs s) (current s) (scanned_queue s) (resources s).

(** The reading of aging under which the increment itself stays below
    [MAX_PRIO]: after [pa_schedule], every process left in the ready
    queue has its priority one higher than before and below [MAX_PRIO]. *)
Definition pa_aging_bounded (MAX_PRIO : Z) (s : state) : Prop :=
  ∀ n s', pa_schedule MAX_PRIO s = Ok (n, s') →
    ∀ p x x', p ∈ readyqueue s' →
      procs s !! p = Some x → procs s' !! p = Some x' →
      prio x' = prio x + 1 ∧ prio x' < MAX_PRIO.

(** ** Concrete states *)

Definition new_process (i lifespan prio : Z) : process :=
  mkProcess i PROCESS_READY 0 lifespan prio prio.

(** Two processes A (at 1) and B (at 2) of lifespan 3, arrived in this
    order, and no resource. *)
Definition two_jobs : state :=
  mkState (<[1 := new_process 1 3 0]> (<[2 := new_process 2 3 0]> ∅))
          None [1; 2] [].

(** Process 1 runs with 5 ticks left; process 2, of lifespan 8, has run
    for 6 ticks and waits in the ready queue. *)
Definition stcf_late_arrival : state :=
  mkState (<[1 := mkProcess 1 PROCESS_RUNNING 5 10 0 0]>
             (<[2 := mkProcess 2 PROCESS_READY 6 8 0 0]> ∅))
          (Some 1) [2] [].

(** With ceiling 64: process 1 runs and owns resource 0; process 2, of
    base priority 3, owns resource 1, which gave it priority 64, and
    waits for resource 0.  A run under [pcp_scheduler] does not go
    through this state ([pcp_reachable]). *)
Definition pcp_elevated_waiter : state :=
  mkState (<[1 := mkProcess 1 PROCESS_RUNNING 1 5 64 1]>
             (<[2 := mkProcess 2 PROCESS_BLOCKED 1 5 64 3]> ∅))
          (Some 1) []
          [mkResource (Some 1) [2]; mkResource (Some 2) []].

(** Two ready processes of the same priority, no current process. *)
Definition prio_tie : state :=
  mkState (<[1 := new_process 1 4 1]> (<[2 := new_process 2 4 1]> ∅))
          None [1; 2] [].

(** Two ready processes, the first one step below the ceiling 64. *)
Definition pa_near_ceiling : state :=
  mkState (<[1 := mkProcess 1 PROCESS_READY 0 4 63 2]>
             (<[2 := mkProcess 2 PROCESS_READY 0 4 5 5]> ∅))
          None [1; 2] [].

(** Two ready processes at and above the ceiling 64. *)
Definition pa_all_at_ceiling : state :=
  mkState (<[1 := mkProcess 1 PROCESS_READY 0 4 63 2]>
             (<[2 := mkProcess 2 PROCESS_READY 0 4 70 5]> ∅))
          None [1; 2] [].

(** Process 1 runs and owns resource 0; processes 2 and 3 wait for it,
    2 having asked first; process 4 is ready. *)
Definition two_waiters : state :=
  mkState (<[1 := mkProcess 1 PROCESS_RUNNING 2 9 1 1]>
             (<[2 := mkProcess 2 PROCESS_BLOCKED 1 5 2 2]>
                (<[3 := mkProcess 3 PROCESS_BLOCKED 1 5 7 7]>
                   (<[4 := new_process 4 6 3]> ∅))))
          (Some 1) [4] [mkResource (Some 1) [2; 3]].

(** H (at 1, priority 5) runs and asks for resource 0, which L (at 2,
    priority 1) holds. *)
Definition high_blocks_on_low : state :=
  mkState (<[1 := mkProcess 1 PROCESS_RUNNING 1 5 5 5]>
             (<[2 := mkProcess 2 PROCESS_READY 1 5 1 1]> ∅))
          (Some 1) [2] [mkResource (Some 2) []].

(** Under inheritance: process 1 runs and owns resource 0, and has
    inherited priority 9; processes 2 and 3 wait for resource 0;
    process 3, of base priority 7, owns resource 1 and has inherited
    priority 9 from process 5, which waits for it; process 4 is ready. *)
Definition inherited_waiter : state :=
  mkState (<[1 := mkProcess 1 PROCESS_RUNNING 2 9 9 1]>
             (<[2 := mkProcess 2 PROCESS_BLOCKED 1 5 2 2]>
                (<[3 := mkProcess 3 PROCESS_BLOCKED 1 5 9 7]>
                   (<[4 := new_process 4 6 3]>
                      (<[5 := mkProcess 5 PROCESS_BLOCKED 1 4 9 9]> ∅)))))
          (Some 1) [4]
          [mkResource (Some 1) [2; 3]; mkResource (Some 3) [5]].

(** Process 1 of base priority 1 runs; resource 0 is free and nobody
    waits for it. *)
Definition free_resource : state :=
  mkState (<[1 := mkProcess 1 PROCESS_RUNNING 1 5 1 1]> ∅)
          (Some 1) [] [mkResource None []].

(** Process 1 runs with 6 ticks left; of the ready processes, 2 has 2
    ticks left of a lifespan of 10 and 3 is new with lifespan 3. *)
Definition stcf_two_ready : state :=
  mkState (<[1 := mkProcess 1 PROCESS_RUNNING 4 10 0 0]>
             (<[2 := mkProcess 2 PROCESS_READY 8 10 0 0]>
                (<[3 := new_process 3 3 0]> ∅)))
          (Some 1) [2; 3] [].

(** ** Notions for the structure of the queues *)

(** [s'] has the globals of [s] apart from the processes' fields. *)
Definition same_queues (s s' : state) : Prop :=
  current s' = current s
  ∧ readyqueue s' = readyqueue s
  ∧ resources s' = resources s.

(** What a pick step may do to a ready queue [q]: return NULL from an
    empty queue, or return one of its processes and unlink it. *)
Definition picked_from (q : list ptr) (o : option ptr) (q' : list ptr)
    : Prop :=
  (o = None ∧ q = [] ∧ q' = [])
  ∨ ∃ n, o = Some n ∧ n ∈ q ∧ q' = list_del_init n q.

(** The structure the schedulers share: the ready queue is a proper
    chain, the current process is live and is not linked on it. *)
Definition schedulable (s : state) : Prop :=
  NoDup (readyqueue s)
  ∧ ∀ c, current s = Some c → is_Some (procs s !! c) ∧ c ∉ readyqueue s.

(** What every schedule function keeps: it does not assign [current] or
    the resources, the ready queue stays a proper chain, the process it
    returns is linked nowhere on it, a process on the new ready queue
    was on the old one or was current, and a process on the old ready
    queue is on the new one or is the one returned. *)
Definition keeps_structure (schedule : M (option ptr)) : Prop :=
  ∀ s o s',
    schedulable s →
    schedule s = Ok (o, s') →
    current s' = current s
    ∧ resources s' = resources s
    ∧ NoDup (readyqueue s')
    ∧ (∀ n, o = Some n → n ∉ readyqueue s')
    ∧ (∀ n, o = Some n → n ∈ readyqueue s ∨ current s = Some n)
    ∧ (∀ p, p ∈ readyqueue s' → p ∈ readyqueue s ∨ current s = Some p)
    ∧ (∀ p, p ∈ readyqueue s → p ∈ readyqueue s' ∨ o = Some p).

(** What a pick step does: it leaves [current] and the resources alone
    and takes its result from the ready queue. *)
Definition pick_spec (pick : M (option ptr)) : Prop :=
  ∀ s o s',
    pick s = Ok (o, s') →
    current s' = current s
    ∧ resources s' = resources s
    ∧ picked_from (readyqueue s) o (readyqueue s').

(** The test of the non-preemptive schedulers: there is a current
    process, it is not BLOCKED and it has lifetime left. *)
Definition keeps_running (s : state) : bool :=
  match current s with
  | None => false
  | Some c =>
      match procs s !! c with
      | None => false
      | Some x => negb (is_blocked x) && (age x <? lifespan x)
      end
  end.

(** [stcf_schedule] goes to its label [pick_next]: there is no current
    process, or it is BLOCKED, or it has just used up its lifespan. *)
Definition goes_to_pick_next (s : state) : Prop :=
  current s = None
  ∨ ∃ c x, current s = Some c ∧ procs s !! c = Some x
           ∧ (status x = PROCESS_BLOCKED ∨ age x = lifespan x).

(** [n] is the first process of least [key] in the queue [q]. *)
Definition first_least (key : process → Z) (s : state) (q : list ptr)
    (n : ptr) (q1 q2 : list ptr) : Prop :=
  q = q1 ++ n :: q2
  ∧ ∃ y, procs s !! n = Some y
         ∧ (∀ p z, p ∈ q → procs s !! p = Some z → key y ≤ key z)
         ∧ (∀ p z, p ∈ q1 → procs s !! p = Some z → key y < key z).

(** A current process that is BLOCKED or has used up its lifespan is out
    of play after the call: it is not returned and not put on the ready
    queue. *)
Definition retires_current (schedule : M (option ptr)) : Prop :=
  ∀ s c x o s',
    schedulable s →
    current s = Some c →
    procs s !! c = Some x →
    status x = PROCESS_BLOCKED ∨ lifespan x ≤ age x →
    schedule s = Ok (o, s') →
    o ≠ Some c ∧ c ∉ readyqueue s'.

(** Three new processes in the ready queue, of lifespans 10, 2 and 2,
    and no current process. *)
Definition three_jobs : state :=
  mkState (<[1 := new_process 1 10 0]>
             (<[2 := new_process 2 2 0]> (<[3 := new_process 3 2 0]> ∅)))
          None [1; 2; 3] [].

(** Two ready processes whose lifespan is [UINT_MAX]. *)
Definition endless_jobs : state :=
  mkState (<[1 := new_process 1 4294967295 0]>
             (<[2 := new_process 2 4294967295 0]> ∅))
          None [1; 2] [].

(** Process 1 has used up its lifespan; process 2 is ready. *)
Definition finished_current : state :=
  mkState (<[1 := mkProcess 1 PROCESS_RUNNING 3 3 0 0]>
             (<[2 := new_process 2 3 0]> ∅))
          (Some 1) [2] [].

(** H (at 1, priority 5) runs; L (at 2, priority 1) is ready and holds
    resource 0; M (at 3, priority 3) is ready. *)
Definition inversion_scene : state :=
  mkState (<[1 := mkProcess 1 PROCESS_RUNNING 1 5 5 5]>
             (<[2 := mkProcess 2 PROCESS_READY 1 5 1 1]>
                (<[3 := new_process 3 4 3]> ∅)))
          (Some 1) [2; 3] [mkResource (Some 2) []].

(** Process 1 runs with 5 ticks left; process 2 of lifespan 2 has just
    arrived. *)
Definition stcf_new_arrival : state :=
  mkState (<[1 := mkProcess 1 PROCESS_RUNNING 5 10 0 0]>
             (<[2 := new_process 2 2 0]> ∅))
          (Some 1) [2] [].

(** ** The system under the ceiling protocol *)

(** Modelled from the spec: the state of a run before the driver has
    created a process, with a table of [nr_resources] free resources. *)
Definition initial (nr_resources : nat) : state :=
  mkState ∅ None [] (replicate nr_resources (mkResource None [])).

(** Modelled from the spec: the simulation driver is not part of the
    sources.  With [pcp_scheduler] selected, it changes the state in
    four ways.  It creates a process, with age 0, status READY and its
    priority equal to its base priority, which is below [MAX_PRIO], and
    puts it at the tail of the ready queue.  It runs a tick.  And on
    behalf of the running process it calls [acquire] or [release]; the
    running process is the current one as long as no [acquire] has
    blocked it, since [acquire] returning false is followed by
    scheduling at once. *)
Inductive pcp_step (MAX_PRIO : Z) (s : state) : state → Prop :=
  | pcp_fork (p : ptr) (i lifespan prio : Z) :
      procs s !! p = None →
      0 ≤ prio < MAX_PRIO →
      pcp_step MAX_PRIO s
        (mkState (<[p := new_process i lifespan prio]> (procs s))
                 (current s) (list_add_tail p (readyqueue s))
                 (resources s))
  | pcp_tick (o : option ptr) (s' : state) :
      tick prio_schedule s = Ok (o, s') →
      pcp_step MAX_PRIO s s'
  | pcp_acquire_call (resource_id : nat) (c : ptr) (x : process)
        (b : bool) (s' : state) :
      current s = Some c →
      procs s !! c = Some x →
      status x ≠ PROCESS_BLOCKED →
      pcp_acquire MAX_PRIO resource_id s = Ok (b, s') →
      pcp_step MAX_PRIO s s'
  | pcp_release_call (resource_id : nat) (c : ptr) (x : process)
        (s' : state) :
      current s = Some c →
      procs s !! c = Some x →
      status x ≠ PROCESS_BLOCKED →
      pcp_release resource_id s = Ok (tt, s') →
      pcp_step MAX_PRIO s s'.

(** The states a run under [pcp_scheduler] goes through. *)
Inductive pcp_reachable (MAX_PRIO : Z) : state → Prop :=
  | pcp_reachable_initial (nr_resources : nat) :
      pcp_reachable MAX_PRIO (initial nr_resources)
  | pcp_reachable_step (s s' : state) :
      pcp_reachable MAX_PRIO s →
      pcp_step MAX_PRIO s s' →
      pcp_reachable MAX_PRIO s'.

(** What every such state satisfies.  Priorities lie between 0 and
    [MAX_PRIO]; the processes on the ready queue are below [MAX_PRIO];
    the owner of a resource is at [MAX_PRIO]; and a resource with
    waiters has an owner, which is not the running process. *)
Definition pcp_invariant (MAX_PRIO : Z) (s : state) : Prop :=
  schedulable s
  ∧ (∀ p x, procs s !! p = Some x → 0 ≤ prio x ≤ MAX_PRIO)
  ∧ (∀ p, p ∈ readyqueue s →
          ∃ x, procs s !! p = Some x ∧ prio x < MAX_PRIO)
  ∧ (∀ i r o, resources s !! i = Some r → owner r = Some o →
              ∃ x, procs s !! o = Some x ∧ prio x = MAX_PRIO)
  ∧ (∀ i r, resources s !! i = Some r → waitqueue r ≠ [] →
            ∃ o, owner r = Some o
                 ∧ ∀ x, current s = Some o → procs s !! o = Some x →
                        status x = PROCESS_BLOCKED).



(** * Properties *)

(** ** The monad and the list operations *)

Lemma uint_small (x : Z) : 0 ≤ x < 4294967296 → uint x = x.
Proof. apply Z.mod_small. Qed.

Lemma bind_Ok {A B} (m : M A) (k : A → M B) s a s' :
  m s = Ok (a, s') → bind m k s = k a s'.
Proof. intros H. unfold bind. by rewrite H. Qed.

Lemma list_del_init_notin p q : p ∉ q → list_del_init p q = q.
Proof.
  unfold list_del_init. induction q as [|x q IH]; [done|].
  intros Hp. apply not_elem_of_cons in Hp as [Hne Hq].
  rewrite filter_cons_True by congruence. by rewrite IH.
Qed.

Lemma list_del_init_middle p q1 q2 :
  NoDup (q1 ++ p :: q2) → list_del_init p (q1 ++ p :: q2) = q1 ++ q2.
Proof.
  intros Hnd. apply NoDup_app in Hnd as (_ & Hq1 & Hnd).
  apply NoDup_cons in Hnd as [Hq2 _].
  unfold list_del_init. rewrite filter_app, filter_cons_False by naive_solver.
  fold (list_del_init p q1) (list_del_init p q2).
  rewrite !list_del_init_notin; [done..|].
  intros Hin. apply (Hq1 p Hin). left.
Qed.

Lemma list_del_init_cons p q : p ∉ q → list_del_init p (p :: q) = q.
Proof.
  intros Hp. unfold list_del_init. rewrite filter_cons_False by naive_solver.
  by apply list_del_init_notin.
Qed.

Lemma list_empty_middle q1 p q2 : list_empty (q1 ++ p :: q2) = false.
Proof. by destruct q1. Qed.

Lemma list_del_init_head p q : NoDup (p :: q) → list_del_init p (p :: q) = q.
Proof. apply (list_del_init_middle p []). Qed.

(** Symbolic execution: expose the state transformer of a monadic term. *)
Ltac munfold :=
  cbv [bind ret raise assert get_current get_readyqueue put_readyqueue
       put_current load modify get_resource put_resource set_owner
       get_waitqueue put_waitqueue readyqueue_add_tail readyqueue_del_init
       waitqueue_add_tail waitqueue_del_init].

(** Rewrite with what is known about the globals until nothing moves. *)
Ltac mrun :=
  repeat (simpl;
    match goal with
    | H : ?m !! ?k = Some _ |- context [?m !! ?k] => rewrite H
    | H : current ?s = _ |- context [current ?s] => rewrite H
    | H : resources ?s = _ |- context [resources ?s] => rewrite H
    | H : readyqueue ?s = _ |- context [readyqueue ?s] => rewrite H
    | H : owner ?r = _ |- context [owner ?r] => rewrite H
    | H : (?i < length ?l)%nat |- context [<[?i := _]> ?l !! ?i] =>
        rewrite (list_lookup_insert_eq l i) by exact H
    | |- context [<[?i := ?x]> ?m !! ?i] =>
        rewrite (lookup_insert_eq m i x)
    end).

Lemma list_for_each_entry_app {L} (q1 q2 : list ptr) (body : ptr → L → M L)
    (l : L) (s : state) :
  list_for_each_entry (q1 ++ q2) body l s
  = match list_for_each_entry q1 body l s with
    | Ok (l', s') => list_for_each_entry q2 body l' s'
    | Fault f => Fault f
    end.
Proof.
  revert l s. induction q1 as [|p q1 IH]; intros l s; simpl; [done|].
  unfold bind. destruct (body p l s) as [[l' s']|f]; [apply IH|done].
Qed.

(** ** Default release *)

Section Release.

Variables (s : state) (resource_id : nat) (c : ptr) (r : resource).
Hypothesis Hcurrent : current s = Some c.
Hypothesis Hresource : resources s !! resource_id = Some r.
Hypothesis Howner : owner r = Some c.

(** C5.  When the caller owns the resource (and the wait list is a
    proper chain whose first waiter is a live BLOCKED process),
    [fcfs_release] returns; afterwards the resource has no owner, and
    with a non-empty wait list exactly its first, earliest-inserted
    waiter has left the wait list, has status READY and sits at the tail
    of the ready queue, while the resource still has no owner.  Nothing
    else changes: the other fields of the woken process, the other
    processes and the other resources are as before. *)
Theorem fcfs_release_wakes_first_waiter :
  NoDup (waitqueue r) →
  (∀ w, head (waitqueue r) = Some w →
        ∃ x, procs s !! w = Some x ∧ status x = PROCESS_BLOCKED) →
  ∃ s' r', fcfs_release resource_id s = Ok (tt, s')
    ∧ current s' = current s
    ∧ resources s' !! resource_id = Some r'
    ∧ owner r' = None
    ∧ (∀ i, i ≠ resource_id → resources s' !! i = resources s !! i)
    ∧ match waitqueue r with
      | [] =>
          waitqueue r' = []
          ∧ readyqueue s' = readyqueue s
          ∧ procs s' = procs s
      | w :: rest =>
          waitqueue r' = rest
          ∧ readyqueue s' = readyqueue s ++ [w]
          ∧ (∀ p, p ≠ w → procs s' !! p = procs s !! p)
          ∧ ∃ x x', procs s !! w = Some x
                    ∧ procs s' !! w = Some x'
                    ∧ status x' = PROCESS_READY
                    ∧ pid x' = pid x ∧ age x' = age x
                    ∧ lifespan x' = lifespan x
                    ∧ prio x' = prio x ∧ prio_orig x' = prio_orig x
      end.
Proof.
  intros Hnd Hhead.
  assert (Hlt : (resource_id < length (resources s))%nat)
    by (eapply lookup_lt_Some; eauto).
  unfold fcfs_release. munfold.
  rewrite Hresource, Hcurrent, Howner; simpl.
  rewrite bool_decide_eq_true_2 by done.
  rewrite Hresource; simpl.
  rewrite list_lookup_insert_eq by done; simpl.
  destruct (waitqueue r) as [|w rest] eqn:Hwq; simpl.
  - eexists _, (mkResource None []); split; [reflexivity|]; simpl.
    rewrite list_lookup_insert_eq by done.
    split_and!; try done.
    intros i Hi. by rewrite list_lookup_insert_ne.
  - destruct (Hhead w eq_refl) as (x & Hx & Hst).
    rewrite Hx, Hst; simpl.
    rewrite list_lookup_insert_eq by done; simpl.
    rewrite list_lookup_insert_eq by done; simpl.
    rewrite Hx; simpl.
    eexists _, (mkResource None rest); split; [reflexivity|]; simpl.
    rewrite list_insert_insert_eq, list_lookup_insert_eq by done.
    rewrite list_del_init_head by done.
    split_and!; try done.
    + intros i Hi. by rewrite list_lookup_insert_ne.
    + intros p Hp. by rewrite lookup_insert_ne.
    + exists x, (set_status PROCESS_READY x).
      rewrite lookup_insert_eq. by split_and!.
Qed.

End Release.

(** ** Priority inheritance: acquire of an owned resource *)

Section Inheritance.

Variables (s : state) (resource_id : nat) (c o : ptr) (r : resource).
Variables (pc po : process).
Hypothesis Hcurrent : current s = Some c.
Hypothesis Hresource : resources s !! resource_id = Some r.
Hypothesis Howner : owner r = Some o.
Hypothesis Hpc : procs s !! c = Some pc.
Hypothesis Hpo : procs s !! o = Some po.

(** C6.  [pip_acquire] on a resource that has an owner returns false;
    the caller is BLOCKED and at the tail of the wait list, the owner is
    still the owner, and the owner's priority is the caller's priority
    when that is strictly greater than the owner's and is unchanged
    otherwise.  Nothing else of any process changes. *)
Theorem pip_acquire_owned_inherits :
  ∃ s' c' o',
    pip_acquire resource_id s = Ok (false, s')
    ∧ resources s' !! resource_id
      = Some (mkResource (Some o) (waitqueue r ++ [c]))
    ∧ procs s' !! c = Some c' ∧ status c' = PROCESS_BLOCKED
    ∧ procs s' !! o = Some o'
    ∧ (prio po < prio pc → prio o' = prio pc)
    ∧ (prio pc ≤ prio po → prio o' = prio po)
    ∧ prio_orig o' = prio_orig po
    ∧ (∀ p, p ≠ c → p ≠ o → procs s' !! p = procs s !! p)
    ∧ readyqueue s' = readyqueue s ∧ current s' = current s.
Proof.
  assert (Hlt : (resource_id < length (resources s))%nat)
    by (eapply lookup_lt_Some; eauto).
  unfold pip_acquire. munfold.
  rewrite Hresource, Hcurrent, Howner; simpl.
  rewrite Hpc; simpl.
  rewrite lookup_insert_eq; simpl.
  assert (Ho : <[c:=set_status PROCESS_BLOCKED pc]> (procs s) !! o
               = Some (if decide (c = o)
                       then set_status PROCESS_BLOCKED pc else po)).
  { rewrite lookup_insert. destruct (decide (c = o)); simpl; congruence. }
  rewrite Ho; simpl.
  assert (Hprio : prio (if decide (c = o)
                        then set_status PROCESS_BLOCKED pc else po) = prio po).
  { destruct (decide (c = o)) as [->|]; simpl; congruence. }
  rewrite Hprio.
  destruct (prio pc >? prio po) eqn:Hgt; simpl.
  - repeat (first [rewrite Ho | rewrite Hresource]; simpl).
    apply Z.gtb_lt in Hgt.
    destruct (decide (c = o)) as [->|Hne].
    { assert (pc = po) by congruence. subst. lia. }
    do 3 eexists. split; [reflexivity|]; simpl.
    rewrite list_lookup_insert_eq by done.
    rewrite lookup_insert_eq, lookup_insert_ne, lookup_insert_eq by done.
    rewrite Howner. unfold list_add_tail.
    split_and!; try done; simpl; try lia.
    intros p Hp1 Hp2. by rewrite !lookup_insert_ne.
  - repeat (rewrite Hresource; simpl).
    assert (prio pc ≤ prio po) by (rewrite Z.gtb_ltb in Hgt; lia).
    do 3 eexists. split; [reflexivity|]; simpl.
    rewrite list_lookup_insert_eq by done.
    rewrite lookup_insert_eq, Ho.
    rewrite Howner. unfold list_add_tail.
    split_and!; try done; simpl; try lia.
    + by destruct (decide (c = o)) as [->|]; simpl;
        [replace po with pc by congruence|].
    + intros p Hp1 Hp2. by rewrite lookup_insert_ne.
Qed.

End Inheritance.

(** ** The waiter scan of the two inversion protocols *)

(** The scan of [pcp_release] returns a waiter of the list, keeps every
    process alive and changes nothing but [prio] fields of waiters. *)
Lemma pcp_release_scan_spec (wq : list ptr) :
  ∀ (s : state) (w0 : ptr),
    (∀ p, p ∈ wq → is_Some (procs s !! p)) →
    is_Some (procs s !! w0) →
    ∃ w s',
      list_for_each_entry wq pcp_release_scan (Some w0) s = Ok (Some w, s')
      ∧ current s' = current s
      ∧ readyqueue s' = readyqueue s
      ∧ resources s' = resources s
      ∧ (w = w0 ∨ w ∈ wq)
      ∧ (∀ p, p ∉ wq → procs s' !! p = procs s !! p)
      ∧ (∀ p x, procs s !! p = Some x →
           ∃ x', procs s' !! p = Some x'
                 ∧ status x' = status x ∧ prio_orig x' = prio_orig x)
      ∧ (w = w0 ∧ procs s' = procs s
         ∨ ∃ x', procs s' !! w = Some x' ∧ prio x' = prio_orig x').
Proof.
  induction wq as [|tmp wq IH]; intros s w0 Hlive [x0 Hw0].
  - exists w0, s. simpl. unfold ret. split_and!; eauto.
  - destruct (Hlive tmp) as [t Ht]; [left|].
    simpl. unfold pcp_release_scan at 1. munfold.
    rewrite Ht, Hw0.
    destruct (prio t >? prio x0) eqn:Hgt.
    + rewrite Ht.
      set (s1 := mkState _ _ _ _).
      destruct (IH s1 tmp)
        as (w & s' & Hrun & Hc & Hq & Hr & Hw & Hout & Hpres & Hreset).
      { intros p Hp. subst s1; simpl. rewrite lookup_insert.
        case_decide; [done|]. apply Hlive. by right. }
      { subst s1; simpl. by rewrite lookup_insert_eq. }
      exists w, s'. rewrite Hrun. split_and!; try done.
      4:{ right. destruct Hreset as [[-> Hsame]|Hreset]; [|done].
          exists (set_prio (prio_orig t) t). split; [|done].
          rewrite Hsame. subst s1; simpl. by rewrite lookup_insert_eq. }
      * destruct Hw as [->|Hw]; right; [left|by right].
      * intros p Hp. apply not_elem_of_cons in Hp as [Hne Hp].
        rewrite Hout by done. subst s1; simpl. by rewrite lookup_insert_ne.
      * intros p x Hp.
        destruct (decide (tmp = p)) as [->|Hne].
        -- destruct (Hpres p (set_prio (prio_orig t) t)) as (x' & ? & ? & ?).
           { subst s1; simpl. by rewrite lookup_insert_eq. }
           assert (x = t) by congruence. subst. eauto.
        -- destruct (Hpres p x) as (x' & ? & ? & ?); [|eauto].
           subst s1; simpl. by rewrite lookup_insert_ne.
    + destruct (IH s w0)
        as (w & s' & Hrun & Hc & Hq & Hr & Hw & Hout & Hpres & Hreset).
      { intros p Hp. apply Hlive. by right. }
      { eauto. }
      exists w, s'. rewrite Hrun. split_and!; try done.
      * destruct Hw as [->|Hw]; [by left|right; by right].
      * intros p Hp. apply not_elem_of_cons in Hp as [Hne Hp]. by apply Hout.
Qed.

(** ** Priority ceiling *)

Section Ceiling.

Variable MAX_PRIO : Z.

(** [pcp_acquire] of a free resource: the caller owns it and has
    priority [MAX_PRIO]. *)
Lemma pcp_acquire_free s resource_id c r pc :
  current s = Some c →
  resources s !! resource_id = Some r →
  owner r = None →
  procs s !! c = Some pc →
  pcp_acquire MAX_PRIO resource_id s
  = Ok (true,
        mkState (<[c := set_prio MAX_PRIO pc]> (procs s)) (current s)
                (readyqueue s)
                (<[resource_id := mkResource (Some c) (waitqueue r)]>
                   (resources s))).
Proof.
  intros Hcurrent Hresource Howner Hpc.
  assert (Hlt : (resource_id < length (resources s))%nat)
    by (eapply lookup_lt_Some; eauto).
  unfold pcp_acquire. munfold.
  rewrite Hresource, Hcurrent, Howner; simpl.
  rewrite Hresource; simpl.
  rewrite list_lookup_insert_eq by done; simpl.
  rewrite Hpc; simpl. by rewrite ?Hcurrent.
Qed.

(** [pcp_release] by the owner, when the caller is on no wait list and
    the waiters are live BLOCKED processes: the call returns and the
    caller's process is exactly as before. *)
Lemma pcp_release_frame s resource_id c r pc :
  current s = Some c →
  resources s !! resource_id = Some r →
  owner r = Some c →
  procs s !! c = Some pc →
  c ∉ waitqueue r →
  (∀ w, w ∈ waitqueue r →
        ∃ x, procs s !! w = Some x ∧ status x = PROCESS_BLOCKED) →
  ∃ s', pcp_release resource_id s = Ok (tt, s')
        ∧ procs s' !! c = Some pc
        ∧ (waitqueue r = [] → procs s' = procs s).
Proof.
  intros Hcurrent Hresource Howner Hpc Hnotin Hwaiters.
  assert (Hlt : (resource_id < length (resources s))%nat)
    by (eapply lookup_lt_Some; eauto).
  unfold pcp_release. munfold.
  rewrite Hresource, Hcurrent, Howner; simpl.
  rewrite bool_decide_eq_true_2 by done.
  rewrite Hresource; simpl.
  rewrite list_lookup_insert_eq by done; simpl.
  destruct (waitqueue r) as [|w0 rest] eqn:Hwq.
  { eexists. split; [reflexivity|]. done. }
  set (s1 := mkState _ _ _ _).
  destruct (pcp_release_scan_spec (w0 :: rest) s1 w0)
    as (w & s2 & Hrun & Hc & Hq & Hr & Hw & Hout & Hpres & _).
  { intros p Hp. destruct (Hwaiters p Hp) as (x & Hx & _).
    subst s1; simpl. eauto. }
  { destruct (Hwaiters w0) as (x & Hx & _); [left|]. subst s1; simpl. eauto. }
  cbn [list_empty negb list_first_entry head]. rewrite Hrun.
  assert (Hwin : w ∈ w0 :: rest) by (destruct Hw as [->|]; [left|done]).
  destruct (Hwaiters w Hwin) as (x & Hx & Hblocked).
  destruct (Hpres w x Hx) as (x' & Hx' & Hst & _).
  subst s1; simpl in *.
  rewrite Hx', Hst, Hblocked. mrun.
  eexists. split; [reflexivity|]; simpl.
  split; [|done].
  rewrite lookup_insert_ne by (intros ->; done).
  by rewrite Hout.
Qed.

(** C8.  [pcp_release] by the owner leaves the caller's own priority as
    it was; and a process that takes a free resource with an empty wait
    list and releases it again keeps priority [MAX_PRIO], whatever its
    base priority is. *)
Theorem pcp_release_keeps_caller_prio :
  (∀ s resource_id c r pc,
     current s = Some c →
     resources s !! resource_id = Some r →
     owner r = Some c →
     procs s !! c = Some pc →
     c ∉ waitqueue r →
     (∀ w, w ∈ waitqueue r →
           ∃ x, procs s !! w = Some x ∧ status x = PROCESS_BLOCKED) →
     ∃ s' pc', pcp_release resource_id s = Ok (tt, s')
               ∧ procs s' !! c = Some pc'
               ∧ prio pc' = prio pc)
  ∧ (∀ s resource_id c r pc,
       current s = Some c →
       resources s !! resource_id = Some r →
       owner r = None →
       waitqueue r = [] →
       procs s !! c = Some pc →
       ∃ s' pc', (pcp_acquire MAX_PRIO resource_id ;;;
                  pcp_release resource_id) s = Ok (tt, s')
                 ∧ procs s' !! c = Some pc'
                 ∧ prio pc' = MAX_PRIO
                 ∧ prio_orig pc' = prio_orig pc).
Proof.
  split.
  - intros s resource_id c r pc Hcurrent Hresource Howner Hpc Hnotin Hwaiters.
    destruct (pcp_release_frame s resource_id c r pc) as (s' & Hrun & Hc & _);
      try done.
    by exists s', pc.
  - intros s resource_id c r pc Hcurrent Hresource Howner Hempty Hpc.
    assert (Hlt : (resource_id < length (resources s))%nat)
      by (eapply lookup_lt_Some; eauto).
    rewrite (bind_Ok _ _ _ _ _
               (pcp_acquire_free s resource_id c r pc
                  Hcurrent Hresource Howner Hpc)).
    set (s1 := mkState _ _ _ _).
    destruct (pcp_release_frame s1 resource_id c
                (mkResource (Some c) (waitqueue r)) (set_prio MAX_PRIO pc))
      as (s' & Hrun & Hc & _); subst s1; simpl; try done.
    + by rewrite list_lookup_insert_eq.
    + by rewrite lookup_insert_eq.
    + rewrite Hempty. apply not_elem_of_nil.
    + rewrite Hempty. intros w Hw. by apply not_elem_of_nil in Hw.
    + exists s', (set_prio MAX_PRIO pc). by rewrite Hrun.
Qed.

End Ceiling.


(** At [pcp_elevated_waiter], a state with a BLOCKED waiter behind a
    running owner, [pcp_release] promotes the only waiter of the
    resource without touching its priority: it is READY at the tail of
    the ready queue with priority 64 and base priority 3. *)
Lemma pcp_release_promotes_elevated_waiter :
  ∃ s', pcp_release 0 pcp_elevated_waiter = Ok (tt, s')
        ∧ readyqueue s' = [2]
        ∧ resources s' = [mkResource None []; mkResource (Some 2) []]
        ∧ procs s' !! 2 = Some (mkProcess 2 PROCESS_READY 1 5 64 3).
Proof. eexists. split; [vm_compute; reflexivity|]. by vm_compute. Qed.

(** ** The requeue step *)

(** The three requeueing schedulers are their pick step run on the
    requeued state, as soon as [current] is NULL or a live process. *)
Lemma requeue_then_pick (pick : M (option ptr)) (s : state) :
  (∀ c, current s = Some c → is_Some (procs s !! c)) →
  (cur <- get_current ;;
   if is_null cur then pick
   else
     c <- load cur ;;
     if is_blocked c then pick
     else
       (if age c <? lifespan c then readyqueue_add_tail cur else ret tt) ;;;
       pick) s
  = pick (requeued s).
Proof.
  intros Hlive. unfold requeued, scanned_queue. munfold.
  destruct s as [ps [c|] rq rs]; simpl in *; [|done].
  destruct (Hlive c eq_refl) as [x Hx]. rewrite Hx.
  destruct (is_blocked x); [done|].
  by destruct (age x <? lifespan x).
Qed.

(** ** Priority scheduler *)

Section Priority.

Variable s : state.

(** The invariant of the scan of [prio_pick_next] over a queue whose
    processes are live and have priorities of unsigned range. *)
Lemma prio_scan_spec (q : list ptr) :
  (∀ p, p ∈ q → ∃ x, procs s !! p = Some x ∧ 0 ≤ prio x) →
  ∃ max next,
    list_for_each_entry q prio_scan (0, None) s = Ok ((max, next), s)
    ∧ 0 ≤ max
    ∧ (∀ p y, p ∈ q → procs s !! p = Some y → prio y ≤ max)
    ∧ match next with
      | None => q = []
      | Some n =>
          ∃ q1 q2 x, q = q1 ++ n :: q2 ∧ procs s !! n = Some x
                     ∧ prio x = max
                     ∧ (∀ p y, p ∈ q2 → procs s !! p = Some y → prio y < max)
      end.
Proof.
  induction q as [|tmp q IH] using rev_ind; intros Hlive.
  - exists 0, None. split_and!; [done|done| |done].
    intros p y Hp. by apply not_elem_of_nil in Hp.
  - destruct IH as (max & next & Hrun & Hmax & Hle & Hnext).
    { intros p Hp. apply Hlive, elem_of_app. by left. }
    destruct (Hlive tmp) as (t & Ht & Ht0).
    { apply elem_of_app. right. left. }
    rewrite list_for_each_entry_app, Hrun. simpl.
    unfold prio_scan. munfold. rewrite Ht.
    destruct (prio t >=? max) eqn:Hge.
    + apply Z.geb_le in Hge.
      exists (prio t), (Some tmp). split_and!; [done|done| |].
      * intros p y Hp Hy. apply elem_of_app in Hp as [Hp|Hp].
        -- specialize (Hle p y Hp Hy). lia.
        -- apply list_elem_of_singleton in Hp as ->.
           assert (y = t) by congruence. subst. lia.
      * exists q, [], t. split_and!; [done..|].
        intros p y Hp. by apply not_elem_of_nil in Hp.
    + assert (prio t < max) by (rewrite Z.geb_leb in Hge; lia).
      exists max, next. split_and!; [done|done| |].
      * intros p y Hp Hy. apply elem_of_app in Hp as [Hp|Hp].
        -- by apply (Hle p).
        -- apply list_elem_of_singleton in Hp as ->.
           assert (y = t) by congruence. subst. lia.
      * destruct next as [n|].
        -- destruct Hnext as (q1 & q2 & x & -> & Hx & Hpx & Hlt).
           exists q1, (q2 ++ [tmp]), x. split_and!; [|done..|].
           { by rewrite <- app_assoc. }
           intros p y Hp Hy. apply elem_of_app in Hp as [Hp|Hp].
           ++ by apply (Hlt p).
           ++ apply list_elem_of_singleton in Hp as ->.
              assert (y = t) by congruence. subst. lia.
        -- subst q. simpl in Hrun. unfold ret in Hrun. simplify_eq. lia.
Qed.

End Priority.

(** C4, as amended.  With a non-empty ready queue after the requeue
    step, [prio_schedule] returns a process of highest priority and
    takes it off the queue; among several of that priority it is the
    one met last in queue order. *)
Theorem prio_schedule_selects_last_highest (s : state) :
  (∀ c, current s = Some c → is_Some (procs s !! c)) →
  scanned_queue s ≠ [] →
  NoDup (scanned_queue s) →
  (∀ p, p ∈ scanned_queue s → ∃ x, procs s !! p = Some x ∧ 0 ≤ prio x) →
  ∃ n q1 q2,
    prio_schedule s
    = Ok (Some n, mkState (procs s) (current s) (q1 ++ q2) (resources s))
    ∧ scanned_queue s = q1 ++ n :: q2
    ∧ last_highest s (scanned_queue s) n.
Proof.
  intros Hcur Hne Hnd Hlive.
  unfold prio_schedule. rewrite (requeue_then_pick prio_pick_next s Hcur).
  destruct (prio_scan_spec (requeued s) (scanned_queue s) Hlive)
    as (max & next & Hrun & Hmax & Hle & Hnext).
  unfold prio_pick_next. munfold.
  change (readyqueue (requeued s)) with (scanned_queue s).
  destruct next as [n|]; [|done].
  destruct Hnext as (q1 & q2 & x & Heq & Hx & Hpx & Hlt).
  rewrite Heq in *. rewrite list_empty_middle. cbn [negb].
  rewrite Hrun. cbn [readyqueue requeued procs current resources].
  rewrite Heq. exists n, q1, q2.
  rewrite list_del_init_middle by done.
  split_and!; [done..|].
  exists q1, q2, x. split_and!; [done..| |].
  - intros p y Hp Hy. rewrite Hpx. apply (Hle p); [|done].
    apply elem_of_app. by left.
  - intros p y Hp Hy. rewrite Hpx. by apply (Hlt p).
Qed.

(** C4, the claim as stated, fails: of two ready processes of equal
    priority [prio_schedule] returns the second, which is not the first
    of highest priority. *)
Lemma prio_schedule_tie_not_first :
  ¬ (∀ n s', prio_schedule prio_tie = Ok (Some n, s') →
             first_highest prio_tie (scanned_queue prio_tie) n).
Proof.
  intros Hclaim.
  destruct (Hclaim 2 (mkState (procs prio_tie) None [1] []))
    as (q1 & q2 & x & Heq & Hx & Hbefore & _); [by vm_compute|].
  change (scanned_queue prio_tie) with [1; 2] in Heq.
  destruct q1 as [|a [|b q1]]; simpl in Heq; simplify_eq.
  - vm_compute in Hx. simplify_eq.
    assert (Hlt : prio (new_process 1 4 1) < prio (new_process 2 4 1)).
    { apply (Hbefore 1); [left|by vm_compute]. }
    simpl in Hlt. lia.
  - by destruct q1.
Qed.

(** ** Priority scheduler with aging *)

Section Aging.

Variable MAX_PRIO : Z.

(** The invariant of the scan of [pa_pick_next]: every process of the
    queue has its priority incremented once, and the candidate, if any,
    is a process whose incremented priority is above the running maximum
    and below [MAX_PRIO]. *)
Lemma pa_scan_spec (q : list ptr) :
  ∀ (s : state) (max : Z) (next : option ptr),
    NoDup q →
    (∀ p, p ∈ q → is_Some (procs s !! p)) →
    ∃ max' next' s',
      list_for_each_entry q (pa_scan MAX_PRIO) (max, next) s
      = Ok ((max', next'), s')
      ∧ current s' = current s
      ∧ readyqueue s' = readyqueue s
      ∧ resources s' = resources s
      ∧ (∀ p, p ∉ q → procs s' !! p = procs s !! p)
      ∧ (∀ p x, p ∈ q → procs s !! p = Some x →
           procs s' !! p = Some (set_prio (uint (prio x + 1)) x))
      ∧ max ≤ max'
      ∧ (∀ p x, p ∈ q → procs s !! p = Some x →
           uint (prio x + 1) < MAX_PRIO → uint (prio x + 1) ≤ max')
      ∧ (next' = next ∧ max' = max
         ∨ ∃ n x, next' = Some n ∧ n ∈ q ∧ procs s !! n = Some x
                  ∧ max' = uint (prio x + 1)
                  ∧ max < max' ∧ max' < MAX_PRIO).
Proof.
  induction q as [|tmp q IH]; intros s max next Hnd Hlive.
  - exists max, next, s. simpl. unfold ret.
    split_and!; try done; try lia; [| |by left];
      intros p x Hp; by apply not_elem_of_nil in Hp.
  - apply NoDup_cons in Hnd as [Htmp Hnd].
    destruct (Hlive tmp) as [t Ht]; [left|].
    set (v := uint (prio t + 1)).
    set (s1 := mkState (<[tmp := set_prio v t]> (procs s)) (current s)
                       (readyqueue s) (resources s)).
    assert (Hlive1 : ∀ p, p ∈ q → is_Some (procs s1 !! p)).
    { intros p Hp. subst s1; simpl. rewrite lookup_insert_ne.
      - apply Hlive. by right.
      - intros Heq. apply Htmp. by rewrite Heq. }
    assert (Hsame : ∀ p, p ∈ q → procs s1 !! p = procs s !! p).
    { intros p Hp. subst s1; simpl. apply lookup_insert_ne.
      intros Heq. apply Htmp. by rewrite Heq. }
    assert (Hstep :
      list_for_each_entry (tmp :: q) (pa_scan MAX_PRIO) (max, next) s
      = list_for_each_entry q (pa_scan MAX_PRIO)
          (if (v >? max) && (v <? MAX_PRIO) then (v, Some tmp)
           else (max, next)) s1).
    { simpl. unfold pa_scan at 1. munfold.
      rewrite Ht. simpl. rewrite lookup_insert_eq. simpl. fold v. fold s1.
      by destruct ((v >? max) && (v <? MAX_PRIO)). }
    rewrite Hstep. clear Hstep.
    destruct ((v >? max) && (v <? MAX_PRIO)) eqn:Hcand.
    + apply andb_true_iff in Hcand as [Hgt Hlt].
      apply Z.gtb_lt in Hgt. apply Z.ltb_lt in Hlt.
      destruct (IH s1 v (Some tmp) Hnd Hlive1)
        as (max' & next' & s' & Hrun & Hc & Hq & Hr & Hout & Hin
            & Hmono & Hbound & Hsel).
      exists max', next', s'. split_and!; try done; try lia.
      * intros p Hp. apply not_elem_of_cons in Hp as [Hne Hp].
        rewrite Hout by done. subst s1; simpl. by rewrite lookup_insert_ne.
      * intros p x Hp Hx. apply elem_of_cons in Hp as [->|Hp].
        -- rewrite Hout by done. subst s1; simpl.
           rewrite lookup_insert_eq.
           assert (x = t) by congruence. by subst x.
        -- apply Hin; [done|]. by rewrite Hsame.
      * intros p x Hp Hx Hb. apply elem_of_cons in Hp as [->|Hp].
        -- assert (x = t) by congruence. subst x. fold v. lia.
        -- apply (Hbound p); [done| |done]. by rewrite Hsame.
      * right. destruct Hsel as [[-> ->]|(n & x & -> & Hn & Hx & -> & ? & ?)].
        -- exists tmp, t. split_and!; try done; try (fold v; lia). left.
        -- exists n, x. rewrite Hsame in Hx by done.
           split_and!; try done; try lia. by right.
    + assert (Hno : v < MAX_PRIO → v ≤ max).
      { intros Hlt. apply andb_false_iff in Hcand as [Hgt|Hge].
        - rewrite Z.gtb_ltb in Hgt. apply Z.ltb_ge in Hgt. lia.
        - apply Z.ltb_ge in Hge. lia. }
      destruct (IH s1 max next Hnd Hlive1)
        as (max' & next' & s' & Hrun & Hc & Hq & Hr & Hout & Hin
            & Hmono & Hbound & Hsel).
      exists max', next', s'. split_and!; try done.
      * intros p Hp. apply not_elem_of_cons in Hp as [Hne Hp].
        rewrite Hout by done. subst s1; simpl. by rewrite lookup_insert_ne.
      * intros p x Hp Hx. apply elem_of_cons in Hp as [->|Hp].
        -- rewrite Hout by done. subst s1; simpl.
           rewrite lookup_insert_eq.
           assert (x = t) by congruence. by subst x.
        -- apply Hin; [done|]. by rewrite Hsame.
      * intros p x Hp Hx Hb. apply elem_of_cons in Hp as [->|Hp].
        -- assert (x = t) by congruence. subst x. fold v in Hb. fold v. lia.
        -- apply (Hbound p); [done| |done]. by rewrite Hsame.
      * destruct Hsel as [[-> ->]|(n & x & -> & Hn & Hx & -> & ? & ?)].
        -- by left.
        -- right. exists n, x. rewrite Hsame in Hx by done.
           split_and!; try done. by right.
Qed.

Lemma pa_pick_next_scanned (s0 s' : state) (max' : Z) (next' : option ptr) :
  readyqueue s0 ≠ [] →
  list_for_each_entry (readyqueue s0) (pa_scan MAX_PRIO) (0, None) s0
  = Ok ((max', next'), s') →
  pa_pick_next MAX_PRIO s0
  = (modify next' (λ x, set_prio (prio_orig x) x) ;;;
     readyqueue_del_init next' ;;;
     ret next') s'.
Proof.
  intros Hne Hrun. unfold pa_pick_next.
  unfold bind at 1, get_readyqueue at 1.
  destruct (readyqueue s0) eqn:Hq; [done|]. cbn [list_empty negb].
  unfold bind at 1. by rewrite Hrun.
Qed.

(** C2, as amended.  When some process of the ready queue (after the
    requeue step) has an incremented priority strictly between 0 and
    [MAX_PRIO], [pa_schedule] returns a process [n] of the queue whose
    incremented priority is below [MAX_PRIO], takes it off the queue and
    resets its priority to the base priority; every process that stays
    in the ready queue has its priority incremented by exactly one,
    modulo 2^32, whether or not that reaches [MAX_PRIO]. *)
Theorem pa_schedule_ages_ready_queue (s : state) :
  (∀ c, current s = Some c → is_Some (procs s !! c)) →
  NoDup (scanned_queue s) →
  (∀ p, p ∈ scanned_queue s → is_Some (procs s !! p)) →
  (∃ p x, p ∈ scanned_queue s ∧ procs s !! p = Some x
          ∧ 0 < uint (prio x + 1) < MAX_PRIO) →
  ∃ n xn s',
    pa_schedule MAX_PRIO s = Ok (Some n, s')
    ∧ n ∈ scanned_queue s
    ∧ readyqueue s' = list_del_init n (scanned_queue s)
    ∧ procs s !! n = Some xn
    ∧ uint (prio xn + 1) < MAX_PRIO
    ∧ procs s' !! n = Some (set_prio (prio_orig xn) xn)
    ∧ (∀ p x, p ∈ readyqueue s' → procs s !! p = Some x →
         procs s' !! p = Some (set_prio (uint (prio x + 1)) x)).
Proof.
  intros Hcur Hnd Hlive (p0 & x0 & Hp0 & Hx0 & Hcand).
  unfold pa_schedule.
  rewrite (requeue_then_pick (pa_pick_next MAX_PRIO) s Hcur).
  destruct (pa_scan_spec (scanned_queue s) (requeued s) 0 None Hnd Hlive)
    as (max' & next' & s' & Hrun & Hc & Hq & Hr & Hout & Hin
        & Hmono & Hbound & Hsel).
  assert (Hne : readyqueue (requeued s) ≠ []).
  { simpl. intros Hnil. rewrite Hnil in Hp0. by apply not_elem_of_nil in Hp0. }
  rewrite (pa_pick_next_scanned _ _ _ _ Hne Hrun).
  destruct Hsel as [[-> ->]|(n & xn & -> & Hn & Hxn & -> & ? & ?)].
  { specialize (Hbound p0 x0 Hp0 Hx0). lia. }
  pose proof (Hin n xn Hn Hxn) as Hn'.
  munfold. rewrite Hn'. cbn [procs current readyqueue resources].
  rewrite Hq. cbn [readyqueue requeued].
  exists n, xn. eexists. split; [reflexivity|].
  cbn [procs current readyqueue resources].
  split_and!; try done.
  - by rewrite lookup_insert_eq.
  - intros p x Hp Hx.
    apply list_elem_of_filter in Hp as [Hpn Hp].
    rewrite lookup_insert_ne by done. by apply Hin.
Qed.

(** C9.  With a non-empty ready queue (after the requeue step) of live
    processes: when every incremented priority is at least [MAX_PRIO],
    [pa_schedule] ends in a NULL dereference; hence whenever
    [pa_schedule] returns, some ready process had an incremented
    priority strictly below [MAX_PRIO]. *)
Theorem pa_schedule_null_deref (s : state) :
  (∀ c, current s = Some c → is_Some (procs s !! c)) →
  scanned_queue s ≠ [] →
  NoDup (scanned_queue s) →
  (∀ p, p ∈ scanned_queue s → is_Some (procs s !! p)) →
  ((∀ p x, p ∈ scanned_queue s → procs s !! p = Some x →
           MAX_PRIO ≤ uint (prio x + 1)) →
   pa_schedule MAX_PRIO s = Fault NullDeref)
  ∧ (∀ r, pa_schedule MAX_PRIO s = Ok r →
          ∃ p x, p ∈ scanned_queue s ∧ procs s !! p = Some x
                 ∧ uint (prio x + 1) < MAX_PRIO).
Proof.
  intros Hcur Hne Hnd Hlive.
  unfold pa_schedule.
  rewrite (requeue_then_pick (pa_pick_next MAX_PRIO) s Hcur).
  destruct (pa_scan_spec (scanned_queue s) (requeued s) 0 None Hnd Hlive)
    as (max' & next' & s' & Hrun & Hc & Hq & Hr & Hout & Hin
        & Hmono & Hbound & Hsel).
  rewrite (pa_pick_next_scanned (requeued s) _ _ _ Hne Hrun).
  destruct Hsel as [[-> ->]|(n & xn & -> & Hn & Hxn & -> & ? & ?)].
  - split; [done|]. intros r Hr'. by munfold.
  - split.
    + intros Hall. specialize (Hall n xn Hn Hxn). lia.
    + intros _ _. by exists n, xn.
Qed.

End Aging.

(** C2, the claim as stated, fails: with ceiling 64 the process at 1
    stays in the ready queue and its priority goes from 63 to 64. *)
Lemma pa_schedule_aging_reaches_ceiling :
  ¬ pa_aging_bounded 64 pa_near_ceiling.
Proof.
  intros Hclaim.
  destruct (pa_schedule 64 pa_near_ceiling) as [[n s']|f] eqn:Hrun;
    vm_compute in Hrun; [|discriminate Hrun].
  injection Hrun as <- <-.
  destruct (Hclaim (Some 2) _ eq_refl 1
              (mkProcess 1 PROCESS_READY 0 4 63 2)
              (mkProcess 1 PROCESS_READY 0 4 64 2)) as [_ Hlt];
    [left|reflexivity|reflexivity|].
  simpl in Hlt. lia.
Qed.

(** ** STCF scheduler *)

(** C1.  With 5 ticks left for the running process and 2 ticks left for
    the only ready process, [stcf_schedule] keeps the running process
    and leaves the ready queue alone. *)
Theorem stcf_schedule_keeps_longer_job :
  stcf_schedule stcf_late_arrival = Ok (Some 1, stcf_late_arrival)
  ∧ (remaining <$> procs stcf_late_arrival !! 1) = Some 5
  ∧ (remaining <$> procs stcf_late_arrival !! 2) = Some 2.
Proof. by vm_compute. Qed.

(** [stcf_schedule] preempts process 1 for process 3, which has 3 ticks
    left, although process 2 has only 2 ticks left. *)
Lemma stcf_schedule_picks_longer_ready_job :
  ∃ s', stcf_schedule stcf_two_ready = Ok (Some 3, s')
        ∧ readyqueue s' = [2; 1]
        ∧ (remaining <$> procs stcf_two_ready !! 2) = Some 2
        ∧ (remaining <$> procs stcf_two_ready !! 3) = Some 3.
Proof. eexists. split; [vm_compute; reflexivity|]. by vm_compute. Qed.

(** Where the slip does not show: for ready processes that have not run
    yet the lifespan is the remaining time. *)
Definition not_yet_run (y : process) : Prop :=
  age y = 0 ∧ 0 ≤ lifespan y < UINT_MAX.

Lemma remaining_not_yet_run (y : process) :
  not_yet_run y → remaining y = lifespan y.
Proof.
  intros [Hage Hl]. unfold remaining, UINT_MAX in *. rewrite Hage, Z.sub_0_r.
  apply uint_small. lia.
Qed.

(** The preemption scan over processes that have not run yet finds the
    first process of least remaining time. *)
Lemma stcf_preempt_scan_spec (s : state) (q : list ptr) :
  (∀ p, p ∈ q → ∃ y, procs s !! p = Some y ∧ not_yet_run y) →
  ∃ min next,
    list_for_each_entry q stcf_preempt_scan (UINT_MAX, None) s
    = Ok ((min, next), s)
    ∧ (∀ p y, p ∈ q → procs s !! p = Some y → min ≤ remaining y)
    ∧ match next with
      | None => q = [] ∧ min = UINT_MAX
      | Some n =>
          ∃ q1 q2 y, q = q1 ++ n :: q2 ∧ procs s !! n = Some y
                     ∧ remaining y = min
                     ∧ (∀ p z, p ∈ q1 → procs s !! p = Some z →
                               min < remaining z)
      end.
Proof.
  induction q as [|tmp q IH] using rev_ind; intros Hnew.
  - exists UINT_MAX, None. split_and!; try done.
    intros p y Hp. by apply not_elem_of_nil in Hp.
  - destruct IH as (min & next & Hrun & Hle & Hnext).
    { intros p Hp. apply Hnew, elem_of_app. by left. }
    destruct (Hnew tmp) as (t & Ht & Hnt).
    { apply elem_of_app. right. left. }
    pose proof (remaining_not_yet_run t Hnt) as Hrem.
    rewrite list_for_each_entry_app, Hrun. simpl.
    unfold stcf_preempt_scan. munfold. rewrite Ht.
    fold (remaining t).
    destruct (remaining t <? min) eqn:Hlt.
    + apply Z.ltb_lt in Hlt.
      exists (lifespan t), (Some tmp). split_and!; [done| |].
      * intros p y Hp Hy. apply elem_of_app in Hp as [Hp|Hp].
        -- specialize (Hle p y Hp Hy). lia.
        -- apply list_elem_of_singleton in Hp as ->.
           assert (y = t) by congruence. subst. lia.
      * exists q, [], t. split_and!; [done..|].
        intros p z Hp Hz. specialize (Hle p z Hp Hz). lia.
    + apply Z.ltb_ge in Hlt.
      exists min, next. split_and!; [done| |].
      * intros p y Hp Hy. apply elem_of_app in Hp as [Hp|Hp].
        -- by apply (Hle p).
        -- apply list_elem_of_singleton in Hp as ->.
           assert (y = t) by congruence. by subst.
      * destruct next as [n|].
        -- destruct Hnext as (q1 & q2 & y & -> & Hy & Hmin & Hbefore).
           exists q1, (q2 ++ [tmp]), y. split_and!; [|done..].
           by rewrite <- app_assoc.
        -- destruct Hnext as [_ ->]. destruct Hnt as [_ Hl].
           unfold UINT_MAX in *. lia.
Qed.

(** X8.  [stcf_schedule] on a running process and a ready queue of processes
    that have not run yet: it preempts for the first ready process of
    least remaining time when that is less than the running process has
    left, and keeps the running process otherwise. *)
Lemma stcf_schedule_new_arrivals (s : state) (c : ptr) (x : process) :
  current s = Some c →
  procs s !! c = Some x →
  status x ≠ PROCESS_BLOCKED →
  age x < lifespan x →
  readyqueue s ≠ [] →
  NoDup (readyqueue s ++ [c]) →
  (∀ p, p ∈ readyqueue s → ∃ y, procs s !! p = Some y ∧ not_yet_run y) →
  (∃ n q1 q2 y,
     readyqueue s = q1 ++ n :: q2 ∧ procs s !! n = Some y
     ∧ remaining y < remaining x
     ∧ (∀ p z, p ∈ readyqueue s → procs s !! p = Some z →
               remaining y ≤ remaining z)
     ∧ (∀ p z, p ∈ q1 → procs s !! p = Some z → remaining y < remaining z)
     ∧ stcf_schedule s
       = Ok (Some n,
             mkState (procs s) (current s) (q1 ++ q2 ++ [c]) (resources s)))
  ∨ ((∀ p z, p ∈ readyqueue s → procs s !! p = Some z →
             remaining x ≤ remaining z)
     ∧ stcf_schedule s = Ok (Some c, s)).
Proof.
  intros Hc Hx Hst Hage Hne Hnd Hnew.
  destruct (stcf_preempt_scan_spec s (readyqueue s) Hnew)
    as (min & next & Hrun & Hle & Hnext).
  assert (Hsched : stcf_schedule s
    = if remaining x >? min
      then (readyqueue_add_tail (Some c) ;;;
            readyqueue_del_init next ;;; ret next) s
      else Ok (Some c, s)).
  { unfold stcf_schedule. munfold. rewrite Hc. simpl. rewrite Hx.
    unfold is_blocked. rewrite bool_decide_eq_false_2 by done.
    apply Z.ltb_lt in Hage. rewrite Hage.
    assert (Hemp : list_empty (readyqueue s) = false)
      by (by destruct (readyqueue s)).
    rewrite Hemp. cbn [negb].
    rewrite Hrun, Hx. fold (remaining x).
    destruct (remaining x >? min); cbv beta; by rewrite ?Hc. }
  rewrite Hsched. clear Hsched.
  destruct (remaining x >? min) eqn:Hgt.
  - left. apply Z.gtb_lt in Hgt.
    destruct next as [n|].
    2:{ destruct Hnext as [Hnil _]. done. }
    destruct Hnext as (q1 & q2 & y & Hq & Hy & Hmin & Hbefore).
    exists n, q1, q2, y. subst min. split_and!; try done.
    munfold. rewrite Hq. unfold list_add_tail.
    rewrite Hq, <- app_assoc in Hnd. simpl in Hnd.
    rewrite <- app_assoc. simpl.
    by rewrite list_del_init_middle.
  - right. rewrite Z.gtb_ltb in Hgt. apply Z.ltb_ge in Hgt.
    split; [|done].
    intros p z Hp Hz. specialize (Hle p z Hp Hz). lia.
Qed.

(** ** Ticks of round-robin and FCFS *)

Lemma tick_rr_schedule (s : state) (n : ptr) (rest : list ptr) (xn : process) :
  (∀ c, current s = Some c → is_Some (procs s !! c)) →
  scanned_queue s = n :: rest →
  n ∉ rest →
  procs s !! n = Some xn →
  tick rr_schedule s
  = Ok (Some n,
        mkState (<[n := set_age (uint (age xn + 1)) xn]> (procs s)) (Some n)
                rest (resources s)).
Proof.
  intros Hcur Hq Hn Hxn. unfold tick, rr_schedule.
  unfold bind at 1.
  rewrite (requeue_then_pick rr_pick_next s Hcur).
  unfold rr_pick_next. munfold. cbn [readyqueue requeued].
  rewrite Hq. simpl. rewrite Hxn. simpl.
  by rewrite Hq, list_del_init_cons.
Qed.

Lemma tick_fcfs_schedule_keep (s : state) (c : ptr) (x : process) :
  current s = Some c →
  procs s !! c = Some x →
  status x ≠ PROCESS_BLOCKED →
  age x < lifespan x →
  tick fcfs_schedule s
  = Ok (Some c,
        mkState (<[c := set_age (uint (age x + 1)) x]> (procs s)) (Some c)
                (readyqueue s) (resources s)).
Proof.
  intros Hc Hx Hst Hage. unfold tick, fcfs_schedule. munfold.
  rewrite Hc. simpl. rewrite Hx. unfold is_blocked.
  rewrite bool_decide_eq_false_2 by done.
  apply Z.ltb_lt in Hage. rewrite Hage. simpl. by rewrite Hx.
Qed.

Lemma tick_fcfs_schedule_next (s : state) (c n : ptr) (rest : list ptr)
    (x xn : process) :
  current s = Some c →
  procs s !! c = Some x →
  lifespan x ≤ age x →
  readyqueue s = n :: rest →
  n ∉ rest →
  procs s !! n = Some xn →
  tick fcfs_schedule s
  = Ok (Some n,
        mkState (<[n := set_age (uint (age xn + 1)) xn]> (procs s)) (Some n)
                rest (resources s)).
Proof.
  intros Hc Hx Hage Hq Hn Hxn. unfold tick, fcfs_schedule, fcfs_pick_next.
  munfold. rewrite Hc. simpl. rewrite Hx.
  apply Z.ltb_ge in Hage. rewrite Hage.
  destruct (is_blocked x); rewrite Hq; simpl; rewrite Hxn; simpl;
    by rewrite Hq, list_del_init_cons.
Qed.

Lemma tick_fcfs_schedule_first (s : state) (n : ptr) (rest : list ptr)
    (xn : process) :
  current s = None →
  readyqueue s = n :: rest →
  n ∉ rest →
  procs s !! n = Some xn →
  tick fcfs_schedule s
  = Ok (Some n,
        mkState (<[n := set_age (uint (age xn + 1)) xn]> (procs s)) (Some n)
                rest (resources s)).
Proof.
  intros Hc Hq Hn Hxn. unfold tick, fcfs_schedule, fcfs_pick_next.
  munfold. rewrite Hc. simpl. rewrite Hq. simpl. rewrite Hxn. simpl.
  by rewrite Hq, list_del_init_cons.
Qed.

(** Normalise lookups in a store built by successive writes. *)
Ltac lookups :=
  repeat first [rewrite lookup_insert_eq | rewrite lookup_insert_ne by done].

Lemma run_S (schedule : M (option ptr)) (n : nat) (s : state) :
  run schedule (S n) s
  = match tick schedule s with
    | Ok (p, s') =>
        match run schedule n s' with
        | Ok (ps, s'') => Ok (p :: ps, s'')
        | Fault f => Fault f
        end
    | Fault f => Fault f
    end.
Proof.
  simpl. unfold bind, ret.
  destruct (tick schedule s) as [[p s']|f]; [|done].
  by destruct (run schedule n s') as [[ps s'']|f].
Qed.

(** After a tick: reduce the continuation and the new state. *)
Ltac tick_done :=
  cbv beta iota; cbv [set_age];
  cbn [procs current readyqueue resources pid status age lifespan
       prio prio_orig];
  rewrite ?uint_small by lia;
  change (0 + 1) with 1; change (1 + 1) with 2; change (2 + 1) with 3.

(** C7.  Six ticks on A and B of lifespan 3, A ahead of B in the ready
    queue and neither ever BLOCKED: round-robin alternates A,B,A,B,A,B;
    FCFS runs A,A,A and then B,B,B. *)
Theorem rr_interleaves_fcfs_runs_to_completion
    (s : state) (a b : ptr) (xa xb : process) :
  current s = None →
  readyqueue s = [a; b] →
  a ≠ b →
  procs s !! a = Some xa →
  procs s !! b = Some xb →
  age xa = 0 ∧ lifespan xa = 3 →
  age xb = 0 ∧ lifespan xb = 3 →
  status xa ≠ PROCESS_BLOCKED →
  status xb ≠ PROCESS_BLOCKED →
  (∃ s', run rr_schedule 6 s
         = Ok ([Some a; Some b; Some a; Some b; Some a; Some b], s'))
  ∧ (∃ s', run fcfs_schedule 6 s
           = Ok ([Some a; Some a; Some a; Some b; Some b; Some b], s')).
Proof.
  intros Hcurrent Hqueue Hab Ha Hb Hnew_a Hnew_b Hready_a Hready_b.
  assert (Hba : b ≠ a) by done.
  assert (a ∉ [b]) by (by intros ?%list_elem_of_singleton).
  assert (b ∉ [a]) by (by intros ?%list_elem_of_singleton).
  assert (a ∉ @nil Z) by apply not_elem_of_nil.
  assert (b ∉ @nil Z) by apply not_elem_of_nil.
  destruct s as [P cur rq rs]. simpl in Hcurrent, Hqueue, Ha, Hb.
  subst cur rq.
  destruct xa as [ia sta aa la pa oa], xb as [ib stb ab lb pb ob].
  simpl in Hnew_a, Hnew_b, Hready_a, Hready_b.
  destruct Hnew_a as [-> ->], Hnew_b as [-> ->].
  assert (Hbl : ∀ i st ag l pr o, st ≠ PROCESS_BLOCKED →
            is_blocked (mkProcess i st ag l pr o) = false).
  { intros. unfold is_blocked. by apply bool_decide_eq_false_2. }
  split.
  - do 6 (rewrite run_S;
          erewrite tick_rr_schedule;
            [ | simpl; first [done | intros ? [= <-]; lookups; eauto]
              | unfold scanned_queue; cbn [procs current readyqueue];
                lookups; rewrite ?Ha, ?Hb, ?Hbl by done; reflexivity
              | done
              | simpl; lookups; first [exact Ha | exact Hb | reflexivity] ];
          tick_done).
    simpl. unfold ret. eauto.
  - rewrite run_S.
    erewrite tick_fcfs_schedule_first; [|done..|simpl; exact Ha].
    tick_done.
    do 2 (rewrite run_S;
          erewrite tick_fcfs_schedule_keep;
            [ | reflexivity | simpl; lookups; reflexivity | done
              | simpl; lia ];
          tick_done).
    rewrite run_S.
    erewrite tick_fcfs_schedule_next;
      [ | reflexivity | simpl; lookups; reflexivity
        | simpl; lia | reflexivity | done
        | simpl; lookups; exact Hb ].
    tick_done.
    do 2 (rewrite run_S;
          erewrite tick_fcfs_schedule_keep;
            [ | reflexivity | simpl; lookups; reflexivity | done
              | simpl; lia ];
          tick_done).
    simpl. unfold ret. eauto.
Qed.

(** ** Instances *)

(** Settle a decidable proposition by evaluation. *)
Ltac by_decide :=
  match goal with
  | |- ?P => apply (@bool_decide_unpack P _); vm_compute; exact I
  end.

(** Membership in a literal list, case by case. *)
Ltac each_member H :=
  repeat (let E := fresh "E" in
          apply elem_of_cons in H as [E|H];
          [first [discriminate E | subst] | ]);
  try (by apply not_elem_of_nil in H).

Lemma fcfs_release_wakes_first_waiter_witness :
  ∃ s', fcfs_release 0 two_waiters = Ok (tt, s')
        ∧ current s' = Some 1
        ∧ resources s' !! 0%nat = Some (mkResource None [3])
        ∧ readyqueue s' = [4; 2]
        ∧ procs s' !! 2 = Some (mkProcess 2 PROCESS_READY 1 5 2 2)
        ∧ ∀ p, p ≠ 2 → procs s' !! p = procs two_waiters !! p.
Proof.
  destruct (fcfs_release_wakes_first_waiter two_waiters 0 1
              (mkResource (Some 1) [2; 3]) eq_refl eq_refl eq_refl
              ltac:(by_decide)
              ltac:(intros w Hw; injection Hw as <-;
                    eexists; split; reflexivity))
    as (s' & r' & Hrun & _ & _ & _ & _ & _ & _ & Hframe & _).
  exists s'. split; [exact Hrun|].
  split_and!; [..|exact Hframe];
    vm_compute in Hrun; injection Hrun as <-; by vm_compute.
Defined.

Lemma pip_acquire_owned_inherits_witness :
  ∃ s' c' o',
    pip_acquire 0 high_blocks_on_low = Ok (false, s')
    ∧ resources s' !! 0%nat = Some (mkResource (Some 2) [1])
    ∧ procs s' !! 1 = Some c' ∧ status c' = PROCESS_BLOCKED
    ∧ procs s' !! 2 = Some o'
    ∧ (1 < 5 → prio o' = 5)
    ∧ (5 ≤ 1 → prio o' = 1)
    ∧ prio_orig o' = 1
    ∧ (∀ p, p ≠ 1 → p ≠ 2 →
            procs s' !! p = procs high_blocks_on_low !! p)
    ∧ readyqueue s' = [2] ∧ current s' = Some 1.
Proof.
  apply (pip_acquire_owned_inherits high_blocks_on_low 0 1 2
           (mkResource (Some 2) [])
           (mkProcess 1 PROCESS_RUNNING 1 5 5 5)
           (mkProcess 2 PROCESS_READY 1 5 1 1)); reflexivity.
Defined.

Lemma pcp_release_keeps_caller_prio_witness :
  (∃ s' pc', pcp_release 0 two_waiters = Ok (tt, s')
             ∧ procs s' !! 1 = Some pc' ∧ prio pc' = 1)
  ∧ (∃ s' pc', (pcp_acquire 64 0 ;;; pcp_release 0) free_resource
               = Ok (tt, s')
               ∧ procs s' !! 1 = Some pc'
               ∧ prio pc' = 64 ∧ prio_orig pc' = 1).
Proof.
  split.
  - apply (proj1 (pcp_release_keeps_caller_prio 64) two_waiters 0%nat 1
             (mkResource (Some 1) [2; 3])
             (mkProcess 1 PROCESS_RUNNING 2 9 1 1)); try reflexivity.
    + intros Hin. cbn [waitqueue] in Hin. each_member Hin.
    + intros w Hw. cbn [waitqueue] in Hw. each_member Hw;
        eexists; split; reflexivity.
  - apply (proj2 (pcp_release_keeps_caller_prio 64) free_resource 0%nat 1
             (mkResource None [])
             (mkProcess 1 PROCESS_RUNNING 1 5 1 1)); reflexivity.
Defined.

Lemma prio_schedule_selects_last_highest_witness :
  ∃ n q1 q2,
    prio_schedule prio_tie
    = Ok (Some n, mkState (procs prio_tie) None (q1 ++ q2) [])
    ∧ scanned_queue prio_tie = q1 ++ n :: q2
    ∧ last_highest prio_tie (scanned_queue prio_tie) n.
Proof.
  apply (prio_schedule_selects_last_highest prio_tie).
  - intros c Hc. discriminate Hc.
  - discriminate.
  - by_decide.
  - intros p Hp. change (scanned_queue prio_tie) with [1; 2] in Hp.
    each_member Hp; eexists; (split; [reflexivity|simpl; lia]).
Defined.

Lemma pa_schedule_ages_ready_queue_witness :
  ∃ n xn s',
    pa_schedule 64 pa_near_ceiling = Ok (Some n, s')
    ∧ n ∈ scanned_queue pa_near_ceiling
    ∧ readyqueue s' = list_del_init n (scanned_queue pa_near_ceiling)
    ∧ procs pa_near_ceiling !! n = Some xn
    ∧ uint (prio xn + 1) < 64
    ∧ procs s' !! n = Some (set_prio (prio_orig xn) xn)
    ∧ (∀ p x, p ∈ readyqueue s' → procs pa_near_ceiling !! p = Some x →
         procs s' !! p = Some (set_prio (uint (prio x + 1)) x)).
Proof.
  apply (pa_schedule_ages_ready_queue 64 pa_near_ceiling).
  - intros c Hc. discriminate Hc.
  - by_decide.
  - intros p Hp. change (scanned_queue pa_near_ceiling) with [1; 2] in Hp.
    each_member Hp; eexists; reflexivity.
  - exists 2, (mkProcess 2 PROCESS_READY 0 4 5 5).
    split; [right; left|]. split; [reflexivity|]. vm_compute. done.
Defined.

Lemma pa_schedule_null_deref_witness :
  pa_schedule 64 pa_all_at_ceiling = Fault NullDeref.
Proof.
  apply (proj1 (pa_schedule_null_deref 64 pa_all_at_ceiling
                  ltac:(intros c Hc; discriminate Hc)
                  ltac:(discriminate)
                  ltac:(by_decide)
                  ltac:(intros p Hp;
                        change (scanned_queue pa_all_at_ceiling)
                          with [1; 2] in Hp;
                        each_member Hp; eexists; reflexivity))).
  intros p x Hp Hx. change (scanned_queue pa_all_at_ceiling) with [1; 2] in Hp.
  each_member Hp; vm_compute in Hx; injection Hx as <-; vm_compute; discriminate.
Defined.

Lemma rr_interleaves_fcfs_runs_to_completion_witness :
  (∃ s', run rr_schedule 6 two_jobs
         = Ok ([Some 1; Some 2; Some 1; Some 2; Some 1; Some 2], s'))
  ∧ (∃ s', run fcfs_schedule 6 two_jobs
           = Ok ([Some 1; Some 1; Some 1; Some 2; Some 2; Some 2], s')).
Proof.
  apply (rr_interleaves_fcfs_runs_to_completion two_jobs 1 2
           (new_process 1 3 0) (new_process 2 3 0));
    first [reflexivity | discriminate | split; reflexivity].
Defined.

(** * The rest of pa2.c *)

(** ** What the scans and the pick steps do to the queues *)

Lemma state_eta (s : state) :
  mkState (procs s) (current s) (readyqueue s) (resources s) = s.
Proof. by destruct s. Qed.

Lemma same_queues_refl (s : state) : same_queues s s.
Proof. by unfold same_queues. Qed.

Lemma same_queues_trans (s1 s2 s3 : state) :
  same_queues s1 s2 → same_queues s2 s3 → same_queues s1 s3.
Proof. unfold same_queues. intros (-> & -> & ->) (-> & -> & ->). done. Qed.

(** A scan whose body only reads and writes fields of processes and
    keeps its candidate or takes the entry at hand ends with a candidate
    it started with or with an entry of the queue. *)
Lemma scan_keeps_queues {A}
    (body : ptr → A * option ptr → M (A * option ptr)) :
  (∀ tmp l l' s s',
     body tmp l s = Ok (l', s') →
     same_queues s s' ∧ (l'.2 = l.2 ∨ l'.2 = Some tmp)) →
  ∀ q l l' s s',
    list_for_each_entry q body l s = Ok (l', s') →
    same_queues s s' ∧ (l'.2 = l.2 ∨ ∃ n, n ∈ q ∧ l'.2 = Some n).
Proof.
  intros Hbody. induction q as [|tmp q IH]; intros l l' s s' Hrun.
  - simpl in Hrun. unfold ret in Hrun. simplify_eq.
    split; [apply same_queues_refl|by left].
  - simpl in Hrun. unfold bind in Hrun.
    destruct (body tmp l s) as [[l1 s1]|f] eqn:Hstep; [|done].
    destruct (Hbody _ _ _ _ _ Hstep) as [Hq1 Hl1].
    destruct (IH _ _ _ _ Hrun) as [Hq2 Hl2].
    split; [by eapply same_queues_trans|].
    destruct Hl2 as [Hl2|(n & Hn & Hl2)].
    + rewrite Hl2. destruct Hl1 as [Hl1|Hl1]; [by left|].
      right. exists tmp. split; [left|done].
    + right. exists n. split; [by right|done].
Qed.

Lemma read_only_scan_body {A} (cond : process → A → bool)
    (val : process → A) (tmp : ptr) (l l' : A * option ptr) (s s' : state) :
  (t <- load (Some tmp) ;;
   if cond t l.1 then ret (val t, Some tmp) else ret (l.1, l.2)) s
  = Ok (l', s') →
  same_queues s s' ∧ (l'.2 = l.2 ∨ l'.2 = Some tmp).
Proof.
  munfold. intros H.
  destruct (procs s !! tmp) as [t|]; [|done].
  destruct (cond t l.1); simplify_eq; simpl;
    (split; [apply same_queues_refl|]); auto.
Qed.

Lemma sjf_scan_body tmp l l' s s' :
  sjf_scan tmp l s = Ok (l', s') →
  same_queues s s' ∧ (l'.2 = l.2 ∨ l'.2 = Some tmp).
Proof.
  destruct l as [min next].
  apply (read_only_scan_body (λ t m, lifespan t <? m) lifespan tmp
           (min, next)).
Qed.

Lemma stcf_pick_scan_body tmp l l' s s' :
  stcf_pick_scan tmp l s = Ok (l', s') →
  same_queues s s' ∧ (l'.2 = l.2 ∨ l'.2 = Some tmp).
Proof.
  destruct l as [min next].
  apply (read_only_scan_body (λ t m, uint (lifespan t - age t) <? m)
           (λ t, uint (lifespan t - age t)) tmp (min, next)).
Qed.

Lemma stcf_preempt_scan_body tmp l l' s s' :
  stcf_preempt_scan tmp l s = Ok (l', s') →
  same_queues s s' ∧ (l'.2 = l.2 ∨ l'.2 = Some tmp).
Proof.
  destruct l as [min next].
  apply (read_only_scan_body (λ t m, uint (lifespan t - age t) <? m)
           lifespan tmp (min, next)).
Qed.

Lemma prio_scan_body tmp l l' s s' :
  prio_scan tmp l s = Ok (l', s') →
  same_queues s s' ∧ (l'.2 = l.2 ∨ l'.2 = Some tmp).
Proof.
  destruct l as [max next].
  apply (read_only_scan_body (λ t m, prio t >=? m) prio tmp (max, next)).
Qed.

Lemma pa_scan_body MAX_PRIO tmp l l' s s' :
  pa_scan MAX_PRIO tmp l s = Ok (l', s') →
  same_queues s s' ∧ (l'.2 = l.2 ∨ l'.2 = Some tmp).
Proof.
  destruct l as [max next]. unfold pa_scan. munfold. intros H.
  destruct (procs s !! tmp) as [t|]; [|done]. simpl in H.
  rewrite lookup_insert_eq in H. simpl in H.
  destruct ((uint (prio t + 1) >? max) && (uint (prio t + 1) <? MAX_PRIO));
    simplify_eq; simpl; (split; [done|]); auto.
Qed.

Lemma head_pick_spec :
  pick_spec fcfs_pick_next ∧ pick_spec rr_pick_next.
Proof.
  split; intros s o s'; unfold fcfs_pick_next, rr_pick_next; munfold;
    destruct (readyqueue s) as [|n q] eqn:Hq; simpl; intros H;
    simplify_eq; simpl; rewrite ?Hq; (split_and!; [done..|]).
  - by left.
  - right. exists n. split_and!; [done|left|done].
  - by left.
  - right. exists n. split_and!; [done|left|done].
Qed.

(** The pick steps of SJF and of the priority scheduler: scan, unlink
    the candidate, return it. *)
Lemma scan_pick_spec {A} (body : ptr → A * option ptr → M (A * option ptr))
    (init : A) :
  (∀ tmp l l' s s',
     body tmp l s = Ok (l', s') →
     same_queues s s' ∧ (l'.2 = l.2 ∨ l'.2 = Some tmp)) →
  pick_spec
    (let next := None in
     q <- get_readyqueue ;;
     if negb (list_empty q) then
       l <- list_for_each_entry q body (init, next) ;;
       let '(_, next) := l in
       readyqueue_del_init next ;;;
       ret next
     else ret next).
Proof.
  intros Hbody s o s'. munfold.
  destruct (readyqueue s) as [|p q] eqn:Hq; cbn [list_empty negb].
  { intros H. simplify_eq. rewrite Hq. split_and!; [done..|]. by left. }
  destruct (list_for_each_entry (p :: q) body (init, None) s)
    as [[[m next] s1]|f] eqn:Hscan; [|done].
  destruct (scan_keeps_queues body Hbody _ _ _ _ _ Hscan)
    as [(Hc & Hrq & Hr) Hnext].
  simpl in Hnext.
  destruct next as [n|]; [|done].
  intros H. simplify_eq. simpl. rewrite Hrq, Hq.
  split_and!; [done..|].
  right. exists n. split_and!; [done| |done].
  destruct Hnext as [|(n' & Hn' & ?)]; by simplify_eq.
Qed.

Lemma sjf_pick_spec : pick_spec sjf_pick_next.
Proof. apply (scan_pick_spec sjf_scan UINT_MAX), sjf_scan_body. Qed.

Lemma prio_pick_spec : pick_spec prio_pick_next.
Proof. apply (scan_pick_spec prio_scan 0), prio_scan_body. Qed.

Lemma stcf_pick_spec : pick_spec stcf_pick_next.
Proof.
  intros s o s'. unfold stcf_pick_next. munfold.
  destruct (readyqueue s) as [|p q] eqn:Hq; cbn [list_empty negb].
  { intros H.
    assert (o = None ∧ s' = s) as [-> ->].
    { by destruct (is_null (current s) && true); simplify_eq. }
    rewrite Hq. split_and!; [done..|]. by left. }
  destruct (list_for_each_entry (p :: q) stcf_pick_scan (UINT_MAX, None) s)
    as [[[m next] s1]|f] eqn:Hscan; [|done].
  destruct (scan_keeps_queues _ stcf_pick_scan_body _ _ _ _ _ Hscan)
    as [(Hc & Hrq & Hr) Hnext].
  simpl in Hnext.
  destruct next as [n|]; [|done].
  intros H. simplify_eq. simpl. rewrite Hrq, Hq.
  split_and!; [done..|].
  right. exists n. split_and!; [done| |done].
  destruct Hnext as [|(n' & Hn' & ?)]; by simplify_eq.
Qed.

Lemma pa_pick_spec MAX_PRIO : pick_spec (pa_pick_next MAX_PRIO).
Proof.
  intros s o s'. unfold pa_pick_next. munfold.
  destruct (readyqueue s) as [|p q] eqn:Hq; cbn [list_empty negb].
  { intros H. simplify_eq. rewrite Hq. split_and!; [done..|]. by left. }
  destruct (list_for_each_entry (p :: q) (pa_scan MAX_PRIO) (0, None) s)
    as [[[m next] s1]|f] eqn:Hscan; [|done].
  destruct (scan_keeps_queues _ (pa_scan_body MAX_PRIO) _ _ _ _ _ Hscan)
    as [(Hc & Hrq & Hr) Hnext].
  simpl in Hnext.
  destruct next as [n|]; [|done].
  destruct (procs s1 !! n) as [x|]; [|done].
  intros H. simplify_eq. simpl. rewrite Hrq, Hq.
  split_and!; [done..|].
  right. exists n. split_and!; [done| |done].
  destruct Hnext as [|(n' & Hn' & ?)]; by simplify_eq.
Qed.

(** ** Every scheduler keeps the structure of the queues *)

Lemma not_elem_of_list_del_init (n : ptr) (q : list ptr) :
  n ∉ list_del_init n q.
Proof.
  unfold list_del_init. intros Hn.
  apply list_elem_of_filter in Hn as [Hn _]. done.
Qed.

Lemma elem_of_list_del_init (p n : ptr) (q : list ptr) :
  p ∈ list_del_init n q ↔ p ≠ n ∧ p ∈ q.
Proof. unfold list_del_init. by rewrite list_elem_of_filter. Qed.

Lemma NoDup_list_del_init (n : ptr) (q : list ptr) :
  NoDup q → NoDup (list_del_init n q).
Proof. apply NoDup_filter. Qed.

Lemma scanned_queue_cases (s : state) :
  scanned_queue s = readyqueue s
  ∨ ∃ c, current s = Some c ∧ scanned_queue s = readyqueue s ++ [c].
Proof.
  unfold scanned_queue.
  destruct (current s) as [c|]; [|by left].
  destruct (procs s !! c) as [x|]; [|by left].
  destruct (is_blocked x); [by left|].
  destruct (age x <? lifespan x); [|by left].
  right. by exists c.
Qed.

Lemma scanned_queue_structure (s : state) :
  schedulable s →
  NoDup (scanned_queue s)
  ∧ (∀ p, p ∈ scanned_queue s → p ∈ readyqueue s ∨ current s = Some p)
  ∧ (∀ p, p ∈ readyqueue s → p ∈ scanned_queue s).
Proof.
  intros [Hnd Hcur].
  destruct (scanned_queue_cases s) as [->|(c & Hc & ->)].
  - split_and!; auto.
  - destruct (Hcur c Hc) as [_ Hnotin]. split_and!.
    + apply NoDup_app. split_and!; [done| |apply NoDup_singleton].
      intros p Hp ->%list_elem_of_singleton. done.
    + intros p [Hp| ->%list_elem_of_singleton]%elem_of_app; auto.
    + intros p Hp. apply elem_of_app. by left.
Qed.

(** The structure after a pick from a queue [Q] that holds the ready
    queue and at most the current process besides. *)
Lemma picked_from_structure (s : state) (Q : list ptr) (o : option ptr)
    (q' : list ptr) :
  NoDup Q →
  (∀ p, p ∈ Q → p ∈ readyqueue s ∨ current s = Some p) →
  (∀ p, p ∈ readyqueue s → p ∈ Q) →
  picked_from Q o q' →
  NoDup q'
  ∧ (∀ n, o = Some n → n ∉ q')
  ∧ (∀ n, o = Some n → n ∈ readyqueue s ∨ current s = Some n)
  ∧ (∀ p, p ∈ q' → p ∈ readyqueue s ∨ current s = Some p)
  ∧ (∀ p, p ∈ readyqueue s → p ∈ q' ∨ o = Some p).
Proof.
  intros Hnd Hfrom Hto [(-> & -> & ->)|(n & -> & Hn & ->)].
  - split_and!; try done; intros p Hp;
      first [ by apply not_elem_of_nil in Hp
            | apply Hto in Hp; by apply not_elem_of_nil in Hp ].
  - split_and!.
    + by apply NoDup_list_del_init.
    + intros ? [= <-]. apply not_elem_of_list_del_init.
    + intros ? [= <-]. by apply Hfrom.
    + intros p [_ Hp]%elem_of_list_del_init. by apply Hfrom.
    + intros p Hp. destruct (decide (p = n)) as [->|Hne]; [by right|].
      left. apply elem_of_list_del_init. auto.
Qed.

Lemma requeue_schedulers_keep_structure (pick : M (option ptr)) :
  pick_spec pick →
  keeps_structure
    (cur <- get_current ;;
     if is_null cur then pick
     else
       c <- load cur ;;
       if is_blocked c then pick
       else
         (if age c <? lifespan c then readyqueue_add_tail cur else ret tt) ;;;
         pick).
Proof.
  intros Hpick s o s' Hs Hrun.
  rewrite requeue_then_pick in Hrun by (intros c Hc; by apply Hs).
  destruct (Hpick _ _ _ Hrun) as (Hc & Hr & Hfrom).
  destruct (scanned_queue_structure s Hs) as (Hnd & Hin & Hout).
  split; [done|]. split; [done|].
  by apply (picked_from_structure s (scanned_queue s)).
Qed.

Lemma keep_schedulers_keep_structure (pick : M (option ptr)) :
  pick_spec pick →
  keeps_structure
    (cur <- get_current ;;
     if is_null cur then pick
     else
       c <- load cur ;;
       if is_blocked c then pick
       else if age c <? lifespan c then ret cur
       else pick).
Proof.
  intros Hpick s o s' Hs. munfold.
  assert (Hpicked : pick s = Ok (o, s') →
    current s' = current s ∧ resources s' = resources s
    ∧ NoDup (readyqueue s')
    ∧ (∀ n, o = Some n → n ∉ readyqueue s')
    ∧ (∀ n, o = Some n → n ∈ readyqueue s ∨ current s = Some n)
    ∧ (∀ p, p ∈ readyqueue s' → p ∈ readyqueue s ∨ current s = Some p)
    ∧ (∀ p, p ∈ readyqueue s → p ∈ readyqueue s' ∨ o = Some p)).
  { intros Hrun. destruct (Hpick _ _ _ Hrun) as (Hc & Hr & Hfrom).
    split; [done|]. split; [done|].
    apply (picked_from_structure s (readyqueue s)); auto. apply Hs. }
  destruct (current s) as [c|] eqn:Hc; cbn [is_null]; [|done].
  destruct (procs s !! c) as [x|]; [|done].
  destruct (is_blocked x); [done|].
  destruct (age x <? lifespan x); [|done].
  intros H. simplify_eq.
  destruct Hs as [Hnd Hcur]. destruct (Hcur c Hc) as [_ Hnotin].
  split_and!; auto.
  intros ? [= <-]. done.
Qed.

Lemma stcf_schedule_keeps_structure : keeps_structure stcf_schedule.
Proof.
  intros s o s' Hs. unfold stcf_schedule. munfold.
  assert (Hpicked : stcf_pick_next s = Ok (o, s') →
    current s' = current s ∧ resources s' = resources s
    ∧ NoDup (readyqueue s')
    ∧ (∀ n, o = Some n → n ∉ readyqueue s')
    ∧ (∀ n, o = Some n → n ∈ readyqueue s ∨ current s = Some n)
    ∧ (∀ p, p ∈ readyqueue s' → p ∈ readyqueue s ∨ current s = Some p)
    ∧ (∀ p, p ∈ readyqueue s → p ∈ readyqueue s' ∨ o = Some p)).
  { intros Hrun. destruct (stcf_pick_spec _ _ _ Hrun) as (Hc & Hr & Hfrom).
    split; [done|]. split; [done|].
    apply (picked_from_structure s (readyqueue s)); auto. apply Hs. }
  destruct Hs as [Hnd Hcur].
  destruct (current s) as [c|] eqn:Hc; cbn [is_null]; [|done].
  destruct (Hcur c eq_refl) as [[x Hx] Hnotin]. rewrite Hx.
  destruct (is_blocked x); [done|].
  assert (Hkeep : Ok (Some c, s) = Ok (o, s') →
    current s' = current s ∧ resources s' = resources s
    ∧ NoDup (readyqueue s')
    ∧ (∀ n, o = Some n → n ∉ readyqueue s')
    ∧ (∀ n, o = Some n → n ∈ readyqueue s ∨ current s = Some n)
    ∧ (∀ p, p ∈ readyqueue s' → p ∈ readyqueue s ∨ current s = Some p)
    ∧ (∀ p, p ∈ readyqueue s → p ∈ readyqueue s' ∨ o = Some p)).
  { intros H. simplify_eq. rewrite Hc. split_and!; auto.
    intros ? [= <-]. done. }
  rewrite Hc in Hkeep.
  destruct (age x <? lifespan x).
  - destruct (list_empty (readyqueue s)); cbn [negb]; [done|].
    destruct (list_for_each_entry (readyqueue s) stcf_preempt_scan
                (UINT_MAX, None) s) as [[[m next] s1]|f] eqn:Hscan; [|done].
    destruct (scan_keeps_queues _ stcf_preempt_scan_body _ _ _ _ _ Hscan)
      as [(Hc1 & Hrq1 & Hr1) Hnext].
    simpl in Hnext.
    destruct (procs s1 !! c) as [x1|]; [|done].
    destruct (uint (lifespan x1 - age x1) >? m).
    2:{ intros H. simplify_eq. rewrite Hc1, Hrq1, Hr1, Hc.
        split_and!; auto. intros ? [= <-]. done. }
    destruct next as [n|]; [|done].
    clear Hpicked Hkeep.
    intros H. simplify_eq. simpl. rewrite Hrq1, Hc1, Hc.
    split; [done|]. split; [done|].
    assert (Hn : n ∈ readyqueue s)
      by (destruct Hnext as [|(n' & Hn' & ?)]; by simplify_eq).
    rewrite <- Hc.
    apply (picked_from_structure s (list_add_tail c (readyqueue s))).
    + apply NoDup_app. split_and!; [done| |apply NoDup_singleton].
      intros p' Hp' ->%list_elem_of_singleton. done.
    + intros p' [Hp'| ->%list_elem_of_singleton]%elem_of_app; auto.
    + intros p' Hp'. apply elem_of_app. by left.
    + right. exists n. split_and!; [done| |done]. apply elem_of_app. by left.
  - destruct (age x =? lifespan x); [done|].
    intros H. simplify_eq. split_and!; auto; done.
Qed.

(** X1.  Each of the six schedule functions keeps the structure of the
    queues: on a state whose ready queue is a proper chain not holding
    the live current process, a call that returns leaves [current] and
    the resources alone, leaves the ready queue a proper chain that does
    not hold the returned process, takes in no process other than the
    current one, and drops none but the one it returns. *)
Theorem schedulers_keep_structure (MAX_PRIO : Z) :
  keeps_structure fcfs_schedule
  ∧ keeps_structure sjf_schedule
  ∧ keeps_structure stcf_schedule
  ∧ keeps_structure rr_schedule
  ∧ keeps_structure prio_schedule
  ∧ keeps_structure (pa_schedule MAX_PRIO).
Proof.
  split_and!.
  - apply keep_schedulers_keep_structure, head_pick_spec.
  - apply keep_schedulers_keep_structure, sjf_pick_spec.
  - apply stcf_schedule_keeps_structure.
  - apply requeue_schedulers_keep_structure, head_pick_spec.
  - apply requeue_schedulers_keep_structure, prio_pick_spec.
  - apply requeue_schedulers_keep_structure, pa_pick_spec.
Qed.

(** ** Round-robin *)

(** X3.  [rr_schedule] in closed form: with the still-runnable current
    process put at the tail, it returns the head of the ready queue and
    leaves the rest; from an empty queue it returns NULL.  A runnable
    current process facing an empty ready queue is returned itself. *)
Theorem rr_schedule_rotates (s : state) :
  schedulable s →
  rr_schedule s
  = Ok (head (scanned_queue s),
        mkState (procs s) (current s) (tail (scanned_queue s))
                (resources s)).
Proof.
  intros Hs.
  destruct (scanned_queue_structure s Hs) as (Hnd & _ & _).
  unfold rr_schedule.
  rewrite requeue_then_pick by (intros c Hc; by apply Hs).
  unfold rr_pick_next, requeued. munfold. cbn [readyqueue].
  destruct (scanned_queue s) as [|n q]; [done|].
  simpl. apply NoDup_cons in Hnd as [Hn _].
  fold (list_del_init n (n :: q)). by rewrite list_del_init_cons.
Qed.

(** ** Shortest job and shortest remaining time *)

(** The scans for a minimum: [sjf_scan] on the lifespan and
    [stcf_pick_scan] on the remaining time. *)
Lemma min_scan_spec (key : process → Z)
    (body : ptr → Z * option ptr → M (Z * option ptr)) (s : state) :
  (∀ tmp min next,
     body tmp (min, next) s
     = (t <- load (Some tmp) ;;
        if key t <? min then ret (key t, Some tmp) else ret (min, next)) s) →
  ∀ (q : list ptr) (init : Z),
    (∀ p, p ∈ q → is_Some (procs s !! p)) →
    ∃ min next,
      list_for_each_entry q body (init, None) s = Ok ((min, next), s)
      ∧ (∀ p y, p ∈ q → procs s !! p = Some y → min ≤ key y)
      ∧ match next with
        | None =>
            min = init ∧ ∀ p y, p ∈ q → procs s !! p = Some y → init ≤ key y
        | Some n =>
            min < init
            ∧ ∃ q1 q2 y, q = q1 ++ n :: q2 ∧ procs s !! n = Some y
                         ∧ key y = min
                         ∧ (∀ p z, p ∈ q1 → procs s !! p = Some z →
                                   min < key z)
        end.
Proof.
  intros Hbody q init.
  induction q as [|tmp q IH] using rev_ind; intros Hlive.
  - exists init, None. split_and!; try done;
      intros p y Hp; by apply not_elem_of_nil in Hp.
  - destruct IH as (min & next & Hrun & Hle & Hnext).
    { intros p Hp. apply Hlive, elem_of_app. by left. }
    destruct (Hlive tmp) as [t Ht].
    { apply elem_of_app. right. left. }
    rewrite list_for_each_entry_app, Hrun. simpl. unfold bind at 1.
    rewrite Hbody. munfold. rewrite Ht.
    assert (Hmin : min ≤ init).
    { destruct next; [|by destruct Hnext as [-> _]].
      destruct Hnext as [? _]. lia. }
    destruct (key t <? min) eqn:Hlt.
    + apply Z.ltb_lt in Hlt.
      exists (key t), (Some tmp). split_and!; [done| |lia|].
      * intros p y Hp Hy. apply elem_of_app in Hp as [Hp|Hp].
        -- specialize (Hle p y Hp Hy). lia.
        -- apply list_elem_of_singleton in Hp as ->.
           assert (y = t) by congruence. subst. lia.
      * exists q, [], t. split_and!; [done..|].
        intros p z Hp Hz. specialize (Hle p z Hp Hz). lia.
    + apply Z.ltb_ge in Hlt.
      exists min, next. split_and!; [done| |].
      * intros p y Hp Hy. apply elem_of_app in Hp as [Hp|Hp].
        -- by apply (Hle p).
        -- apply list_elem_of_singleton in Hp as ->.
           assert (y = t) by congruence. by subst.
      * destruct next as [n|].
        -- destruct Hnext as (? & q1 & q2 & y & -> & Hy & Hk & Hbefore).
           split; [done|].
           exists q1, (q2 ++ [tmp]), y. split_and!; [|done..].
           by rewrite <- app_assoc.
        -- destruct Hnext as [-> Hall]. split; [done|].
           intros p y Hp Hy. apply elem_of_app in Hp as [Hp|Hp].
           ++ by apply (Hall p).
           ++ apply list_elem_of_singleton in Hp as ->.
              assert (y = t) by congruence. by subst.
Qed.

(** The schedulers that keep a runnable current process reduce to their
    pick step otherwise. *)
Lemma keep_or_pick (pick : M (option ptr)) (s : state) :
  (∀ c, current s = Some c → is_Some (procs s !! c)) →
  (cur <- get_current ;;
   if is_null cur then pick
   else
     c <- load cur ;;
     if is_blocked c then pick
     else if age c <? lifespan c then ret cur
     else pick) s
  = if keeps_running s then Ok (current s, s) else pick s.
Proof.
  intros Hlive. unfold keeps_running. munfold.
  destruct (current s) as [c|] eqn:Hc; [|done]. cbn [is_null].
  destruct (Hlive c eq_refl) as [x Hx]. rewrite Hx.
  destruct (is_blocked x); [done|].
  by destruct (age x <? lifespan x).
Qed.

(** A pick step that scans for a minimum, run on a ready queue of live
    processes. *)
Lemma min_pick_run (key : process → Z)
    (body : ptr → Z * option ptr → M (Z * option ptr)) (s : state) :
  (∀ tmp min next,
     body tmp (min, next) s
     = (t <- load (Some tmp) ;;
        if key t <? min then ret (key t, Some tmp) else ret (min, next)) s) →
  readyqueue s ≠ [] →
  NoDup (readyqueue s) →
  (∀ p, p ∈ readyqueue s → is_Some (procs s !! p)) →
  ((∃ p y, p ∈ readyqueue s ∧ procs s !! p = Some y ∧ key y < UINT_MAX) →
   ∃ n q1 q2,
     first_least key s (readyqueue s) n q1 q2
     ∧ (l <- list_for_each_entry (readyqueue s) body (UINT_MAX, None) ;;
        let '(_, next) := l in
        readyqueue_del_init next ;;; ret next) s
       = Ok (Some n,
             mkState (procs s) (current s) (q1 ++ q2) (resources s)))
  ∧ ((∀ p y, p ∈ readyqueue s → procs s !! p = Some y → UINT_MAX ≤ key y) →
     (l <- list_for_each_entry (readyqueue s) body (UINT_MAX, None) ;;
      let '(_, next) := l in
      readyqueue_del_init next ;;; ret next) s
     = Fault NullDeref).
Proof.
  intros Hbody Hne Hnd Hlive.
  destruct (min_scan_spec key body s Hbody (readyqueue s) UINT_MAX Hlive)
    as (min & next & Hrun & Hle & Hnext).
  unfold bind at 1 3. rewrite Hrun.
  destruct next as [n|].
  - destruct Hnext as (Hlt & q1 & q2 & y & Hq & Hy & Hk & Hbefore).
    split.
    + intros _. exists n, q1, q2. split.
      * split; [done|]. exists y. rewrite Hk. split_and!; done.
      * munfold. rewrite Hq in *. by rewrite list_del_init_middle.
    + intros Hall. specialize (Hall n y). rewrite Hq in Hall.
      assert (UINT_MAX ≤ key y); [|lia].
      apply Hall; [|done]. apply elem_of_app. right. left.
  - destruct Hnext as [-> Hall]. split; [|done].
    intros (p & y & Hp & Hy & Hlt). specialize (Hall p y Hp Hy). lia.
Qed.

Lemma sjf_pick_next_nonempty (s : state) :
  readyqueue s ≠ [] →
  sjf_pick_next s
  = (l <- list_for_each_entry (readyqueue s) sjf_scan (UINT_MAX, None) ;;
     let '(_, next) := l in
     readyqueue_del_init next ;;; ret next) s.
Proof.
  intros Hne. unfold sjf_pick_next. unfold bind at 1, get_readyqueue.
  by destruct (readyqueue s).
Qed.

Lemma stcf_pick_next_nonempty (s : state) :
  readyqueue s ≠ [] →
  stcf_pick_next s
  = (l <- list_for_each_entry (readyqueue s) stcf_pick_scan
            (UINT_MAX, None) ;;
     let '(_, next) := l in
     readyqueue_del_init next ;;; ret next) s.
Proof.
  intros Hne. unfold stcf_pick_next. unfold bind at 1, get_readyqueue.
  by destruct (readyqueue s).
Qed.

Lemma stcf_schedule_goes_to_pick_next (s : state) :
  goes_to_pick_next s → stcf_schedule s = stcf_pick_next s.
Proof.
  unfold stcf_schedule. munfold.
  intros [Hc|(c & x & Hc & Hx & Hwhy)]; rewrite Hc; [done|].
  cbn [is_null]. rewrite Hx. unfold is_blocked.
  destruct Hwhy as [Hst|Hage].
  - by rewrite bool_decide_eq_true_2.
  - destruct (bool_decide (status x = PROCESS_BLOCKED)); [done|].
    rewrite Hage, Z.ltb_irrefl, Z.eqb_refl. done.
Qed.

(** X6.  [sjf_schedule] is non-preemptive and otherwise picks the
    shortest job: a current process that is not BLOCKED and has lifetime
    left is returned with the state untouched, whatever waits in the
    ready queue; otherwise, when some ready process has a lifespan below
    [UINT_MAX], the first ready process of least lifespan is returned
    and unlinked. *)
Theorem sjf_schedule_shortest_first (s : state) :
  (∀ c, current s = Some c → is_Some (procs s !! c)) →
  NoDup (readyqueue s) →
  (∀ p, p ∈ readyqueue s → is_Some (procs s !! p)) →
  (keeps_running s = true → sjf_schedule s = Ok (current s, s))
  ∧ (keeps_running s = false →
     (∃ p y, p ∈ readyqueue s ∧ procs s !! p = Some y
             ∧ lifespan y < UINT_MAX) →
     ∃ n q1 q2,
       first_least lifespan s (readyqueue s) n q1 q2
       ∧ sjf_schedule s
         = Ok (Some n,
               mkState (procs s) (current s) (q1 ++ q2) (resources s))).
Proof.
  intros Hcur Hnd Hlive. unfold sjf_schedule.
  rewrite (keep_or_pick sjf_pick_next s Hcur).
  split; intros ->; [done|].
  intros Hsome.
  assert (Hne : readyqueue s ≠ []).
  { destruct Hsome as (p & _ & Hp & _). intros Hnil. rewrite Hnil in Hp.
    by apply not_elem_of_nil in Hp. }
  rewrite sjf_pick_next_nonempty by done.
  by apply (min_pick_run lifespan sjf_scan s).
Qed.

(** X7.  Under its label [pick_next] — no current process, or a BLOCKED
    one, or one that has just used up its lifespan — [stcf_schedule]
    returns and unlinks the first ready process of least remaining
    time, when some ready process has a remaining time below
    [UINT_MAX]. *)
Theorem stcf_schedule_picks_least_remaining (s : state) :
  goes_to_pick_next s →
  NoDup (readyqueue s) →
  (∀ p, p ∈ readyqueue s → is_Some (procs s !! p)) →
  (∃ p y, p ∈ readyqueue s ∧ procs s !! p = Some y
          ∧ remaining y < UINT_MAX) →
  ∃ n q1 q2,
    first_least remaining s (readyqueue s) n q1 q2
    ∧ stcf_schedule s
      = Ok (Some n, mkState (procs s) (current s) (q1 ++ q2) (resources s)).
Proof.
  intros Hpick Hnd Hlive Hsome.
  assert (Hne : readyqueue s ≠ []).
  { destruct Hsome as (p & _ & Hp & _). intros Hnil. rewrite Hnil in Hp.
    by apply not_elem_of_nil in Hp. }
  rewrite stcf_schedule_goes_to_pick_next, stcf_pick_next_nonempty by done.
  by apply (min_pick_run remaining stcf_pick_scan s).
Qed.

(** X9.  The pick steps of SJF and STCF start from [min = UINT_MAX] and
    compare strictly: with a non-empty ready queue in which every
    lifespan (for SJF, when it does not keep the current process) or
    every remaining time (for STCF under [pick_next]) is [UINT_MAX], no
    candidate is found and the schedule function ends in a NULL
    dereference. *)
Theorem min_pick_null_deref (s : state) :
  readyqueue s ≠ [] →
  NoDup (readyqueue s) →
  (∀ p, p ∈ readyqueue s → is_Some (procs s !! p)) →
  ((∀ c, current s = Some c → is_Some (procs s !! c)) →
   keeps_running s = false →
   (∀ p y, p ∈ readyqueue s → procs s !! p = Some y →
           lifespan y = UINT_MAX) →
   sjf_schedule s = Fault NullDeref)
  ∧ (goes_to_pick_next s →
     (∀ p y, p ∈ readyqueue s → procs s !! p = Some y →
             remaining y = UINT_MAX) →
     stcf_schedule s = Fault NullDeref).
Proof.
  intros Hne Hnd Hlive. split.
  - intros Hcur Hkeep Hall.
    unfold sjf_schedule. rewrite keep_or_pick, Hkeep by done.
    rewrite sjf_pick_next_nonempty by done.
    apply (min_pick_run lifespan sjf_scan s); try done.
    intros p y Hp Hy. by rewrite (Hall p y).
  - intros Hpick Hall.
    rewrite stcf_schedule_goes_to_pick_next by done.
    rewrite stcf_pick_next_nonempty by done.
    apply (min_pick_run remaining stcf_pick_scan s); try done.
    intros p y Hp Hy. by rewrite (Hall p y).
Qed.

(** ** Processes that are BLOCKED or finished *)

Lemma picked_from_not_current (q q' : list ptr) (o : option ptr) (c : ptr) :
  picked_from q o q' → c ∉ q → o ≠ Some c ∧ c ∉ q'.
Proof.
  intros [(-> & -> & ->)|(n & -> & Hn & ->)] Hc; [done|].
  split.
  - intros [= ->]. done.
  - intros [_ ?]%elem_of_list_del_init. done.
Qed.

Lemma retired_not_running (s : state) (c : ptr) (x : process) :
  current s = Some c →
  procs s !! c = Some x →
  status x = PROCESS_BLOCKED ∨ lifespan x ≤ age x →
  keeps_running s = false ∧ scanned_queue s = readyqueue s.
Proof.
  intros Hc Hx Hwhy. unfold keeps_running, scanned_queue.
  rewrite Hc, Hx. unfold is_blocked.
  destruct Hwhy as [Hst|Hage].
  - by rewrite bool_decide_eq_true_2.
  - apply Z.ltb_ge in Hage. rewrite Hage.
    by destruct (bool_decide (status x = PROCESS_BLOCKED)).
Qed.

Lemma keep_schedulers_retire (pick : M (option ptr)) :
  pick_spec pick →
  retires_current
    (cur <- get_current ;;
     if is_null cur then pick
     else
       c <- load cur ;;
       if is_blocked c then pick
       else if age c <? lifespan c then ret cur
       else pick).
Proof.
  intros Hpick s c x o s' Hs Hc Hx Hwhy.
  destruct (retired_not_running s c x Hc Hx Hwhy) as [Hkeep _].
  rewrite keep_or_pick, Hkeep by (intros ? ?; by apply Hs).
  intros Hrun. destruct (Hpick _ _ _ Hrun) as (_ & _ & Hfrom).
  apply (picked_from_not_current _ _ _ _ Hfrom), Hs, Hc.
Qed.

Lemma requeue_schedulers_retire (pick : M (option ptr)) :
  pick_spec pick →
  retires_current
    (cur <- get_current ;;
     if is_null cur then pick
     else
       c <- load cur ;;
       if is_blocked c then pick
       else
         (if age c <? lifespan c then readyqueue_add_tail cur else ret tt) ;;;
         pick).
Proof.
  intros Hpick s c x o s' Hs Hc Hx Hwhy.
  destruct (retired_not_running s c x Hc Hx Hwhy) as [_ Hq].
  rewrite requeue_then_pick by (intros ? ?; by apply Hs).
  intros Hrun. destruct (Hpick _ _ _ Hrun) as (_ & _ & Hfrom).
  simpl in Hfrom. rewrite Hq in Hfrom.
  apply (picked_from_not_current _ _ _ _ Hfrom), Hs, Hc.
Qed.

Lemma stcf_schedule_retires : retires_current stcf_schedule.
Proof.
  intros s c x o s' Hs Hc Hx Hwhy.
  assert (Hnotin : c ∉ readyqueue s) by apply Hs, Hc.
  assert (Hpicked : stcf_pick_next s = Ok (o, s') →
                    o ≠ Some c ∧ c ∉ readyqueue s').
  { intros Hrun. destruct (stcf_pick_spec _ _ _ Hrun) as (_ & _ & Hfrom).
    by apply (picked_from_not_current _ _ _ _ Hfrom). }
  destruct Hwhy as [Hst|Hage].
  { rewrite stcf_schedule_goes_to_pick_next; [done|].
    right. exists c, x. auto. }
  destruct (decide (age x = lifespan x)) as [Heq|Hne].
  { rewrite stcf_schedule_goes_to_pick_next; [done|].
    right. exists c, x. auto. }
  unfold stcf_schedule. munfold. rewrite Hc. cbn [is_null]. rewrite Hx.
  destruct (is_blocked x); [done|].
  apply Z.ltb_ge in Hage. rewrite Hage.
  apply Z.eqb_neq in Hne. rewrite Hne.
  intros H. by simplify_eq.
Qed.

(** X2.  Each of the six schedule functions retires a current process
    that is BLOCKED or has [age >= lifespan]: a call that returns never
    returns that process and never links it on the ready queue. *)
Theorem schedulers_retire_current (MAX_PRIO : Z) :
  retires_current fcfs_schedule
  ∧ retires_current sjf_schedule
  ∧ retires_current stcf_schedule
  ∧ retires_current rr_schedule
  ∧ retires_current prio_schedule
  ∧ retires_current (pa_schedule MAX_PRIO).
Proof.
  split_and!.
  - apply keep_schedulers_retire, head_pick_spec.
  - apply keep_schedulers_retire, sjf_pick_spec.
  - apply stcf_schedule_retires.
  - apply requeue_schedulers_retire, head_pick_spec.
  - apply requeue_schedulers_retire, prio_pick_spec.
  - apply requeue_schedulers_retire, pa_pick_spec.
Qed.

(** ** Release *)

(** The scan of [prio_release] started with the candidate [w0]: it ends
    with [w0] if no entry has a strictly higher priority, and otherwise
    with the first entry of highest priority. *)
Lemma prio_release_scan_spec (s : state) (w0 : ptr) (x0 : process)
    (q : list ptr) :
  procs s !! w0 = Some x0 →
  (∀ p, p ∈ q → is_Some (procs s !! p)) →
  ∃ w xw,
    list_for_each_entry q prio_release_scan (Some w0) s = Ok (Some w, s)
    ∧ procs s !! w = Some xw
    ∧ prio x0 ≤ prio xw
    ∧ (∀ p y, p ∈ q → procs s !! p = Some y → prio y ≤ prio xw)
    ∧ (w = w0 ∧ xw = x0
       ∨ ∃ q1 q2, q = q1 ++ w :: q2 ∧ prio x0 < prio xw
                  ∧ ∀ p y, p ∈ q1 → procs s !! p = Some y →
                           prio y < prio xw).
Proof.
  intros Hw0. induction q as [|tmp q IH] using rev_ind; intros Hlive.
  - exists w0, x0. split_and!; try done; [|by left].
    intros p y Hp. by apply not_elem_of_nil in Hp.
  - destruct IH as (w & xw & Hrun & Hw & Hge & Hle & Hsel).
    { intros p Hp. apply Hlive, elem_of_app. by left. }
    destruct (Hlive tmp) as [t Ht].
    { apply elem_of_app. right. left. }
    rewrite list_for_each_entry_app, Hrun. simpl.
    unfold prio_release_scan. munfold. rewrite Ht, Hw.
    destruct (prio t >? prio xw) eqn:Hgt.
    + apply Z.gtb_lt in Hgt.
      exists tmp, t. split_and!; [done|done|lia| |].
      * intros p y Hp Hy. apply elem_of_app in Hp as [Hp|Hp].
        -- specialize (Hle p y Hp Hy). lia.
        -- apply list_elem_of_singleton in Hp as ->.
           assert (y = t) by congruence. subst. lia.
      * right. exists q, []. split_and!; [done|lia|].
        intros p y Hp Hy. specialize (Hle p y Hp Hy). lia.
    + rewrite Z.gtb_ltb in Hgt. apply Z.ltb_ge in Hgt.
      exists w, xw. split_and!; [done..| |].
      * intros p y Hp Hy. apply elem_of_app in Hp as [Hp|Hp].
        -- by apply (Hle p).
        -- apply list_elem_of_singleton in Hp as ->.
           assert (y = t) by congruence. by subst.
      * destruct Hsel as [?|(q1 & q2 & -> & ? & ?)]; [by left|].
        right. exists q1, (q2 ++ [tmp]). split_and!; [|done..].
        by rewrite <- app_assoc.
Qed.

(** X17.  [prio_release] by the owner, on a wait list that is a proper
    chain of live BLOCKED processes: ownership is cleared and not passed
    on; with waiters, the first waiter of highest priority leaves the
    wait list, becomes READY and goes to the tail of the ready queue;
    no priority is changed and nothing else is touched. *)
Theorem prio_release_wakes_highest (s : state) (resource_id : nat) (c : ptr)
    (r : resource) :
  current s = Some c →
  resources s !! resource_id = Some r →
  owner r = Some c →
  NoDup (waitqueue r) →
  (∀ w, w ∈ waitqueue r →
        ∃ x, procs s !! w = Some x ∧ status x = PROCESS_BLOCKED) →
  ∃ s' r',
    prio_release resource_id s = Ok (tt, s')
    ∧ current s' = current s
    ∧ resources s' !! resource_id = Some r'
    ∧ owner r' = None
    ∧ (∀ i, i ≠ resource_id → resources s' !! i = resources s !! i)
    ∧ (waitqueue r = [] →
       waitqueue r' = [] ∧ readyqueue s' = readyqueue s ∧ procs s' = procs s)
    ∧ (waitqueue r ≠ [] →
       ∃ w q1 q2 xw xw',
         waitqueue r = q1 ++ w :: q2
         ∧ procs s !! w = Some xw
         ∧ (∀ p y, p ∈ q1 → procs s !! p = Some y → prio y < prio xw)
         ∧ (∀ p y, p ∈ q2 → procs s !! p = Some y → prio y ≤ prio xw)
         ∧ waitqueue r' = q1 ++ q2
         ∧ readyqueue s' = readyqueue s ++ [w]
         ∧ procs s' !! w = Some xw'
         ∧ status xw' = PROCESS_READY
         ∧ pid xw' = pid xw ∧ age xw' = age xw
         ∧ lifespan xw' = lifespan xw
         ∧ prio xw' = prio xw ∧ prio_orig xw' = prio_orig xw
         ∧ (∀ p, p ≠ w → procs s' !! p = procs s !! p)).
Proof.
  intros Hcurrent Hresource Howner Hnd Hwaiters.
  assert (Hlt : (resource_id < length (resources s))%nat)
    by (eapply lookup_lt_Some; eauto).
  unfold prio_release. munfold.
  rewrite Hresource, Hcurrent, Howner; simpl.
  rewrite bool_decide_eq_true_2 by done.
  rewrite Hresource; simpl.
  rewrite list_lookup_insert_eq by done; simpl.
  destruct (waitqueue r) as [|w0 rest] eqn:Hwq.
  { eexists _, (mkResource None []). split; [reflexivity|]. simpl.
    rewrite list_lookup_insert_eq by done.
    split_and!; try done.
    intros i Hi. by rewrite list_lookup_insert_ne. }
  destruct (Hwaiters w0) as (x0 & Hx0 & Hb0); [left|].
  set (s1 := mkState _ _ _ _).
  destruct (prio_release_scan_spec s1 w0 x0 (w0 :: rest) Hx0)
    as (w & xw & Hrun & Hw & Hge & Hle & Hsel).
  { intros p Hp. destruct (Hwaiters p Hp) as (x & Hx & _). eauto. }
  cbn [list_empty negb list_first_entry head]. rewrite Hrun.
  assert (Hsplit : ∃ q1 q2,
    w0 :: rest = q1 ++ w :: q2
    ∧ (∀ p y, p ∈ q1 → procs s !! p = Some y → prio y < prio xw)).
  { destruct Hsel as [[-> ->]|(q1 & q2 & Heq & Hlt0 & Hbefore)].
    - exists [], rest. split; [done|].
      intros p y Hp. by apply not_elem_of_nil in Hp.
    - exists q1, q2. done. }
  destruct Hsplit as (q1 & q2 & Heq & Hbefore).
  assert (Hwin : w ∈ w0 :: rest).
  { rewrite Heq. apply elem_of_app. right. left. }
  destruct (Hwaiters w Hwin) as (x & Hx & Hblocked).
  assert (x = xw) by (subst s1; simpl in Hw; congruence). subst x.
  subst s1; simpl in *.
  rewrite Hx, Hblocked. mrun.
  eexists _, (mkResource None (q1 ++ q2)). split; [reflexivity|]. simpl.
  rewrite list_insert_insert_eq, list_lookup_insert_eq by done.
  rewrite Heq, list_del_init_middle by (by rewrite <- Heq).
  split_and!; try done.
  - intros i Hi. by rewrite list_lookup_insert_ne.
  - intros Hnil. by destruct q1.
  - intros _. exists w, q1, q2, xw, (set_status PROCESS_READY xw).
    rewrite lookup_insert_eq. split_and!; try done.
    + intros p y Hp Hy. apply (Hle p); [|done].
      rewrite Heq. apply elem_of_app. right. by right.
    + intros p Hp. by rewrite lookup_insert_ne.
Qed.

Lemma set_prio_same (x : process) : set_prio (prio x) x = x.
Proof. by destruct x. Qed.

(** What the waiter scan of [pcp_release] and [pip_release] may change:
    the priority of a process, and only to its base priority. *)
Lemma pcp_release_scan_frame (wq : list ptr) :
  ∀ (s : state) (w0 : ptr),
    (∀ p, p ∈ wq → is_Some (procs s !! p)) →
    is_Some (procs s !! w0) →
    ∃ w s',
      list_for_each_entry wq pcp_release_scan (Some w0) s = Ok (Some w, s')
      ∧ same_queues s s'
      ∧ (w = w0 ∨ w ∈ wq)
      ∧ (∀ p, p ∉ wq → procs s' !! p = procs s !! p)
      ∧ (∀ p x, procs s !! p = Some x →
           ∃ v, (v = prio x ∨ v = prio_orig x)
                ∧ procs s' !! p = Some (set_prio v x)).
Proof.
  induction wq as [|tmp wq IH]; intros s w0 Hlive [x0 Hw0].
  - exists w0, s. simpl. unfold ret.
    split_and!; [done|apply same_queues_refl|by left|done|].
    intros p x Hx. exists (prio x). rewrite set_prio_same. auto.
  - destruct (Hlive tmp) as [t Ht]; [left|].
    simpl. unfold pcp_release_scan at 1. munfold.
    rewrite Ht, Hw0.
    destruct (prio t >? prio x0).
    + rewrite Ht.
      set (s1 := mkState _ _ _ _).
      destruct (IH s1 tmp) as (w & s' & Hrun & Hq & Hw & Hout & Hrel).
      { intros p Hp. subst s1; simpl. rewrite lookup_insert.
        case_decide; [done|]. apply Hlive. by right. }
      { subst s1; simpl. by rewrite lookup_insert_eq. }
      exists w, s'. rewrite Hrun. split_and!; [done|done| | |].
      * destruct Hw as [->|Hw]; right; [left|by right].
      * intros p Hp. apply not_elem_of_cons in Hp as [Hne Hp].
        rewrite Hout by done. subst s1; simpl. by rewrite lookup_insert_ne.
      * intros p x Hp.
        destruct (decide (tmp = p)) as [->|Hne].
        -- destruct (Hrel p (set_prio (prio_orig t) t)) as (v & Hv & Hp').
           { subst s1; simpl. by rewrite lookup_insert_eq. }
           assert (x = t) by congruence. subst x.
           exists v. split; [|done]. simpl in Hv. destruct Hv; auto.
        -- apply Hrel. subst s1; simpl. by rewrite lookup_insert_ne.
    + destruct (IH s w0) as (w & s' & Hrun & Hq & Hw & Hout & Hrel).
      { intros p Hp. apply Hlive. by right. }
      { eauto. }
      exists w, s'. rewrite Hrun. split_and!; [done|done| | |done].
      * destruct Hw as [->|Hw]; [by left|right; by right].
      * intros p Hp. apply not_elem_of_cons in Hp as [Hne Hp]. by apply Hout.
Qed.

(** [pcp_release] by the owner when nobody waits: the owner is cleared
    and nothing else changes. *)
Lemma pcp_release_no_waiter (s : state) (resource_id : nat) (c : ptr)
    (r : resource) :
  current s = Some c →
  resources s !! resource_id = Some r →
  owner r = Some c →
  waitqueue r = [] →
  pcp_release resource_id s
  = Ok (tt, mkState (procs s) (current s) (readyqueue s)
                    (<[resource_id := mkResource None []]> (resources s))).
Proof.
  intros Hcurrent Hresource Howner Hnil.
  assert (Hlt : (resource_id < length (resources s))%nat)
    by (eapply lookup_lt_Some; eauto).
  unfold pcp_release. munfold.
  rewrite Hresource, Hcurrent, Howner; simpl.
  rewrite bool_decide_eq_true_2 by done.
  rewrite Hresource; simpl.
  rewrite list_lookup_insert_eq by done; simpl.
  destruct (waitqueue r) as [|w0 rest]; [|done].
  cbn [list_empty negb]. unfold ret.
  by rewrite ?list_insert_insert_eq, ?Hcurrent.
Qed.

(** Symbolic execution of [pcp_release] called by the owner, up to the
    test of the wait list. *)
Ltac release_by_owner Hcurrent Hresource Howner :=
  unfold pcp_release; munfold;
  rewrite Hresource, Hcurrent, Howner; simpl;
  rewrite bool_decide_eq_true_2 by done;
  rewrite Hresource; simpl;
  rewrite list_lookup_insert_eq by (eapply lookup_lt_Some; eauto); simpl.

(** X18.  [pcp_release] and [pip_release] by the owner, on a non-empty
    wait list that is a proper chain of live BLOCKED processes: both
    return the same state, in which the resource has no owner, exactly
    one waiter has moved from the wait list to the tail of the ready
    queue and is READY, processes that were not waiting (the caller
    among them) are untouched, and every other field of every process is
    as before, except that a waiter's priority may have been reset to
    its base priority. *)
Theorem inversion_release_moves_one_waiter (s : state) (resource_id : nat)
    (c : ptr) (r : resource) :
  current s = Some c →
  resources s !! resource_id = Some r →
  owner r = Some c →
  waitqueue r ≠ [] →
  NoDup (waitqueue r) →
  (∀ w, w ∈ waitqueue r →
        ∃ x, procs s !! w = Some x ∧ status x = PROCESS_BLOCKED) →
  ∃ s' w q1 q2 r' xw,
    pcp_release resource_id s = Ok (tt, s')
    ∧ pip_release resource_id s = Ok (tt, s')
    ∧ waitqueue r = q1 ++ w :: q2
    ∧ current s' = current s
    ∧ readyqueue s' = readyqueue s ++ [w]
    ∧ resources s' !! resource_id = Some r'
    ∧ owner r' = None
    ∧ waitqueue r' = q1 ++ q2
    ∧ (∀ i, i ≠ resource_id → resources s' !! i = resources s !! i)
    ∧ procs s' !! w = Some xw
    ∧ status xw = PROCESS_READY
    ∧ (∀ p, p ∉ waitqueue r → procs s' !! p = procs s !! p)
    ∧ (∀ p x, procs s !! p = Some x →
         ∃ x', procs s' !! p = Some x'
               ∧ pid x' = pid x ∧ age x' = age x
               ∧ lifespan x' = lifespan x
               ∧ prio_orig x' = prio_orig x
               ∧ (prio x' = prio x ∨ prio x' = prio_orig x)
               ∧ (p ≠ w → status x' = status x)).
Proof.
  intros Hcurrent Hresource Howner Hne Hnd Hwaiters.
  assert (Hlt : (resource_id < length (resources s))%nat)
    by (eapply lookup_lt_Some; eauto).
  change (pip_release resource_id s) with (pcp_release resource_id s).
  release_by_owner Hcurrent Hresource Howner.
  destruct (waitqueue r) as [|w0 rest] eqn:Hwq; [done|].
  set (s1 := mkState _ _ _ _).
  destruct (pcp_release_scan_frame (w0 :: rest) s1 w0)
    as (w & s2 & Hrun & (Hc & Hq & Hr) & Hw & Hout & Hrel).
  { intros p Hp. destruct (Hwaiters p Hp) as (x & Hx & _).
    subst s1; simpl. eauto. }
  { destruct (Hwaiters w0) as (x & Hx & _); [left|]. subst s1; simpl. eauto. }
  cbn [list_empty negb list_first_entry head]. rewrite Hrun.
  assert (Hwin : w ∈ w0 :: rest) by (destruct Hw as [->|]; [left|done]).
  destruct (Hwaiters w Hwin) as (x & Hx & Hblocked).
  destruct (Hrel w x Hx) as (v & Hv & Hx').
  apply list_elem_of_split in Hwin as (q1 & q2 & Heq).
  subst s1; simpl in *.
  rewrite Hx'. cbn [status set_prio]. rewrite Hblocked. mrun.
  eexists _, w, q1, q2, (mkResource None (q1 ++ q2)),
          (set_status PROCESS_READY (set_prio v x)).
  split; [reflexivity|]. split; [reflexivity|]. simpl.
  rewrite lookup_insert_eq.
  rewrite list_insert_insert_eq, list_lookup_insert_eq by done.
  rewrite Heq, list_del_init_middle by (by rewrite <- Heq).
  split_and!; try done.
  - intros i Hi. by rewrite list_lookup_insert_ne.
  - intros p Hp. rewrite lookup_insert_ne; [apply Hout; by rewrite Heq|].
    intros ->. apply Hp. apply elem_of_app. right. left.
  - intros p y Hy. destruct (decide (p = w)) as [->|Hpw].
    + rewrite lookup_insert_eq. eexists. split; [done|].
      assert (y = x) by congruence. subst y. simpl.
      split_and!; try done; destruct Hv; subst; auto.
    + rewrite lookup_insert_ne by done.
      destruct (Hrel p y Hy) as (v' & Hv' & Hy').
      eexists. split; [exact Hy'|]. simpl.
      split_and!; try done; destruct Hv'; subst; auto.
Qed.

(** ** The two release operations *)

(** C10.  [pcp_release] and [pip_release] are the same state
    transformer.  On every state and resource they give the same
    outcome.  When the caller owns the resource (and the wait list is a
    proper chain of live BLOCKED processes) both return, with the same
    resulting state: the resource has no owner; with an empty wait list
    nothing else has changed; otherwise the same waiter has left the
    wait list, is READY and sits at the tail of the ready queue, and the
    same priorities have been reset: the chosen waiter keeps its
    priority when it is the first of the list and has its base priority
    otherwise, and every other process has the priority it had or its
    base priority. *)
Theorem pcp_release_eq_pip_release :
  (∀ (resource_id : nat) (s : state),
     pcp_release resource_id s = pip_release resource_id s)
  ∧ (∀ (s : state) (resource_id : nat) (c : ptr) (r : resource),
       current s = Some c →
       resources s !! resource_id = Some r →
       owner r = Some c →
       NoDup (waitqueue r) →
       (∀ w, w ∈ waitqueue r →
             ∃ x, procs s !! w = Some x ∧ status x = PROCESS_BLOCKED) →
       ∃ s' r',
         pcp_release resource_id s = Ok (tt, s')
         ∧ pip_release resource_id s = Ok (tt, s')
         ∧ current s' = current s
         ∧ resources s' !! resource_id = Some r'
         ∧ owner r' = None
         ∧ (∀ i, i ≠ resource_id → resources s' !! i = resources s !! i)
         ∧ (waitqueue r = [] →
            waitqueue r' = [] ∧ readyqueue s' = readyqueue s
            ∧ procs s' = procs s)
         ∧ (waitqueue r ≠ [] →
            ∃ w q1 q2 x xw,
              waitqueue r = q1 ++ w :: q2
              ∧ waitqueue r' = q1 ++ q2
              ∧ readyqueue s' = readyqueue s ++ [w]
              ∧ procs s !! w = Some x
              ∧ procs s' !! w = Some xw
              ∧ status xw = PROCESS_READY
              ∧ (head (waitqueue r) = Some w ∧ prio xw = prio x
                 ∨ prio xw = prio_orig xw)
              ∧ (∀ p y, procs s !! p = Some y →
                   ∃ y', procs s' !! p = Some y'
                         ∧ prio_orig y' = prio_orig y
                         ∧ (prio y' = prio y ∨ prio y' = prio_orig y)
                         ∧ (p ≠ w → status y' = status y))
              ∧ (∀ p, p ∉ waitqueue r → procs s' !! p = procs s !! p))).
Proof.
  split; [reflexivity|].
  intros s resource_id c r Hcurrent Hresource Howner Hnd Hwaiters.
  assert (Hlt : (resource_id < length (resources s))%nat)
    by (eapply lookup_lt_Some; eauto).
  change (pip_release resource_id s) with (pcp_release resource_id s).
  release_by_owner Hcurrent Hresource Howner.
  destruct (waitqueue r) as [|w0 rest] eqn:Hwq.
  { eexists _, (mkResource None []).
    split; [reflexivity|]. split; [reflexivity|]. simpl.
    rewrite list_lookup_insert_eq by done.
    split_and!; try done.
    intros i Hi. by rewrite list_lookup_insert_ne. }
  set (s1 := mkState _ _ _ _).
  assert (Hlive1 : ∀ p, p ∈ w0 :: rest → is_Some (procs s1 !! p)).
  { intros p Hp. destruct (Hwaiters p Hp) as (x & Hx & _).
    subst s1; simpl. eauto. }
  assert (Hlive0 : is_Some (procs s1 !! w0)) by (apply Hlive1; left).
  destruct (pcp_release_scan_frame (w0 :: rest) s1 w0 Hlive1 Hlive0)
    as (w & s2 & Hrun & (Hc & Hq & Hr) & Hw & Hout & Hrel).
  destruct (pcp_release_scan_spec (w0 :: rest) s1 w0 Hlive1 Hlive0)
    as (w' & s2' & Hrun' & _ & _ & _ & _ & _ & _ & Hreset).
  rewrite Hrun in Hrun'. injection Hrun' as <- <-.
  cbn [list_empty negb list_first_entry head]. rewrite Hrun.
  assert (Hwin : w ∈ w0 :: rest) by (destruct Hw as [->|]; [left|done]).
  destruct (Hwaiters w Hwin) as (x & Hx & Hblocked).
  destruct (Hrel w x Hx) as (v & Hv & Hx').
  apply list_elem_of_split in Hwin as (q1 & q2 & Heq).
  subst s1; simpl in *.
  rewrite Hx'. cbn [status set_prio]. rewrite Hblocked. mrun.
  eexists _, (mkResource None (q1 ++ q2)).
  split; [reflexivity|]. split; [reflexivity|]. simpl.
  rewrite list_insert_insert_eq, list_lookup_insert_eq by done.
  replace (list_del_init w (w0 :: rest)) with (q1 ++ q2)
    by (rewrite Heq; symmetry; apply list_del_init_middle;
        by rewrite <- Heq).
  split_and!; try done.
  - intros i Hi. by rewrite list_lookup_insert_ne.
  - intros _.
    exists w, q1, q2, x, (set_status PROCESS_READY (set_prio v x)).
    rewrite lookup_insert_eq.
    split_and!; try done.
    + destruct Hreset as [[-> Hsame]|(y & Hy & Hprio)].
      * left. split; [done|]. rewrite Hsame, Hx in Hx'.
        injection Hx' as Hx'. apply (f_equal prio) in Hx'.
        simpl in *. congruence.
      * right. rewrite Hx' in Hy. by injection Hy as <-.
    + intros p y Hy. destruct (decide (p = w)) as [->|Hpw].
      * rewrite lookup_insert_eq. eexists. split; [done|].
        assert (y = x) by congruence. subst y. simpl.
        split_and!; try done; destruct Hv; subst; auto.
      * rewrite lookup_insert_ne by done.
        destruct (Hrel p y Hy) as (v' & Hv' & Hy').
        eexists. split; [exact Hy'|]. simpl.
        split_and!; try done; destruct Hv'; subst; auto.
    + intros p Hp. rewrite lookup_insert_ne; [by apply Hout|].
      intros ->. apply Hp. rewrite Heq. apply elem_of_app. right. left.
Qed.

(** X16.  The four release functions start with
    [assert(r->owner == current)]: called by anyone but the owner, each
    of them aborts and changes nothing. *)
Theorem release_by_non_owner_aborts (s : state) (resource_id : nat)
    (r : resource) :
  resources s !! resource_id = Some r →
  owner r ≠ current s →
  fcfs_release resource_id s = Fault AssertFailed
  ∧ prio_release resource_id s = Fault AssertFailed
  ∧ pcp_release resource_id s = Fault AssertFailed
  ∧ pip_release resource_id s = Fault AssertFailed.
Proof.
  intros Hresource Hother.
  unfold fcfs_release, prio_release, pcp_release, pip_release. munfold.
  rewrite Hresource. by rewrite bool_decide_eq_false_2.
Qed.

(** ** Acquire *)

(** X14.  Acquire of a resource that has an owner, by a live caller:
    [fcfs_acquire], [prio_acquire] and [pcp_acquire] do the same thing.
    The call returns false, the caller is BLOCKED and at the tail of the
    wait list, the owner stays the owner, and no priority, no other
    process and no other queue changes (in particular [pcp_acquire]
    raises no priority when it blocks). *)
Theorem acquire_owned_blocks (MAX_PRIO : Z) (s : state) (resource_id : nat)
    (c o : ptr) (r : resource) (x : process) :
  current s = Some c →
  resources s !! resource_id = Some r →
  owner r = Some o →
  procs s !! c = Some x →
  let s' :=
    mkState (<[c := set_status PROCESS_BLOCKED x]> (procs s)) (current s)
            (readyqueue s)
            (<[resource_id := mkResource (Some o) (waitqueue r ++ [c])]>
               (resources s)) in
  fcfs_acquire resource_id s = Ok (false, s')
  ∧ prio_acquire resource_id s = Ok (false, s')
  ∧ pcp_acquire MAX_PRIO resource_id s = Ok (false, s').
Proof.
  intros Hcurrent Hresource Howner Hx.
  unfold fcfs_acquire, prio_acquire, pcp_acquire. munfold.
  repeat (first [rewrite Hresource | rewrite Hcurrent | rewrite Howner
                 | rewrite Hx]; simpl).
  done.
Qed.

(** X15.  Under the default, the priority and the inheritance protocol,
    acquire followed by release is a round trip: on a resource that has
    no owner and no waiter the two calls succeed and give back the state
    they started from.  (Under the ceiling protocol they do not: the
    caller keeps [MAX_PRIO].) *)
Theorem acquire_release_round_trip (s : state) (resource_id : nat) :
  resources s !! resource_id = Some (mkResource None []) →
  (fcfs_acquire resource_id ;;; fcfs_release resource_id) s = Ok (tt, s)
  ∧ (prio_acquire resource_id ;;; prio_release resource_id) s = Ok (tt, s)
  ∧ (pip_acquire resource_id ;;; pip_release resource_id) s = Ok (tt, s).
Proof.
  intros Hresource.
  assert (Hlt : (resource_id < length (resources s))%nat)
    by (eapply lookup_lt_Some; eauto).
  unfold fcfs_acquire, fcfs_release, prio_acquire, prio_release,
    pip_acquire, pip_release.
  munfold.
  repeat (first [ rewrite Hresource
                | rewrite list_lookup_insert_eq by done
                | rewrite bool_decide_eq_true_2 by done
                | rewrite list_insert_insert_eq
                | rewrite (list_insert_id _ _ _ Hresource) ]; simpl).
  by rewrite state_eta.
Qed.

(** ** Which process the aging scheduler selects *)

Lemma pa_scan_step (MAX_PRIO : Z) (s : state) (tmp : ptr) (t : process)
    (q : list ptr) (max : Z) (next : option ptr) :
  procs s !! tmp = Some t →
  list_for_each_entry (tmp :: q) (pa_scan MAX_PRIO) (max, next) s
  = list_for_each_entry q (pa_scan MAX_PRIO)
      (if (uint (prio t + 1) >? max) && (uint (prio t + 1) <? MAX_PRIO)
       then (uint (prio t + 1), Some tmp) else (max, next))
      (mkState (<[tmp := set_prio (uint (prio t + 1)) t]> (procs s))
               (current s) (readyqueue s) (resources s)).
Proof.
  intros Ht. simpl. unfold pa_scan at 1. munfold.
  rewrite Ht. simpl. rewrite lookup_insert_eq. simpl.
  by destruct ((uint (prio t + 1) >? max) && (uint (prio t + 1) <? MAX_PRIO)).
Qed.

(** A candidate that the scan of [pa_pick_next] takes from the queue is
    the first entry to reach its incremented priority, among the entries
    that stay below [MAX_PRIO]. *)
Lemma pa_scan_first (MAX_PRIO : Z) (q : list ptr) :
  ∀ (s s' : state) (max max' : Z) (next : option ptr) (n : ptr),
    NoDup q →
    (∀ p, p ∈ q → is_Some (procs s !! p)) →
    list_for_each_entry q (pa_scan MAX_PRIO) (max, next) s
    = Ok ((max', Some n), s') →
    max < max' →
    ∃ q1 q2,
      q = q1 ++ n :: q2
      ∧ ∀ p y, p ∈ q1 → procs s !! p = Some y →
               uint (prio y + 1) < MAX_PRIO → uint (prio y + 1) < max'.
Proof.
  induction q as [|tmp q IH]; intros s s' max max' next n Hnd Hlive Hrun Hlt.
  { simpl in Hrun. unfold ret in Hrun. simplify_eq. lia. }
  apply NoDup_cons in Hnd as [Htmp Hnd].
  destruct (Hlive tmp) as [t Ht]; [left|].
  rewrite (pa_scan_step MAX_PRIO s tmp t q max next Ht) in Hrun.
  set (v := uint (prio t + 1)) in *.
  set (s1 := mkState _ _ _ _) in Hrun.
  assert (Hlive1 : ∀ p, p ∈ q → is_Some (procs s1 !! p)).
  { intros p Hp. subst s1; simpl. rewrite lookup_insert_ne.
    - apply Hlive. by right.
    - intros Heq. apply Htmp. by rewrite Heq. }
  assert (Hsame : ∀ p, p ∈ q → procs s1 !! p = procs s !! p).
  { intros p Hp. subst s1; simpl. apply lookup_insert_ne.
    intros Heq. apply Htmp. by rewrite Heq. }
  assert (Hrest : ∀ max0, max0 < max' → (v < MAX_PRIO → v < max') →
    ∀ next0,
      list_for_each_entry q (pa_scan MAX_PRIO) (max0, next0) s1
      = Ok ((max', Some n), s') →
      ∃ q1 q2, tmp :: q = q1 ++ n :: q2
        ∧ ∀ p y, p ∈ q1 → procs s !! p = Some y →
                 uint (prio y + 1) < MAX_PRIO → uint (prio y + 1) < max').
  { intros max0 Hlt0 Hv next0 Hrun0.
    destruct (IH _ _ _ _ _ _ Hnd Hlive1 Hrun0 Hlt0) as (q1 & q2 & -> & Hbefore).
    exists (tmp :: q1), q2. split; [done|].
    intros p y Hp Hy Hb. apply elem_of_cons in Hp as [->|Hp].
    - assert (y = t) by congruence. subst y. by apply Hv.
    - apply (Hbefore p y); [done| |done].
      rewrite Hsame; [done|]. apply elem_of_app. by left. }
  destruct ((v >? max) && (v <? MAX_PRIO)) eqn:Hcand.
  - apply andb_true_iff in Hcand as [Hgt Hb].
    apply Z.gtb_lt in Hgt. apply Z.ltb_lt in Hb.
    destruct (pa_scan_spec MAX_PRIO q s1 v (Some tmp) Hnd Hlive1)
      as (m & nx & s2 & Hrun2 & _ & _ & _ & _ & _ & Hmono & _ & Hsel).
    rewrite Hrun2 in Hrun. simplify_eq.
    destruct Hsel as [[Hnx ->]|(n' & x' & Hnx & _ & _ & _ & Hv & _)].
    + simplify_eq. exists [], q. split; [done|].
      intros p y Hp. by apply not_elem_of_nil in Hp.
    + eapply (Hrest v); [lia|lia|exact Hrun2].
  - assert (Hno : v < MAX_PRIO → v ≤ max).
    { intros Hb. apply andb_false_iff in Hcand as [Hgt|Hge].
      - rewrite Z.gtb_ltb in Hgt. apply Z.ltb_ge in Hgt. lia.
      - apply Z.ltb_ge in Hge. lia. }
    eapply (Hrest max Hlt); [|exact Hrun]. intros Hb. specialize (Hno Hb). lia.
Qed.

(** X11.  Which process [pa_schedule] selects: after the increments, the
    first process of the ready queue (with the runnable current process
    at its tail) whose priority is highest among the priorities that
    are above 0 and below [MAX_PRIO].  Ties go to the first process, not
    to the last as in [prio_schedule], and a process at or above
    [MAX_PRIO] is passed over.  It is unlinked from the queue. *)
Theorem pa_schedule_selects_first_highest (MAX_PRIO : Z) (s : state) :
  (∀ c, current s = Some c → is_Some (procs s !! c)) →
  NoDup (scanned_queue s) →
  (∀ p, p ∈ scanned_queue s → is_Some (procs s !! p)) →
  (∃ p x, p ∈ scanned_queue s ∧ procs s !! p = Some x
          ∧ 0 < uint (prio x + 1) < MAX_PRIO) →
  ∃ n q1 q2 xn s',
    pa_schedule MAX_PRIO s = Ok (Some n, s')
    ∧ scanned_queue s = q1 ++ n :: q2
    ∧ readyqueue s' = q1 ++ q2
    ∧ procs s !! n = Some xn
    ∧ 0 < uint (prio xn + 1) < MAX_PRIO
    ∧ (∀ p y, p ∈ scanned_queue s → procs s !! p = Some y →
              uint (prio y + 1) < MAX_PRIO →
              uint (prio y + 1) ≤ uint (prio xn + 1))
    ∧ (∀ p y, p ∈ q1 → procs s !! p = Some y →
              uint (prio y + 1) < MAX_PRIO →
              uint (prio y + 1) < uint (prio xn + 1)).
Proof.
  intros Hcur Hnd Hlive (p0 & x0 & Hp0 & Hx0 & Hcand).
  unfold pa_schedule.
  rewrite (requeue_then_pick (pa_pick_next MAX_PRIO) s Hcur).
  destruct (pa_scan_spec MAX_PRIO (scanned_queue s) (requeued s) 0 None
              Hnd Hlive)
    as (max' & next' & s' & Hrun & Hc & Hq & Hr & Hout & Hin
        & Hmono & Hbound & Hsel).
  assert (Hne : readyqueue (requeued s) ≠ []).
  { simpl. intros Hnil. rewrite Hnil in Hp0. by apply not_elem_of_nil in Hp0. }
  rewrite (pa_pick_next_scanned MAX_PRIO (requeued s) _ _ _ Hne Hrun).
  destruct Hsel as [[-> ->]|(n & xn & -> & Hn & Hxn & -> & Hpos & Hb)].
  { specialize (Hbound p0 x0 Hp0 Hx0). lia. }
  destruct (pa_scan_first MAX_PRIO (scanned_queue s) (requeued s) s' 0
              (uint (prio xn + 1)) None n Hnd Hlive Hrun)
    as (q1 & q2 & Heq & Hbefore); [lia|].
  pose proof (Hin n xn Hn Hxn) as Hn'.
  munfold. rewrite Hn'. cbn [procs current readyqueue resources].
  rewrite Hq. cbn [readyqueue requeued].
  exists n, q1, q2, xn. eexists. split; [reflexivity|].
  cbn [procs current readyqueue resources].
  split_and!; try done; try lia.
  rewrite Heq. apply list_del_init_middle. by rewrite <- Heq.
Qed.

(** ** Runs of ticks *)

Lemma rr_tick_step (s : state) (n : ptr) (rest : list ptr) :
  schedulable s →
  (∀ p, p ∈ readyqueue s → is_Some (procs s !! p)) →
  scanned_queue s = n :: rest →
  ∃ s1,
    tick rr_schedule s = Ok (Some n, s1)
    ∧ readyqueue s1 = rest
    ∧ schedulable s1
    ∧ (∀ p, p ∈ readyqueue s1 → is_Some (procs s1 !! p)).
Proof.
  intros Hs Hlive Hq.
  destruct (scanned_queue_structure s Hs) as (Hnd & Hfrom & _).
  rewrite Hq in Hnd, Hfrom. apply NoDup_cons in Hnd as [Hn Hnd].
  assert (Hall : ∀ p, p ∈ n :: rest → is_Some (procs s !! p)).
  { intros p Hp. destruct (Hfrom p Hp) as [?|Hc]; [by apply Hlive|].
    by apply Hs. }
  destruct (Hall n) as [xn Hxn]; [left|].
  eexists. split.
  { apply (tick_rr_schedule s n rest xn); try done.
    intros c Hc. by apply Hs. }
  simpl. split; [done|]. split.
  - split; [done|]. simpl. intros c [= <-].
    by rewrite lookup_insert_eq.
  - intros p Hp. rewrite lookup_insert. case_decide; [done|].
    apply Hall. by right.
Qed.

Lemma rr_serves_prefix (q : list ptr) :
  ∀ (s : state) (r : list ptr),
    schedulable s →
    (∀ p, p ∈ readyqueue s → is_Some (procs s !! p)) →
    readyqueue s = q ++ r →
    ∃ s', run rr_schedule (length q) s = Ok (Some <$> q, s').
Proof.
  induction q as [|n q IH]; intros s r Hs Hlive Hq.
  { exists s. done. }
  assert (Hscan : ∃ r', scanned_queue s = n :: q ++ r').
  { destruct (scanned_queue_cases s) as [->|(c & _ & ->)]; rewrite Hq.
    - by exists r.
    - exists (r ++ [c]). by rewrite <- !app_assoc. }
  destruct Hscan as (r' & Hscan).
  destruct (rr_tick_step s n (q ++ r') Hs Hlive Hscan)
    as (s1 & Htick & Hq1 & Hs1 & Hlive1).
  destruct (IH s1 r' Hs1 Hlive1 Hq1) as (s' & Hrun).
  exists s'. cbn [length]. rewrite run_S, Htick, Hrun. done.
Qed.

(** X4.  Bounded waiting under round-robin, with the tick of the
    driver as the spec describes it (call [schedule], make the result
    current, advance its age): from a state whose ready queue is a
    proper chain of live processes, the next [length readyqueue] ticks
    run exactly the ready processes, each once, in queue order, whatever
    the current process is and whether or not it is requeued. *)
Theorem rr_serves_ready_queue_in_order (s : state) :
  schedulable s →
  (∀ p, p ∈ readyqueue s → is_Some (procs s !! p)) →
  ∃ s',
    run rr_schedule (length (readyqueue s)) s
    = Ok (Some <$> readyqueue s, s').
Proof.
  intros Hs Hlive.
  apply (rr_serves_prefix (readyqueue s) s []); try done.
  by rewrite app_nil_r.
Qed.

(** X5.  FCFS does not preempt, with the tick of the driver as the spec
    describes it: a current process that is not BLOCKED runs in every
    one of the next [n] ticks as long as [age + n <= lifespan]; only its
    age changes, by [n], and the ready queue is not touched, whatever
    waits there. *)
Theorem fcfs_keeps_current_running (n : nat) :
  ∀ (s : state) (c : ptr) (x : process),
    current s = Some c →
    procs s !! c = Some x →
    status x ≠ PROCESS_BLOCKED →
    0 ≤ age x →
    age x + Z.of_nat n ≤ lifespan x →
    lifespan x ≤ UINT_MAX →
    run fcfs_schedule n s
    = Ok (replicate n (Some c),
          mkState (<[c := set_age (age x + Z.of_nat n) x]> (procs s))
                  (current s) (readyqueue s) (resources s)).
Proof.
  induction n as [|n IH]; intros s c x Hc Hx Hst Hage Hlife Hmax.
  - simpl. unfold ret. rewrite Z.add_0_r.
    replace (set_age (age x) x) with x by (by destruct x).
    rewrite insert_id by done. by rewrite state_eta.
  - rewrite run_S.
    rewrite (tick_fcfs_schedule_keep s c x Hc Hx Hst) by lia.
    unfold UINT_MAX in Hmax. rewrite uint_small by lia.
    rewrite (IH _ c (set_age (age x + 1) x)); simpl;
      [|done|by rewrite lookup_insert_eq|done|lia|lia|done].
    rewrite insert_insert_eq, Hc.
    do 4 f_equal. unfold set_age. simpl. f_equal. lia.
Qed.

(** ** Priority inversion *)

(** [prio_schedule] on a non-empty ready queue (after the requeue step)
    of live processes: the last process of highest priority. *)
Lemma prio_schedule_run_last (s : state) :
  (∀ c, current s = Some c → is_Some (procs s !! c)) →
  scanned_queue s ≠ [] →
  NoDup (scanned_queue s) →
  (∀ p, p ∈ scanned_queue s → ∃ x, procs s !! p = Some x ∧ 0 ≤ prio x) →
  ∃ n q1 q2 x,
    scanned_queue s = q1 ++ n :: q2
    ∧ procs s !! n = Some x
    ∧ (∀ p y, p ∈ scanned_queue s → procs s !! p = Some y → prio y ≤ prio x)
    ∧ (∀ p y, p ∈ q2 → procs s !! p = Some y → prio y < prio x)
    ∧ prio_schedule s
      = Ok (Some n, mkState (procs s) (current s) (q1 ++ q2) (resources s)).
Proof.
  intros Hcur Hne Hnd Hlive.
  unfold prio_schedule. rewrite (requeue_then_pick prio_pick_next s Hcur).
  destruct (prio_scan_spec (requeued s) (scanned_queue s) Hlive)
    as (max & next & Hrun & Hmax & Hle & Hnext).
  unfold prio_pick_next. munfold.
  change (readyqueue (requeued s)) with (scanned_queue s).
  destruct next as [n|]; [|done].
  destruct Hnext as (q1 & q2 & x & Heq & Hx & Hpx & Hlt).
  exists n, q1, q2, x. rewrite Hpx. split_and!; [done..|].
  rewrite Heq in *. rewrite list_empty_middle. cbn [negb].
  rewrite Hrun. cbn [readyqueue requeued procs current resources].
  rewrite Heq. by rewrite list_del_init_middle.
Qed.

Section Inversion.

Variables (s : state) (resource_id : nat) (h l : ptr) (r : resource).
Variables (xh xl : process).
Hypothesis Hcurrent : current s = Some h.
Hypothesis Hresource : resources s !! resource_id = Some r.
Hypothesis Howner : owner r = Some l.
Hypothesis Hh : procs s !! h = Some xh.
Hypothesis Hl : procs s !! l = Some xl.
Hypothesis Hready : l ∈ readyqueue s.
Hypothesis Hstructure : schedulable s.
Hypothesis Hlive :
  ∀ p, p ∈ readyqueue s → ∃ x, procs s !! p = Some x ∧ 0 ≤ prio x.

Lemma holder_is_not_caller : h ≠ l.
Proof.
  intros ->. destruct Hstructure as [_ Hcur].
  by destruct (Hcur l Hcurrent) as [_ Hnotin].
Qed.

(** X20.  Inheritance decides who runs next.  The running process [h]
    asks under PIP for a resource that the ready process [l] of lower
    priority holds, and no other ready process reaches the priority of
    [h]: after [pip_acquire], [prio_schedule] returns the holder [l],
    which now has the priority of [h], whatever priorities between the
    two the other ready processes have. *)
Theorem pip_acquire_lets_holder_run :
  prio xl < prio xh →
  (∀ p x, p ∈ readyqueue s → p ≠ l → procs s !! p = Some x →
          prio x < prio xh) →
  ∃ s' xl',
    (pip_acquire resource_id ;;; prio_schedule) s = Ok (Some l, s')
    ∧ procs s' !! l = Some xl'
    ∧ prio xl' = prio xh
    ∧ (l ∉ readyqueue s')
    ∧ (∀ p, p ∈ readyqueue s → p ≠ l → p ∈ readyqueue s').
Proof.
  intros Hlow Hothers.
  pose proof holder_is_not_caller as Hhl.
  destruct Hstructure as [Hnd Hcur].
  destruct (Hcur h Hcurrent) as [_ Hnotin].
  assert (Hlt : (resource_id < length (resources s))%nat)
    by (eapply lookup_lt_Some; eauto).
  set (s1 := mkState (<[l := set_prio (prio xh) xl]>
                        (<[h := set_status PROCESS_BLOCKED xh]> (procs s)))
                     (current s) (readyqueue s)
                     (<[resource_id := mkResource (Some l)
                                         (waitqueue r ++ [h])]>
                        (resources s))).
  assert (Hacq : pip_acquire resource_id s = Ok (false, s1)).
  { unfold pip_acquire. munfold.
    rewrite Hresource, Hcurrent, Howner. simpl. rewrite Hh. simpl.
    rewrite lookup_insert_eq. simpl.
    rewrite lookup_insert_ne by done. rewrite Hl. simpl.
    apply Z.gtb_lt in Hlow. rewrite Hlow. simpl.
    rewrite lookup_insert_ne by done. rewrite Hl. simpl.
    repeat (first [rewrite Hresource | rewrite Howner]; simpl).
    done. }
  rewrite (bind_Ok _ _ _ _ _ Hacq).
  assert (Hq : scanned_queue s1 = readyqueue s).
  { unfold scanned_queue. subst s1. simpl. rewrite Hcurrent.
    by rewrite lookup_insert_ne, lookup_insert_eq by done. }
  assert (Hlook : ∀ p, p ∈ readyqueue s → p ≠ l →
                       procs s1 !! p = procs s !! p).
  { intros p Hp Hpl. subst s1. simpl.
    rewrite !lookup_insert_ne; [done| |done].
    intros ->. done. }
  destruct (Hlive l Hready) as (xl0 & Hxl0 & Hpos).
  assert (xl0 = xl) by congruence. subst xl0.
  destruct (prio_schedule_run_last s1)
    as (n & q1 & q2 & x & Heq & Hx & Hmax & _ & Hrun).
  { subst s1. simpl. intros c Hc. rewrite Hcurrent in Hc. simplify_eq.
    rewrite lookup_insert_ne, lookup_insert_eq by done. eauto. }
  { rewrite Hq. intros Hnil. rewrite Hnil in Hready.
    by apply not_elem_of_nil in Hready. }
  { by rewrite Hq. }
  { rewrite Hq. intros p Hp. destruct (decide (p = l)) as [->|Hpl].
    - subst s1. simpl. rewrite lookup_insert_eq.
      eexists. split; [done|]. simpl. lia.
    - rewrite Hlook by done. by apply Hlive. }
  rewrite Hq in Heq, Hmax.
  assert (Hl1 : procs s1 !! l = Some (set_prio (prio xh) xl)).
  { subst s1. simpl. by rewrite lookup_insert_eq. }
  assert (n = l) as ->.
  { destruct (decide (n = l)) as [|Hnl]; [done|].
    assert (Hn : n ∈ readyqueue s).
    { rewrite Heq. apply elem_of_app. right. left. }
    rewrite Hlook in Hx by done.
    specialize (Hothers n x Hn Hnl Hx).
    specialize (Hmax l _ Hready Hl1). simpl in Hmax. lia. }
  rewrite Hrun. eexists _, _. split; [done|]. simpl.
  split_and!; [exact Hl1|done| |].
  - rewrite Heq in Hnd. apply NoDup_app in Hnd as (_ & Hq1 & Hnd').
    apply NoDup_cons in Hnd' as [Hq2 _].
    intros [Hin|Hin]%elem_of_app; [apply (Hq1 l Hin); left|done].
  - intros p Hp Hpl. rewrite Heq in Hp.
    apply elem_of_app in Hp as [Hp|Hp]; apply elem_of_app; [by left|].
    apply elem_of_cons in Hp as [->|Hp]; [done|by right].
Qed.

(** X21.  Without inheritance the holder is passed over.  The same
    request under the priority protocol ([prio_acquire], which is also
    [fcfs_acquire]) changes no priority: when some ready process has a
    higher priority than the holder [l], [prio_schedule] returns a
    process other than [l], so the blocked caller waits for a process
    that is not running. *)
Theorem prio_acquire_passes_over_holder (m : ptr) (xm : process) :
  m ∈ readyqueue s →
  procs s !! m = Some xm →
  prio xl < prio xm →
  ∃ n s',
    (prio_acquire resource_id ;;; prio_schedule) s = Ok (Some n, s')
    ∧ n ≠ l
    ∧ l ∈ readyqueue s'
    ∧ procs s' !! l = Some xl.
Proof.
  intros Hm Hxm Hlow.
  pose proof holder_is_not_caller as Hhl.
  destruct Hstructure as [Hnd Hcur].
  destruct (Hcur h Hcurrent) as [_ Hnotin].
  assert (Hlt : (resource_id < length (resources s))%nat)
    by (eapply lookup_lt_Some; eauto).
  set (s1 := mkState (<[h := set_status PROCESS_BLOCKED xh]> (procs s))
                     (current s) (readyqueue s)
                     (<[resource_id := mkResource (Some l)
                                         (waitqueue r ++ [h])]>
                        (resources s))).
  assert (Hacq : prio_acquire resource_id s = Ok (false, s1)).
  { unfold prio_acquire. munfold.
    repeat (first [rewrite Hresource | rewrite Hcurrent | rewrite Howner
                   | rewrite Hh]; simpl).
    unfold s1. by rewrite Hcurrent. }
  rewrite (bind_Ok _ _ _ _ _ Hacq).
  assert (Hq : scanned_queue s1 = readyqueue s).
  { unfold scanned_queue. subst s1. simpl. rewrite Hcurrent.
    by rewrite lookup_insert_eq. }
  assert (Hlook : ∀ p, p ∈ readyqueue s → procs s1 !! p = procs s !! p).
  { intros p Hp. subst s1. simpl.
    rewrite lookup_insert_ne; [done|]. intros ->. done. }
  destruct (prio_schedule_run_last s1)
    as (n & q1 & q2 & x & Heq & Hx & Hmax & _ & Hrun).
  { subst s1. simpl. intros c Hc. rewrite Hcurrent in Hc. simplify_eq.
    rewrite lookup_insert_eq. eauto. }
  { rewrite Hq. intros Hnil. rewrite Hnil in Hready.
    by apply not_elem_of_nil in Hready. }
  { by rewrite Hq. }
  { rewrite Hq. intros p Hp. rewrite Hlook by done. by apply Hlive. }
  rewrite Hq in Heq, Hmax.
  assert (Hnl : n ≠ l).
  { intros ->. rewrite Hlook in Hx by done.
    assert (x = xl) by congruence. subst x.
    rewrite <- (Hlook m Hm) in Hxm.
    specialize (Hmax m xm Hm Hxm). lia. }
  rewrite Hrun. exists n. eexists. split; [done|]. simpl.
  split_and!; [done| |].
  - rewrite Heq in Hready.
    apply elem_of_app in Hready as [?|Hin]; apply elem_of_app; [by left|].
    apply elem_of_cons in Hin as [->|?]; [done|by right].
  - by rewrite lookup_insert_ne.
Qed.

End Inversion.

(** ** Instances for the rest of pa2.c *)

(** A concrete state is schedulable. *)
Ltac schedulable_tac :=
  split;
  [ by_decide
  | let c := fresh "c" in let Hc := fresh "Hc" in
    intros c Hc;
    first [ discriminate Hc
          | injection Hc as <-;
            split; [eexists; reflexivity | by_decide] ] ].

(** Liveness of the members of a literal queue. *)
Ltac live_tac :=
  let p := fresh "p" in let Hp := fresh "Hp" in
  intros p Hp; cbn in Hp; each_member Hp; eexists; reflexivity.

Lemma schedulers_keep_structure_witness :
  ∃ s', stcf_schedule stcf_two_ready = Ok (Some 3, s')
        ∧ NoDup (readyqueue s')
        ∧ (3 ∉ readyqueue s')
        ∧ (∀ p, p ∈ readyqueue s' →
                p ∈ [2; 3] ∨ Some 1 = Some p).
Proof.
  eexists. split; [vm_compute; reflexivity|].
  destruct (proj1 (proj2 (proj2 (schedulers_keep_structure 64)))
              stcf_two_ready (Some 3) _ ltac:(schedulable_tac) eq_refl)
    as (_ & _ & Hnd & Hnot & _ & Hfrom & _).
  split_and!; [exact Hnd|by apply Hnot|exact Hfrom].
Defined.

Lemma rr_schedule_rotates_witness :
  rr_schedule stcf_two_ready
  = Ok (Some 2, mkState (procs stcf_two_ready) (Some 1) [3; 1] []).
Proof.
  exact (rr_schedule_rotates stcf_two_ready ltac:(schedulable_tac)).
Defined.

Lemma sjf_schedule_shortest_first_witness :
  sjf_schedule stcf_two_ready = Ok (Some 1, stcf_two_ready)
  ∧ ∃ n q1 q2,
      first_least lifespan three_jobs [1; 2; 3] n q1 q2
      ∧ sjf_schedule three_jobs
        = Ok (Some n, mkState (procs three_jobs) None (q1 ++ q2) []).
Proof.
  split.
  - apply (proj1 (sjf_schedule_shortest_first stcf_two_ready
                    ltac:(intros c [= <-]; eexists; reflexivity)
                    ltac:(by_decide) ltac:(live_tac))).
    reflexivity.
  - apply (proj2 (sjf_schedule_shortest_first three_jobs
                    ltac:(intros c Hc; discriminate Hc)
                    ltac:(by_decide) ltac:(live_tac))).
    + reflexivity.
    + exists 2, (new_process 2 2 0).
      split; [right; left|]. split; [reflexivity|]. by vm_compute.
Defined.

Lemma stcf_schedule_picks_least_remaining_witness :
  ∃ n q1 q2,
    first_least remaining three_jobs [1; 2; 3] n q1 q2
    ∧ stcf_schedule three_jobs
      = Ok (Some n, mkState (procs three_jobs) None (q1 ++ q2) []).
Proof.
  apply (stcf_schedule_picks_least_remaining three_jobs).
  - by left.
  - by_decide.
  - live_tac.
  - exists 2, (new_process 2 2 0).
    split; [right; left|]. split; [reflexivity|]. by vm_compute.
Defined.

Lemma min_pick_null_deref_witness :
  sjf_schedule endless_jobs = Fault NullDeref
  ∧ stcf_schedule endless_jobs = Fault NullDeref.
Proof.
  pose proof (min_pick_null_deref endless_jobs ltac:(discriminate)
                ltac:(by_decide) ltac:(live_tac)) as [Hsjf Hstcf].
  split.
  - apply Hsjf; [intros c Hc; discriminate Hc|reflexivity|].
    intros p y Hp Hy. cbn in Hp.
    each_member Hp; vm_compute in Hy; by injection Hy as <-.
  - apply Hstcf; [by left|].
    intros p y Hp Hy. cbn in Hp.
    each_member Hp; vm_compute in Hy; by injection Hy as <-.
Defined.

Lemma schedulers_retire_current_witness :
  ∃ o s', rr_schedule finished_current = Ok (o, s')
          ∧ o ≠ Some 1 ∧ 1 ∉ readyqueue s'.
Proof.
  eexists _, _. split; [vm_compute; reflexivity|].
  apply (proj1 (proj2 (proj2 (proj2 (schedulers_retire_current 64))))
           finished_current 1 (mkProcess 1 PROCESS_RUNNING 3 3 0 0));
    [schedulable_tac|reflexivity|reflexivity|right; simpl; lia|reflexivity].
Defined.

Lemma prio_release_wakes_highest_witness :
  ∃ s', prio_release 0 two_waiters = Ok (tt, s')
        ∧ current s' = Some 1
        ∧ resources s' !! 0%nat = Some (mkResource None [2])
        ∧ readyqueue s' = [4; 3]
        ∧ procs s' !! 3 = Some (mkProcess 3 PROCESS_READY 1 5 7 7)
        ∧ ∀ p, p ≠ 3 → procs s' !! p = procs two_waiters !! p.
Proof.
  destruct (prio_release_wakes_highest two_waiters 0 1
              (mkResource (Some 1) [2; 3]) eq_refl eq_refl eq_refl
              ltac:(by_decide)
              ltac:(intros w Hw; cbn in Hw; each_member Hw;
                    eexists; split; reflexivity))
    as (s' & r' & Hrun & _ & _ & _ & _ & _ & Hwake).
  destruct (Hwake ltac:(discriminate))
    as (w & q1 & q2 & xw & xw' & _ & _ & _ & _ & _ & Hrq & _ & _ & _ & _
        & _ & _ & _ & Hframe).
  exists s'. split; [exact Hrun|].
  assert (w = 3) as ->.
  { vm_compute in Hrun. injection Hrun as <-.
    by injection Hrq as <-. }
  split_and!; [..|exact Hframe];
    vm_compute in Hrun; injection Hrun as <-; by vm_compute.
Defined.

Lemma inversion_release_moves_one_waiter_witness :
  ∃ s', pcp_release 0 two_waiters = Ok (tt, s')
        ∧ pip_release 0 two_waiters = Ok (tt, s')
        ∧ current s' = Some 1
        ∧ readyqueue s' = [4; 3]
        ∧ resources s' = [mkResource None [2]]
        ∧ procs s' !! 3 = Some (mkProcess 3 PROCESS_READY 1 5 7 7)
        ∧ procs s' !! 2 = Some (mkProcess 2 PROCESS_BLOCKED 1 5 2 2)
        ∧ procs s' !! 1 = Some (mkProcess 1 PROCESS_RUNNING 2 9 1 1).
Proof.
  destruct (inversion_release_moves_one_waiter two_waiters 0 1
              (mkResource (Some 1) [2; 3]) eq_refl eq_refl eq_refl
              ltac:(discriminate) ltac:(by_decide)
              ltac:(intros w Hw; cbn in Hw; each_member Hw;
                    eexists; split; reflexivity))
    as (s' & w & q1 & q2 & r' & xw & Hpcp & Hpip & _).
  exists s'. split; [exact Hpcp|]. split; [exact Hpip|].
  vm_compute in Hpcp. injection Hpcp as <-.
  by vm_compute.
Defined.

Lemma pcp_release_eq_pip_release_witness :
  ∃ s', pcp_release 0 inherited_waiter = Ok (tt, s')
        ∧ pip_release 0 inherited_waiter = Ok (tt, s')
        ∧ current s' = Some 1
        ∧ readyqueue s' = [4; 3]
        ∧ resources s' = [mkResource None [2]; mkResource (Some 3) [5]]
        ∧ procs s' !! 3 = Some (mkProcess 3 PROCESS_READY 1 5 7 7)
        ∧ procs s' !! 2 = Some (mkProcess 2 PROCESS_BLOCKED 1 5 2 2)
        ∧ procs s' !! 1 = Some (mkProcess 1 PROCESS_RUNNING 2 9 9 1).
Proof.
  destruct (proj2 pcp_release_eq_pip_release inherited_waiter 0%nat 1
              (mkResource (Some 1) [2; 3]) eq_refl eq_refl eq_refl
              ltac:(by_decide)
              ltac:(intros w Hw; cbn in Hw; each_member Hw;
                    eexists; split; reflexivity))
    as (s' & r' & Hpcp & Hpip & _).
  exists s'. split; [exact Hpcp|]. split; [exact Hpip|].
  vm_compute in Hpcp. injection Hpcp as <-.
  by vm_compute.
Defined.

Lemma release_by_non_owner_aborts_witness :
  fcfs_release 0 high_blocks_on_low = Fault AssertFailed
  ∧ prio_release 0 high_blocks_on_low = Fault AssertFailed
  ∧ pcp_release 0 high_blocks_on_low = Fault AssertFailed
  ∧ pip_release 0 high_blocks_on_low = Fault AssertFailed.
Proof.
  apply (release_by_non_owner_aborts high_blocks_on_low 0
           (mkResource (Some 2) [])); [reflexivity|discriminate].
Defined.

Lemma acquire_owned_blocks_witness :
  let s' :=
    mkState (<[1 := mkProcess 1 PROCESS_BLOCKED 1 5 5 5]>
               (procs high_blocks_on_low))
            (Some 1) [2] [mkResource (Some 2) [1]] in
  fcfs_acquire 0 high_blocks_on_low = Ok (false, s')
  ∧ prio_acquire 0 high_blocks_on_low = Ok (false, s')
  ∧ pcp_acquire 64 0 high_blocks_on_low = Ok (false, s').
Proof.
  exact (acquire_owned_blocks 64 high_blocks_on_low 0 1 2
           (mkResource (Some 2) []) (mkProcess 1 PROCESS_RUNNING 1 5 5 5)
           eq_refl eq_refl eq_refl eq_refl).
Defined.

Lemma acquire_release_round_trip_witness :
  (fcfs_acquire 0 ;;; fcfs_release 0) free_resource = Ok (tt, free_resource)
  ∧ (prio_acquire 0 ;;; prio_release 0) free_resource
    = Ok (tt, free_resource)
  ∧ (pip_acquire 0 ;;; pip_release 0) free_resource = Ok (tt, free_resource).
Proof. exact (acquire_release_round_trip free_resource 0 eq_refl). Defined.

Lemma pa_schedule_selects_first_highest_witness :
  ∃ n q1 q2 xn s',
    pa_schedule 64 pa_near_ceiling = Ok (Some n, s')
    ∧ scanned_queue pa_near_ceiling = q1 ++ n :: q2
    ∧ readyqueue s' = q1 ++ q2
    ∧ procs pa_near_ceiling !! n = Some xn
    ∧ 0 < uint (prio xn + 1) < 64
    ∧ (∀ p y, p ∈ scanned_queue pa_near_ceiling →
              procs pa_near_ceiling !! p = Some y →
              uint (prio y + 1) < 64 →
              uint (prio y + 1) ≤ uint (prio xn + 1))
    ∧ (∀ p y, p ∈ q1 → procs pa_near_ceiling !! p = Some y →
              uint (prio y + 1) < 64 →
              uint (prio y + 1) < uint (prio xn + 1)).
Proof.
  apply (pa_schedule_selects_first_highest 64 pa_near_ceiling).
  - intros c Hc. discriminate Hc.
  - by_decide.
  - live_tac.
  - exists 2, (mkProcess 2 PROCESS_READY 0 4 5 5).
    split; [right; left|]. split; [reflexivity|]. vm_compute. done.
Defined.

Lemma rr_serves_ready_queue_in_order_witness :
  ∃ s', run rr_schedule 3 three_jobs = Ok ([Some 1; Some 2; Some 3], s').
Proof.
  apply (rr_serves_ready_queue_in_order three_jobs);
    [schedulable_tac|live_tac].
Defined.

Lemma fcfs_keeps_current_running_witness :
  run fcfs_schedule 5 stcf_late_arrival
  = Ok (replicate 5 (Some 1),
        mkState (<[1 := mkProcess 1 PROCESS_RUNNING 10 10 0 0]>
                   (procs stcf_late_arrival))
                (Some 1) [2] []).
Proof.
  apply (fcfs_keeps_current_running 5 stcf_late_arrival 1
           (mkProcess 1 PROCESS_RUNNING 5 10 0 0));
    first [reflexivity | discriminate | by vm_compute].
Defined.

Lemma pip_acquire_lets_holder_run_witness :
  ∃ s' xl',
    (pip_acquire 0 ;;; prio_schedule) inversion_scene = Ok (Some 2, s')
    ∧ procs s' !! 2 = Some xl'
    ∧ prio xl' = 5
    ∧ (2 ∉ readyqueue s')
    ∧ (∀ p, p ∈ [2; 3] → p ≠ 2 → p ∈ readyqueue s').
Proof.
  apply (pip_acquire_lets_holder_run inversion_scene 0 1 2
           (mkResource (Some 2) [])
           (mkProcess 1 PROCESS_RUNNING 1 5 5 5)
           (mkProcess 2 PROCESS_READY 1 5 1 1)); try reflexivity.
  - left.
  - schedulable_tac.
  - intros p Hp. cbn in Hp.
    each_member Hp; eexists; (split; [reflexivity|simpl; lia]).
  - intros p x Hp Hne Hx. cbn in Hp.
    each_member Hp; [done|]. vm_compute in Hx. injection Hx as <-.
    simpl. lia.
Defined.

Lemma prio_acquire_passes_over_holder_witness :
  ∃ n s',
    (prio_acquire 0 ;;; prio_schedule) inversion_scene = Ok (Some n, s')
    ∧ n ≠ 2
    ∧ 2 ∈ readyqueue s'
    ∧ procs s' !! 2 = Some (mkProcess 2 PROCESS_READY 1 5 1 1).
Proof.
  apply (prio_acquire_passes_over_holder inversion_scene 0 1 2
           (mkResource (Some 2) [])
           (mkProcess 1 PROCESS_RUNNING 1 5 5 5)
           (mkProcess 2 PROCESS_READY 1 5 1 1)
           eq_refl eq_refl eq_refl eq_refl eq_refl
           ltac:(left) ltac:(schedulable_tac)
           ltac:(intros p Hp; cbn in Hp;
                 each_member Hp; eexists; (split; [reflexivity|simpl; lia]))
           3 (new_process 3 4 3)).
  - right. left.
  - reflexivity.
  - simpl. lia.
Defined.

Lemma stcf_schedule_new_arrivals_witness :
  (∃ n q1 q2 y,
     [2] = q1 ++ n :: q2 ∧ procs stcf_new_arrival !! n = Some y
     ∧ remaining y < remaining (mkProcess 1 PROCESS_RUNNING 5 10 0 0)
     ∧ (∀ p z, p ∈ [2] → procs stcf_new_arrival !! p = Some z →
               remaining y ≤ remaining z)
     ∧ (∀ p z, p ∈ q1 → procs stcf_new_arrival !! p = Some z →
               remaining y < remaining z)
     ∧ stcf_schedule stcf_new_arrival
       = Ok (Some n,
             mkState (procs stcf_new_arrival) (Some 1) (q1 ++ q2 ++ [1]) []))
  ∨ ((∀ p z, p ∈ [2] → procs stcf_new_arrival !! p = Some z →
             remaining (mkProcess 1 PROCESS_RUNNING 5 10 0 0) ≤ remaining z)
     ∧ stcf_schedule stcf_new_arrival = Ok (Some 1, stcf_new_arrival)).
Proof.
  apply (stcf_schedule_new_arrivals stcf_new_arrival 1
           (mkProcess 1 PROCESS_RUNNING 5 10 0 0)).
  - reflexivity.
  - reflexivity.
  - discriminate.
  - simpl. lia.
  - discriminate.
  - by_decide.
  - intros p Hp. cbn in Hp. each_member Hp.
    eexists. split; [reflexivity|]. by vm_compute.
Defined.


(** ** When the priority scheduler preempts *)

Lemma snoc_split_last (q q1 q2 : list ptr) (c : ptr) :
  q ++ [c] = q1 ++ c :: q2 → c ∉ q → q2 = [] ∧ q1 = q.
Proof.
  intros Heq Hc. destruct q2 as [|z q2 _] using rev_ind.
  - apply app_inj_tail in Heq as [-> _]. done.
  - change (q1 ++ c :: q2 ++ [z]) with (q1 ++ (c :: q2) ++ [z]) in Heq.
    rewrite app_assoc in Heq. apply app_inj_tail in Heq as [-> _].
    exfalso. apply Hc, elem_of_app. right. left.
Qed.

(** X10.  [prio_schedule] preempts only for a strictly higher priority.
    A current process that is runnable and whose priority no ready
    process exceeds is returned again, with the ready queue as it was
    (ties go to the running process); as soon as some ready process has
    a strictly higher priority, a ready process of higher priority is
    returned and the current process waits on the ready queue. *)
Theorem prio_schedule_preempts_for_higher (s : state) (c : ptr)
    (x : process) :
  schedulable s →
  current s = Some c →
  procs s !! c = Some x →
  status x ≠ PROCESS_BLOCKED →
  age x < lifespan x →
  0 ≤ prio x →
  (∀ p, p ∈ readyqueue s → ∃ y, procs s !! p = Some y ∧ 0 ≤ prio y) →
  ((∀ p y, p ∈ readyqueue s → procs s !! p = Some y → prio y ≤ prio x) →
   prio_schedule s = Ok (Some c, s))
  ∧ ((∃ p y, p ∈ readyqueue s ∧ procs s !! p = Some y ∧ prio x < prio y) →
     ∃ n xn s',
       prio_schedule s = Ok (Some n, s')
       ∧ n ∈ readyqueue s
       ∧ procs s !! n = Some xn
       ∧ prio x < prio xn
       ∧ c ∈ readyqueue s').
Proof.
  intros Hs Hc Hx Hst Hage Hprio Hlive.
  destruct (scanned_queue_structure s Hs) as (Hnd & _ & _).
  assert (Hq : scanned_queue s = readyqueue s ++ [c]).
  { unfold scanned_queue. rewrite Hc, Hx. unfold is_blocked.
    rewrite bool_decide_eq_false_2 by done.
    apply Z.ltb_lt in Hage. by rewrite Hage. }
  assert (Hnotin : c ∉ readyqueue s) by apply Hs, Hc.
  destruct (prio_schedule_run_last s)
    as (n & q1 & q2 & xn & Heq & Hxn & Hmax & Hafter & Hrun); try done.
  { intros c' Hc'. by apply Hs. }
  { rewrite Hq. by destruct (readyqueue s). }
  { rewrite Hq. intros p [Hp| ->%list_elem_of_singleton]%elem_of_app.
    - by apply Hlive.
    - eauto. }
  rewrite Hrun. rewrite Hq in Heq, Hmax.
  assert (Hcase : n = c ∧ q2 = [] ∧ q1 = readyqueue s
                  ∨ n ∈ readyqueue s ∧ c ∈ q2).
  { destruct (decide (n = c)) as [->|Hnc].
    - left. destruct (snoc_split_last _ _ _ _ Heq Hnotin). done.
    - right.
      assert (Hn : n ∈ readyqueue s ++ [c]).
      { rewrite Heq. apply elem_of_app. right. left. }
      apply elem_of_app in Hn as [Hn|Hn%list_elem_of_singleton]; [|done].
      split; [done|].
      assert (Hcin : c ∈ q1 ++ n :: q2).
      { rewrite <- Heq. apply elem_of_app. right. left. }
      apply elem_of_app in Hcin as [Hcin|Hcin].
      + exfalso. destruct q2 as [|z q2 _] using rev_ind.
        * apply app_inj_tail in Heq as [_ ?]. done.
        * change (q1 ++ n :: q2 ++ [z]) with (q1 ++ (n :: q2) ++ [z]) in Heq.
          rewrite app_assoc in Heq. apply app_inj_tail in Heq as [Heq ->].
          apply Hnotin. rewrite Heq. apply elem_of_app. by left.
      + apply elem_of_cons in Hcin as [->|?]; done. }
  split.
  - intros Hall. destruct Hcase as [(-> & -> & ->)|[Hn Hcin]].
    + rewrite app_nil_r. by rewrite state_eta.
    + specialize (Hall n xn Hn Hxn). specialize (Hafter c x Hcin Hx). lia.
  - intros (p & y & Hp & Hy & Hlow).
    assert (Hle : prio y ≤ prio xn).
    { apply (Hmax p); [|done]. apply elem_of_app. by left. }
    destruct Hcase as [(-> & _ & _)|[Hn Hcin]].
    + assert (xn = x) by congruence. subst. lia.
    + exists n, xn. eexists. split; [done|]. simpl.
      split_and!; [done|done|lia|]. apply elem_of_app. by right.
Qed.

Lemma prio_schedule_preempts_for_higher_witness :
  prio_schedule inversion_scene
  = Ok (Some 1, inversion_scene).
Proof.
  apply (proj1 (prio_schedule_preempts_for_higher inversion_scene 1
                  (mkProcess 1 PROCESS_RUNNING 1 5 5 5)
                  ltac:(schedulable_tac) eq_refl eq_refl
                  ltac:(discriminate) ltac:(simpl; lia) ltac:(simpl; lia)
                  ltac:(intros p Hp; cbn in Hp; each_member Hp; eexists;
                        (split; [reflexivity|simpl; lia])))).
  intros p y Hp Hy. cbn in Hp.
  each_member Hp; vm_compute in Hy; injection Hy as <-; simpl; lia.
Defined.

(** ** Aging over several ticks *)

Lemma pa_tick_step (MAX_PRIO : Z) (s s1 : state) (o : option ptr) :
  schedulable s →
  (∀ p, p ∈ readyqueue s → is_Some (procs s !! p)) →
  tick (pa_schedule MAX_PRIO) s = Ok (o, s1) →
  schedulable s1
  ∧ (∀ p, p ∈ readyqueue s1 → is_Some (procs s1 !! p))
  ∧ ∀ p x, p ∈ readyqueue s → procs s !! p = Some x → o ≠ Some p →
           p ∈ readyqueue s1
           ∧ procs s1 !! p = Some (set_prio (uint (prio x + 1)) x).
Proof.
  intros Hs Hlive.
  destruct (scanned_queue_structure s Hs) as (Hnd & Hfrom & Hto).
  assert (Hall : ∀ p, p ∈ scanned_queue s → is_Some (procs s !! p)).
  { intros p Hp. destruct (Hfrom p Hp) as [?|Hc]; [by apply Hlive|].
    by apply Hs. }
  unfold tick. unfold bind at 1. unfold pa_schedule.
  rewrite requeue_then_pick by (intros c Hc; by apply Hs).
  destruct (decide (scanned_queue s = [])) as [Hnil|Hne].
  { unfold pa_pick_next. munfold. cbn [readyqueue requeued].
    rewrite Hnil. simpl. intros H. simplify_eq.
    unfold schedulable. simpl. rewrite Hnil.
    split_and!.
    - apply NoDup_nil_2.
    - intros c Hc. discriminate Hc.
    - intros p Hp. by apply not_elem_of_nil in Hp.
    - intros p x Hp. apply Hto in Hp. rewrite Hnil in Hp.
      by apply not_elem_of_nil in Hp. }
  destruct (pa_scan_spec MAX_PRIO (scanned_queue s) (requeued s) 0 None
              Hnd Hall)
    as (max' & next' & s' & Hrun & Hc & Hq & Hr & Hout & Hin
        & Hmono & Hbound & Hsel).
  rewrite (pa_pick_next_scanned MAX_PRIO (requeued s) _ _ _ Hne Hrun).
  destruct Hsel as [[-> ->]|(n & xn & -> & Hn & Hxn & -> & ? & ?)].
  { by munfold. }
  pose proof (Hin n xn Hn Hxn) as Hn'.
  munfold. rewrite Hn'. cbn [procs current readyqueue resources is_null].
  rewrite lookup_insert_eq. rewrite Hq. cbn [readyqueue requeued].
  intros Heq. simplify_eq. cbn [procs current readyqueue resources].
  split_and!.
  - split; [by apply NoDup_list_del_init|]. simpl.
    intros c [= <-]. split; [by rewrite lookup_insert_eq|].
    apply not_elem_of_list_del_init.
  - intros p [Hpn Hp]%elem_of_list_del_init.
    rewrite !lookup_insert_ne by done.
    destruct (Hall p Hp) as [y Hy]. rewrite (Hin p y Hp Hy). done.
  - intros p x Hp Hx Hne'.
    assert (Hpn : p ≠ n) by (intros ->; done).
    split.
    + apply elem_of_list_del_init. auto.
    + rewrite !lookup_insert_ne by done. apply Hin; [|done]. by apply Hto.
Qed.

Lemma uint_range (z : Z) : 0 ≤ uint z ≤ UINT_MAX.
Proof.
  unfold uint, UINT_MAX.
  pose proof (Z.mod_pos_bound z 4294967296). lia.
Qed.

(** X12.  Aging accumulates, with the tick of the driver as the spec
    describes it: a process that sits in the ready queue through [n]
    ticks of [pa_schedule] without being selected is still there, and
    its priority has grown by exactly [n] (modulo 2^32) — also past
    [MAX_PRIO], from where on it cannot be selected. *)
Theorem pa_aging_accumulates (MAX_PRIO : Z) (n : nat) :
  ∀ (s s' : state) (trace : list (option ptr)) (p : ptr) (x : process),
    schedulable s →
    (∀ q, q ∈ readyqueue s → is_Some (procs s !! q)) →
    p ∈ readyqueue s →
    procs s !! p = Some x →
    0 ≤ prio x ≤ UINT_MAX →
    run (pa_schedule MAX_PRIO) n s = Ok (trace, s') →
    Some p ∉ trace →
    p ∈ readyqueue s'
    ∧ procs s' !! p = Some (set_prio (uint (prio x + Z.of_nat n)) x).
Proof.
  induction n as [|n IH];
    intros s s' trace p x Hs Hlive Hp Hx Hrange Hrun Hnot.
  - simpl in Hrun. unfold ret in Hrun. simplify_eq. split; [done|].
    rewrite Z.add_0_r. unfold UINT_MAX in Hrange.
    rewrite uint_small by lia. by rewrite set_prio_same.
  - rewrite run_S in Hrun.
    destruct (tick (pa_schedule MAX_PRIO) s) as [[o s1]|f] eqn:Htick;
      [|done].
    destruct (run (pa_schedule MAX_PRIO) n s1) as [[ps s2]|f] eqn:Hrest;
      [|done].
    simplify_eq.
    apply not_elem_of_cons in Hnot as [Ho Hps].
    destruct (pa_tick_step MAX_PRIO s s1 o Hs Hlive Htick)
      as (Hs1 & Hlive1 & Hstep).
    destruct (Hstep p x Hp Hx) as [Hp1 Hx1]; [congruence|].
    destruct (IH s1 s' ps p _ Hs1 Hlive1 Hp1 Hx1) as [Hp' Hx'];
      [apply uint_range|done|done|].
    split; [done|]. rewrite Hx'. simpl. f_equal.
    unfold set_prio. simpl. f_equal.
    unfold uint. rewrite Zplus_mod_idemp_l. f_equal. lia.
Qed.

Lemma pa_aging_accumulates_witness :
  ∃ s', run (pa_schedule 64) 1 pa_near_ceiling = Ok ([Some 2], s')
        ∧ 1 ∈ readyqueue s'
        ∧ procs s' !! 1 = Some (mkProcess 1 PROCESS_READY 0 4 64 2).
Proof.
  eexists. split; [vm_compute; reflexivity|].
  apply (pa_aging_accumulates 64 1 pa_near_ceiling _ [Some 2] 1
           (mkProcess 1 PROCESS_READY 0 4 63 2)).
  - schedulable_tac.
  - live_tac.
  - left.
  - reflexivity.
  - by vm_compute.
  - reflexivity.
  - intros Hin. each_member Hin.
Defined.

(** ** Acquire of a free resource *)

(** X13.  Acquire of a resource that has no owner always succeeds, also
    while processes are still on its wait list: the caller becomes the
    owner and the wait list stays as it is (a woken waiter has no
    precedence over the caller).  [fcfs_acquire], [prio_acquire] and
    [pip_acquire] change nothing else; [pcp_acquire] also sets the
    caller's priority to [MAX_PRIO]. *)
Theorem acquire_free_grants (MAX_PRIO : Z) (s : state) (resource_id : nat)
    (c : ptr) (r : resource) (x : process) :
  current s = Some c →
  resources s !! resource_id = Some r →
  owner r = None →
  procs s !! c = Some x →
  let taken :=
    <[resource_id := mkResource (Some c) (waitqueue r)]> (resources s) in
  let s' := mkState (procs s) (current s) (readyqueue s) taken in
  fcfs_acquire resource_id s = Ok (true, s')
  ∧ prio_acquire resource_id s = Ok (true, s')
  ∧ pip_acquire resource_id s = Ok (true, s')
  ∧ pcp_acquire MAX_PRIO resource_id s
    = Ok (true,
          mkState (<[c := set_prio MAX_PRIO x]> (procs s)) (current s)
                  (readyqueue s) taken).
Proof.
  intros Hcurrent Hresource Howner Hx.
  assert (Hlt : (resource_id < length (resources s))%nat)
    by (eapply lookup_lt_Some; eauto).
  unfold fcfs_acquire, prio_acquire, pip_acquire, pcp_acquire. munfold.
  repeat (first [ rewrite Hresource | rewrite Hcurrent | rewrite Howner
                | rewrite list_lookup_insert_eq by done
                | rewrite Hx ]; simpl).
  done.
Qed.

Lemma acquire_free_grants_witness :
  let taken := [mkResource (Some 1) []] in
  let s' := mkState (procs free_resource) (Some 1) [] taken in
  fcfs_acquire 0 free_resource = Ok (true, s')
  ∧ prio_acquire 0 free_resource = Ok (true, s')
  ∧ pip_acquire 0 free_resource = Ok (true, s')
  ∧ pcp_acquire 64 0 free_resource
    = Ok (true,
          mkState (<[1 := mkProcess 1 PROCESS_RUNNING 1 5 64 1]>
                     (procs free_resource))
                  (Some 1) [] taken).
Proof.
  exact (acquire_free_grants 64 free_resource 0 1 (mkResource None [])
           (mkProcess 1 PROCESS_RUNNING 1 5 1 1)
           eq_refl eq_refl eq_refl eq_refl).
Defined.

(** * The system under the ceiling protocol *)

(** ** What a call that returns has passed *)

Lemma pcp_acquire_returns (MAX_PRIO : Z) (resource_id : nat) (s s' : state)
    (b : bool) :
  pcp_acquire MAX_PRIO resource_id s = Ok (b, s') →
  is_Some (resources s !! resource_id).
Proof.
  unfold pcp_acquire. munfold.
  destruct (resources s !! resource_id); [eauto|done].
Qed.

Lemma pcp_release_returns (resource_id : nat) (s s' : state) :
  pcp_release resource_id s = Ok (tt, s') →
  ∃ r, resources s !! resource_id = Some r ∧ owner r = current s.
Proof.
  unfold pcp_release. munfold.
  destruct (resources s !! resource_id) as [r|]; [|done].
  destruct (bool_decide (owner r = current s)) eqn:Howner; [|done].
  apply bool_decide_eq_true in Howner. eauto.
Qed.

(** [pcp_acquire] of a resource that has an owner. *)
Lemma pcp_acquire_owned (MAX_PRIO : Z) (s : state) (resource_id : nat)
    (c o : ptr) (r : resource) (x : process) :
  current s = Some c →
  resources s !! resource_id = Some r →
  owner r = Some o →
  procs s !! c = Some x →
  pcp_acquire MAX_PRIO resource_id s
  = Ok (false,
        mkState (<[c := set_status PROCESS_BLOCKED x]> (procs s)) (current s)
                (readyqueue s)
                (<[resource_id := mkResource (Some o) (waitqueue r ++ [c])]>
                   (resources s))).
Proof.
  intros Hcurrent Hresource Howner Hx.
  assert (Hlt : (resource_id < length (resources s))%nat)
    by (eapply lookup_lt_Some; eauto).
  unfold pcp_acquire. munfold.
  repeat (first [ rewrite Hresource | rewrite Hcurrent | rewrite Howner
                | rewrite list_lookup_insert_eq by done
                | rewrite Hx ]; simpl).
  done.
Qed.

(** ** A tick of the priority scheduler *)

(** When the requeue step adds the current process, that process is
    live and runnable. *)
Lemma scanned_queue_runnable (s : state) :
  scanned_queue s = readyqueue s
  ∨ ∃ c x, current s = Some c ∧ procs s !! c = Some x
           ∧ status x ≠ PROCESS_BLOCKED
           ∧ scanned_queue s = readyqueue s ++ [c].
Proof.
  unfold scanned_queue.
  destruct (current s) as [c|]; [|by left].
  destruct (procs s !! c) as [x|] eqn:Hx; [|by left].
  unfold is_blocked. case_bool_decide as Hb; [by left|].
  destruct (age x <? lifespan x); [|by left].
  right. by exists c, x.
Qed.

(** The tick on a state with nothing to run, and on one with something
    to run: the last process of highest priority of the scanned queue
    becomes current and ages by one. *)
Lemma tick_prio_schedule (s : state) :
  schedulable s →
  (∀ p, p ∈ scanned_queue s → ∃ x, procs s !! p = Some x ∧ 0 ≤ prio x) →
  (scanned_queue s = []
   ∧ tick prio_schedule s
     = Ok (None, mkState (procs s) None [] (resources s)))
  ∨ ∃ n q1 q2 x,
      scanned_queue s = q1 ++ n :: q2
      ∧ procs s !! n = Some x
      ∧ (∀ p y, p ∈ q2 → procs s !! p = Some y → prio y < prio x)
      ∧ tick prio_schedule s
        = Ok (Some n,
              mkState (<[n := set_age (uint (age x + 1)) x]> (procs s))
                      (Some n) (q1 ++ q2) (resources s)).
Proof.
  intros Hs Hlive.
  assert (Hcur : ∀ c, current s = Some c → is_Some (procs s !! c)).
  { intros c Hc. by apply Hs. }
  destruct (scanned_queue_structure s Hs) as (Hnd & _ & _).
  destruct (decide (scanned_queue s = [])) as [Hnil|Hne].
  - left. split; [done|].
    unfold tick, prio_schedule.
    rewrite (bind_Ok _ _ s None (requeued s)).
    + unfold requeued. rewrite Hnil. by munfold.
    + rewrite (requeue_then_pick prio_pick_next s Hcur).
      unfold prio_pick_next. munfold.
      change (readyqueue (requeued s)) with (scanned_queue s).
      by rewrite Hnil.
  - right.
    destruct (prio_schedule_run_last s Hcur Hne Hnd Hlive)
      as (n & q1 & q2 & x & Heq & Hx & _ & Hlt & Hrun).
    exists n, q1, q2, x. split_and!; [done..|].
    unfold tick. rewrite (bind_Ok _ _ _ _ _ Hrun).
    munfold. simpl. by rewrite Hx.
Qed.

(** ** The invariant *)

Lemma pcp_invariant_initial (MAX_PRIO : Z) (nr_resources : nat) :
  pcp_invariant MAX_PRIO (initial nr_resources).
Proof.
  unfold pcp_invariant, initial, schedulable. simpl.
  split_and!.
  - apply NoDup_nil_2.
  - done.
  - intros p x Hx. by rewrite lookup_empty in Hx.
  - intros p Hp. by apply not_elem_of_nil in Hp.
  - intros i r o Hr Ho. apply lookup_replicate in Hr as [-> _]. done.
  - intros i r Hr Hw. apply lookup_replicate in Hr as [-> _]. done.
Qed.

Lemma pcp_invariant_fork (MAX_PRIO : Z) (s : state) (p : ptr)
    (i lifespan prio : Z) :
  pcp_invariant MAX_PRIO s →
  procs s !! p = None →
  0 ≤ prio < MAX_PRIO →
  pcp_invariant MAX_PRIO
    (mkState (<[p := new_process i lifespan prio]> (procs s))
             (current s) (list_add_tail p (readyqueue s)) (resources s)).
Proof.
  intros ([Hnd Hcur] & HP & HR & HO & HW) Hfresh Hprio.
  assert (Hnotin : p ∉ readyqueue s).
  { intros Hin. destruct (HR p Hin) as (x & Hx & _). congruence. }
  unfold pcp_invariant, schedulable, list_add_tail. simpl.
  split_and!.
  - apply NoDup_app. split_and!; [done| |apply NoDup_singleton].
    intros q Hq ->%list_elem_of_singleton. done.
  - intros c Hc. destruct (Hcur c Hc) as [[x Hx] Hc'].
    assert (c ≠ p) by congruence.
    split; [by rewrite lookup_insert_ne|].
    intros [?| ->%list_elem_of_singleton]%elem_of_app; done.
  - intros q x. rewrite lookup_insert. case_decide.
    + intros [= <-]. simpl. lia.
    + apply HP.
  - intros q [Hq| ->%list_elem_of_singleton]%elem_of_app.
    + destruct (HR q Hq) as (x & Hx & Hlt).
      exists x. split; [|done].
      rewrite lookup_insert_ne; [done|congruence].
    + eexists. rewrite lookup_insert_eq. split; [done|]. simpl. lia.
  - intros j r o Hr Ho. destruct (HO j r o Hr Ho) as (x & Hx & Hmax).
    exists x. split; [|done]. rewrite lookup_insert_ne; [done|congruence].
  - intros j r Hr Hw. destruct (HW j r Hr Hw) as (o & Ho & Hblocked).
    exists o. split; [done|]. intros x Hc.
    destruct (Hcur o Hc) as [[y Hy] _].
    rewrite lookup_insert_ne by congruence. by apply Hblocked.
Qed.

Lemma pcp_invariant_acquire (MAX_PRIO : Z) (s s' : state)
    (resource_id : nat) (c : ptr) (x : process) (b : bool) :
  pcp_invariant MAX_PRIO s →
  current s = Some c →
  procs s !! c = Some x →
  status x ≠ PROCESS_BLOCKED →
  pcp_acquire MAX_PRIO resource_id s = Ok (b, s') →
  pcp_invariant MAX_PRIO s'.
Proof.
  intros ([Hnd Hcur] & HP & HR & HO & HW) Hc Hx Hrunning Hrun.
  destruct (pcp_acquire_returns _ _ _ _ _ Hrun) as [r Hr].
  assert (Hlt : (resource_id < length (resources s))%nat)
    by (eapply lookup_lt_Some; eauto).
  destruct (Hcur c Hc) as [_ Hnotin].
  pose proof (HP c x Hx) as Hrange.
  destruct (owner r) as [o|] eqn:Ho.
  - rewrite (pcp_acquire_owned MAX_PRIO s resource_id c o r x) in Hrun
      by done.
    injection Hrun as <- <-.
    unfold pcp_invariant, schedulable. simpl. rewrite Hc.
    split_and!.
    + done.
    + intros c' [= <-]. split; [|done]. by rewrite lookup_insert_eq.
    + intros q y. rewrite lookup_insert. case_decide.
      * intros [= <-]. simpl. lia.
      * apply HP.
    + intros q Hq. destruct (HR q Hq) as (y & Hy & Hlty).
      exists y. split; [|done].
      rewrite lookup_insert_ne; [done|]. by intros <-.
    + intros j r' o' Hr' Ho'.
      assert (∃ r0, resources s !! j = Some r0 ∧ owner r0 = Some o')
        as (r0 & Hr0 & Ho0).
      { destruct (decide (j = resource_id)) as [->|Hne].
        - rewrite list_lookup_insert_eq in Hr' by done.
          injection Hr' as <-. simpl in Ho'. exists r. by rewrite Ho.
        - rewrite list_lookup_insert_ne in Hr' by done. eauto. }
      destruct (HO j r0 o' Hr0 Ho0) as (y & Hy & Hmax).
      rewrite lookup_insert. case_decide as Heq.
      * subst o'. eexists. split; [done|]. simpl. congruence.
      * eauto.
    + intros j r' Hr' Hw'.
      destruct (decide (j = resource_id)) as [->|Hne].
      * rewrite list_lookup_insert_eq in Hr' by done.
        injection Hr' as <-. simpl. exists o. split; [done|].
        intros y [= <-]. rewrite lookup_insert_eq. by intros [= <-].
      * rewrite list_lookup_insert_ne in Hr' by done.
        destruct (HW j r' Hr' Hw') as (o' & Ho' & _).
        exists o'. split; [done|].
        intros y [= <-]. rewrite lookup_insert_eq. by intros [= <-].
  - assert (Hnil : waitqueue r = []).
    { destruct (decide (waitqueue r = [])) as [|Hne]; [done|].
      destruct (HW resource_id r Hr Hne) as (o & Ho' & _). congruence. }
    rewrite (pcp_acquire_free MAX_PRIO s resource_id c r x) in Hrun by done.
    injection Hrun as <- <-.
    unfold pcp_invariant, schedulable. simpl. rewrite Hc.
    split_and!.
    + done.
    + intros c' [= <-]. split; [|done]. by rewrite lookup_insert_eq.
    + intros q y. rewrite lookup_insert. case_decide.
      * intros [= <-]. simpl. lia.
      * apply HP.
    + intros q Hq. destruct (HR q Hq) as (y & Hy & Hlty).
      exists y. split; [|done].
      rewrite lookup_insert_ne; [done|]. by intros <-.
    + intros j r' o' Hr' Ho'.
      destruct (decide (j = resource_id)) as [->|Hne].
      * rewrite list_lookup_insert_eq in Hr' by done.
        injection Hr' as <-. simpl in Ho'. injection Ho' as <-.
        eexists. by rewrite lookup_insert_eq.
      * rewrite list_lookup_insert_ne in Hr' by done.
        destruct (HO j r' o' Hr' Ho') as (y & Hy & Hmax).
        rewrite lookup_insert. case_decide as Heq.
        -- eexists. split; [done|]. done.
        -- eauto.
    + intros j r' Hr' Hw'.
      destruct (decide (j = resource_id)) as [->|Hne].
      * rewrite list_lookup_insert_eq in Hr' by done.
        injection Hr' as <-. simpl in Hw'. done.
      * rewrite list_lookup_insert_ne in Hr' by done.
        destruct (HW j r' Hr' Hw') as (o' & Ho' & Hblocked).
        exists o'. split; [done|].
        intros y [= <-]. exfalso. by apply Hrunning, Hblocked.
Qed.

Lemma pcp_invariant_release (MAX_PRIO : Z) (s s' : state)
    (resource_id : nat) (c : ptr) (x : process) :
  pcp_invariant MAX_PRIO s →
  current s = Some c →
  procs s !! c = Some x →
  status x ≠ PROCESS_BLOCKED →
  pcp_release resource_id s = Ok (tt, s') →
  pcp_invariant MAX_PRIO s'
  ∧ ∃ r, resources s !! resource_id = Some r
         ∧ owner r = Some c ∧ waitqueue r = [].
Proof.
  intros ([Hnd Hcur] & HP & HR & HO & HW) Hc Hx Hrunning Hrun.
  destruct (pcp_release_returns _ _ _ Hrun) as (r & Hr & Ho).
  rewrite Hc in Ho.
  assert (Hlt : (resource_id < length (resources s))%nat)
    by (eapply lookup_lt_Some; eauto).
  assert (Hnil : waitqueue r = []).
  { destruct (decide (waitqueue r = [])) as [|Hne]; [done|].
    destruct (HW resource_id r Hr Hne) as (o & Ho' & Hblocked).
    exfalso. apply Hrunning, Hblocked; congruence. }
  split; [|by exists r].
  rewrite (pcp_release_no_waiter s resource_id c r) in Hrun by done.
  injection Hrun as <-.
  unfold pcp_invariant, schedulable. simpl.
  split_and!; try done.
  - intros j r' o' Hr' Ho'.
    destruct (decide (j = resource_id)) as [->|Hne].
    + rewrite list_lookup_insert_eq in Hr' by done. by injection Hr' as <-.
    + rewrite list_lookup_insert_ne in Hr' by done. eauto.
  - intros j r' Hr' Hw'.
    destruct (decide (j = resource_id)) as [->|Hne].
    + rewrite list_lookup_insert_eq in Hr' by done. by injection Hr' as <-.
    + rewrite list_lookup_insert_ne in Hr' by done. eauto.
Qed.

(** The last entry of a queue that ends with [c] and in which [n],
    another process, stands somewhere: [c] stands behind [n]. *)
Lemma snoc_behind (q q1 q2 : list ptr) (c n : ptr) :
  q ++ [c] = q1 ++ n :: q2 → c ≠ n → c ∈ q2 ∧ n ∈ q.
Proof.
  intros Heq Hne. destruct q2 as [|z q2 _] using rev_ind.
  - apply app_inj_tail in Heq as [_ ->]. done.
  - change (q1 ++ n :: q2 ++ [z]) with (q1 ++ (n :: q2) ++ [z]) in Heq.
    rewrite app_assoc in Heq. apply app_inj_tail in Heq as [-> ->].
    split.
    + apply elem_of_app. right. left.
    + apply elem_of_app. right. left.
Qed.

Lemma pcp_invariant_tick (MAX_PRIO : Z) (s s' : state) (o : option ptr) :
  pcp_invariant MAX_PRIO s →
  tick prio_schedule s = Ok (o, s') →
  pcp_invariant MAX_PRIO s'.
Proof.
  intros (Hs & HP & HR & HO & HW) Hrun.
  destruct (scanned_queue_structure s Hs) as (Hnd & Hfrom & _).
  assert (Hlive : ∀ p, p ∈ scanned_queue s →
                       ∃ x, procs s !! p = Some x ∧ 0 ≤ prio x).
  { intros p Hp.
    assert (is_Some (procs s !! p)) as [x Hx].
    { destruct (Hfrom p Hp) as [Hin|Hc].
      - destruct (HR p Hin) as (x & Hx & _). eauto.
      - by apply Hs. }
    exists x. split; [done|]. by apply (HP p x). }
  destruct (tick_prio_schedule s Hs Hlive)
    as [[Hnil Htick]|(n & q1 & q2 & x & Heq & Hx & Hlt & Htick)];
    rewrite Htick in Hrun; injection Hrun as <- <-.
  { unfold pcp_invariant, schedulable. simpl.
    split_and!; try done.
    - apply NoDup_nil_2.
    - intros p Hp. by apply not_elem_of_nil in Hp.
    - intros i r Hr Hw. destruct (HW i r Hr Hw) as (o & Ho & _).
      exists o. done. }
  rewrite Heq in Hnd.
  assert (Hn : n ∉ q1 ++ q2).
  { apply NoDup_app in Hnd as (_ & Hq1 & Hnd).
    apply NoDup_cons in Hnd as [Hq2 _].
    intros [Hin|Hin]%elem_of_app; [|done]. apply (Hq1 n Hin). left. }
  assert (Hnd' : NoDup (q1 ++ q2)).
  { apply NoDup_app in Hnd as (Hq1 & Hdisj & Hnd).
    apply NoDup_cons in Hnd as [_ Hq2].
    apply NoDup_app. split_and!; [done| |done].
    intros p Hp Hp2. apply (Hdisj p Hp). by right. }
  assert (Hsub : ∀ p, p ∈ q1 ++ q2 → p ∈ scanned_queue s ∧ p ≠ n).
  { intros p Hp. split; [|by intros ->].
    rewrite Heq. apply elem_of_app in Hp as [Hp|Hp]; apply elem_of_app;
      [by left|right; by right]. }
  assert (Hnin : n ∈ scanned_queue s).
  { rewrite Heq. apply elem_of_app. right. left. }
  (* the picked process is below the ceiling or is the runnable current *)
  assert (Hpicked : prio x < MAX_PRIO
                    ∨ current s = Some n ∧ status x ≠ PROCESS_BLOCKED).
  { destruct (scanned_queue_runnable s)
      as [Hq|(c & xc & Hc & Hxc & Hrunning & Hq)].
    - left. rewrite Hq in Hnin. destruct (HR n Hnin) as (y & Hy & Hlty).
      congruence.
    - rewrite Hq in Hnin.
      apply elem_of_app in Hnin as [Hnin| ->%list_elem_of_singleton].
      + left. destruct (HR n Hnin) as (y & Hy & Hlty). congruence.
      + right. split; [done|]. congruence. }
  unfold pcp_invariant, schedulable. simpl.
  split_and!.
  - done.
  - intros c [= <-]. split; [|done]. by rewrite lookup_insert_eq.
  - intros p y. rewrite lookup_insert. case_decide.
    + intros [= <-]. simpl. by apply (HP n x).
    + apply HP.
  - intros p Hp. destruct (Hsub p Hp) as [Hin Hne].
    rewrite lookup_insert_ne by done.
    destruct (scanned_queue_runnable s)
      as [Hq|(c & xc & Hc & Hxc & Hrunning & Hq)].
    + rewrite Hq in Hin. by apply HR.
    + rewrite Hq in Hin.
      apply elem_of_app in Hin as [Hin| ->%list_elem_of_singleton];
        [by apply HR|].
      rewrite Hq in Heq.
      destruct (snoc_behind _ _ _ _ _ Heq Hne) as [Hbehind Hready].
      exists xc. split; [done|].
      specialize (Hlt c xc Hbehind Hxc).
      destruct (HR n Hready) as (y & Hy & Hlty).
      assert (y = x) by congruence. subst y. lia.
  - intros i r o Hr Ho. destruct (HO i r o Hr Ho) as (y & Hy & Hmax).
    rewrite lookup_insert. case_decide as Hno.
    + subst o. eexists. split; [done|]. simpl. congruence.
    + eauto.
  - intros i r Hr Hw. destruct (HW i r Hr Hw) as (o & Ho & Hblocked).
    exists o. split; [done|].
    intros y [= <-]. rewrite lookup_insert_eq. intros [= <-]. simpl.
    destruct Hpicked as [Hbelow|[Hc Hrunning]].
    + destruct (HO i r n Hr Ho) as (y & Hy & Hmax).
      assert (y = x) by congruence. subst y. lia.
    + exfalso. by apply Hrunning, Hblocked.
Qed.

Lemma pcp_reachable_invariant (MAX_PRIO : Z) (s : state) :
  pcp_reachable MAX_PRIO s → pcp_invariant MAX_PRIO s.
Proof.
  induction 1 as [nr_resources|s s' _ IH Hstep].
  - apply pcp_invariant_initial.
  - destruct Hstep as [p i lifespan prio Hfresh Hprio
                      |o s' Htick
                      |resource_id c x b s' Hc Hx Hrunning Hrun
                      |resource_id c x s' Hc Hx Hrunning Hrun].
    + by apply pcp_invariant_fork.
    + by apply (pcp_invariant_tick MAX_PRIO s s' o).
    + by apply (pcp_invariant_acquire MAX_PRIO s s' resource_id c x b).
    + by apply (pcp_invariant_release MAX_PRIO s s' resource_id c x).
Qed.

(** A state with a BLOCKED waiter behind a running owner, like
    [pcp_elevated_waiter], is not one of them. *)
Lemma pcp_elevated_waiter_unreachable (MAX_PRIO : Z) :
  ¬ pcp_reachable MAX_PRIO pcp_elevated_waiter.
Proof.
  intros (_ & _ & _ & _ & HW)%pcp_reachable_invariant.
  destruct (HW 0%nat (mkResource (Some 1) [2]) eq_refl ltac:(discriminate))
    as (o & Ho & Hblocked).
  injection Ho as <-.
  specialize (Hblocked (mkProcess 1 PROCESS_RUNNING 1 5 64 1)
                eq_refl eq_refl).
  discriminate.
Qed.

(** ** The elevation round trip *)


(** ** Instances for the ceiling protocol *)

